(** * Batch conversion queue and worker of the UDF converter (tk.py)

    A shallow embedding of the queue handling ([_add_files],
    [_on_drop_files]), the pre-flight step ([_on_convert],
    [_find_collisions], [_name_suffix]) and the background worker
    ([_worker_run]) of [src/tk.py], together with the display helpers the
    worker drives ([_set_status], [_set_progress], [_log], [_end_run]).

    Modelling conventions:
    - a [str] is the text of its UTF-8 encoding;
    - a [pathlib.Path] is its normalised text (POSIX flavour), as
      [Path(s)] builds it from a [str]: runs of slashes and [.] components
      are dropped, [..] components and symbolic links are not resolved;
      [Path] equality is equality of these texts, which is what
      [P not in self.files] and [Path(vals[1]) == path] compare;
    - the file system is the finite set of the paths for which
      [Path.exists()] holds;
    - the Tk variables, the stop flag and the clock are shared with the
      display thread, so the worker sees them through timelines indexed by
      the instant of the read: [0] is the set-up before the loop, [idx] is
      item [idx] (1-based, as in [enumerate(self.files, start=1)]) and
      [S n], for a loop that walks [n] items, is the code after the loop
      and the end of the run;
    - the decoder, the writers and the zip library are external: each call
      either returns or raises, as answered by the environment; a write
      that returns leaves its file on disk, a write that raises leaves the
      disk as it was, and leaving the decoder block does not raise;
    - the worker's calls on the display are collected in order and then
      applied to the display state; they do not raise;
    - the loop iterates over the live list [self.files], to which the
      display thread can append while a batch runs ([_add_files] and
      [_on_drop_files] have no guard): the worker is given the number of
      files at its start and the list as its loop walks it; [run] is the
      run during which nothing is appended, [run_live] the run during
      which the display thread makes the given enqueue calls;
    - the texts of the status, Parquet and CSV columns, the row tags and
      the log lines are enumerations of the texts the code writes. *)

From Stdlib Require Import Ascii String.
From stdpp Require Import base option list strings gmap.

Abbreviation Path := string (only parsing).

(** ** pathlib *)

Module pathlib.

(** [s.rpartition(c)]: the text before and after the last [c], if any. *)
Fixpoint rpartition (c : ascii) (s : string) : option (string * string) :=
  match s with
  | EmptyString => None
  | String a rest =>
      match rpartition c rest with
      | Some (pre, post) => Some (String a pre, post)
      | None => if Ascii.eqb a c then Some (EmptyString, rest) else None
      end
  end.

(** The texts between the slashes of [s]; [cur] is the one being read. *)
Fixpoint components (s : string) (cur : string) : list string :=
  match s with
  | EmptyString => [cur]
  | String a rest =>
      if Ascii.eqb a "/" then cur :: components rest EmptyString
      else components rest (cur +:+ String a EmptyString)
  end.

(** The root of a POSIX path text: exactly two leading slashes are kept,
    one slash, or three and more, make the root [/]. *)
Definition root (s : string) : string :=
  match s with
  | String a (String b rest) =>
      if Ascii.eqb a "/" then
        if Ascii.eqb b "/" then
          match rest with
          | String c _ => if Ascii.eqb c "/" then "/" else "//"
          | EmptyString => "//"
          end
        else "/"
      else ""
  | String a EmptyString => if Ascii.eqb a "/" then "/" else ""
  | EmptyString => ""
  end.

(** A component that [Path(s)] keeps: not empty and not [.]. *)
Definition is_part (c : string) : bool :=
  negb (String.eqb c "") && negb (String.eqb c ".").

Fixpoint join (ps : list string) : string :=
  match ps with
  | [] => ""
  | [p] => p
  | p :: rest => p +:+ "/" +:+ join rest
  end.

(** [str(Path(s))]: the root and the kept components, or [.] when there
    is neither. *)
Definition Path_ (s : string) : Path :=
  match List.filter is_part (components s "") with
  | [] => match root s with EmptyString => "." | r => r end
  | ps => root s +:+ join ps
  end.

(** [PurePath.name]: the final component; [.] has none. *)
Definition name (p : Path) : string :=
  if String.eqb p "." then ""
  else
    match rpartition "/"%char p with
    | Some (_, post) => post
    | None => p
    end.

(** [PurePath.suffix]: [i = name.rfind('.')], and the suffix is
    [name[i:]] when [0 < i < len(name) - 1], empty otherwise. *)
Definition suffix (p : Path) : string :=
  match rpartition "."%char (name p) with
  | Some (String a pre, String b post) => String "."%char (String b post)
  | _ => EmptyString
  end.

(** [PurePath.stem]: [name[:i]] under the same condition, else the name. *)
Definition stem (p : Path) : string :=
  match rpartition "."%char (name p) with
  | Some (String a pre, String b post) => String a pre
  | _ => name p
  end.

(** [d / f] for a single component [f] other than [.]: [f] follows the
    root when [d] is a root, stands alone when [d] is [.], and follows a
    slash otherwise. *)
Definition joinpath (d : Path) (f : string) : Path :=
  if String.eqb d "." then f
  else if String.eqb d "/" || String.eqb d "//" then d +:+ f
  else d +:+ "/" +:+ f.

(** [Path.exists()] against the set of existing paths. *)
Definition exists_ (fs : gset string) (p : Path) : bool := bool_decide (p ∈ fs).

End pathlib.

Infix "/:" := pathlib.joinpath (at level 40, left associativity).

(** ** str helpers *)

Definition lower_ascii (a : ascii) : ascii :=
  let n := nat_of_ascii a in
  if (65 <=? n)%nat && (n <=? 90)%nat then ascii_of_nat (n + 32) else a.

(** [str.lower()], as far as the letters A to Z go.  No other character
    is lowered to one of the letters of [.udf] and [.bin] alone (U+0130
    gives an [i] followed by a combining dot, U+212A gives a [k]), so the
    comparison of a lower-cased suffix with [.udf] and [.bin] is decided
    by the bytes of the letters A to Z. *)
Fixpoint lower (s : string) : string :=
  match s with
  | EmptyString => EmptyString
  | String a rest => String (lower_ascii a) (lower rest)
  end.

(** The characters for which [str.isspace()] holds, by the bytes of their
    encoding.  One byte: U+0009 to U+000D, U+001C to U+001F and U+0020. *)
Definition is_py_space (a : ascii) : bool :=
  let n := nat_of_ascii a in
  ((9 <=? n)%nat && (n <=? 13)%nat) || ((28 <=? n)%nat && (n <=? 32)%nat).

(** Two bytes: U+0085 and U+00A0. *)
Definition is_py_space2 (a b : ascii) : bool :=
  let m := nat_of_ascii a in
  let n := nat_of_ascii b in
  (m =? 194)%nat && ((n =? 133)%nat || (n =? 160)%nat).

(** Three bytes: U+1680, U+2000 to U+200A, U+2028, U+2029, U+202F, U+205F
    and U+3000. *)
Definition is_py_space3 (a b c : ascii) : bool :=
  let l := nat_of_ascii a in
  let m := nat_of_ascii b in
  let n := nat_of_ascii c in
  ((l =? 225)%nat && (m =? 154)%nat && (n =? 128)%nat)
  || ((l =? 226)%nat && (m =? 128)%nat
      && (((128 <=? n)%nat && (n <=? 138)%nat)
          || (n =? 168)%nat || (n =? 169)%nat || (n =? 175)%nat))
  || ((l =? 226)%nat && (m =? 129)%nat && (n =? 159)%nat)
  || ((l =? 227)%nat && (m =? 128)%nat && (n =? 128)%nat).

(** [str.lstrip()]; with [backwards], the same on a reversed text, whose
    characters have their bytes in reverse. *)
Fixpoint lstrip (backwards : bool) (s : string) : string :=
  match s with
  | EmptyString => EmptyString
  | String a r1 =>
      if is_py_space a then lstrip backwards r1
      else
        match r1 with
        | EmptyString => s
        | String b r2 =>
            if (if backwards then is_py_space2 b a else is_py_space2 a b)
            then lstrip backwards r2
            else
              match r2 with
              | EmptyString => s
              | String c r3 =>
                  if (if backwards then is_py_space3 c b a else is_py_space3 a b c)
                  then lstrip backwards r3
                  else s
              end
        end
  end.

(** [str.strip()]. *)
Definition strip (s : string) : string :=
  String.rev (lstrip true (String.rev (lstrip false s))).

(** Truthiness of a [str]. *)
Definition nonempty (s : string) : bool :=
  match s with EmptyString => false | _ => true end.

(** ** Display state *)

(** The text of the status column. *)
Inductive Status := Queued | Running | Skipped | Done | Error | Cancelled.

(** The text of the Parquet and CSV columns: [""], ["✔"] and
    ["✔ (existing)"]. *)
Inductive Cell := Blank | Check | CheckExisting.

(** The row tags configured in [_build_queue]. *)
Inductive Tag := TagOk | TagRun | TagErr | TagWait.

Global Instance Status_eq_dec : EqDecision Status.
Proof. solve_decision. Defined.
Global Instance Cell_eq_dec : EqDecision Cell.
Proof. solve_decision. Defined.
Global Instance Tag_eq_dec : EqDecision Tag.
Proof. solve_decision. Defined.

(** Truthiness of a cell text. *)
Definition cell_nonempty (c : Cell) : bool :=
  match c with Blank => false | _ => true end.

(** One row of [self.tree]: the values [(#, file, status, parquet, csv)]
    and the tag.  The file column is written as [str(path)] and read back
    as [Path(vals[1])], which is the path again; the row keeps the
    path. *)
Record Row := mkRow {
  row_num : nat;
  row_file : Path;
  row_status : Status;
  row_parquet : Cell;
  row_csv : Cell;
  row_tag : Tag
}.

(** The lines written by [_log]. *)
Inductive LogLine :=
| LStarting (n : nat)
| LCancelRequested
| LSkipped (idx total : nat) (name : string)
| LReading (idx total : nat) (name : string)
| LFinished (idx total : nat) (name : string)
| LError (name : string) (e : string)
| LTraceback
| LBundling (n : nat) (zip_name : string)
| LZipAddFailed (name : string) (e : string).

(** The Tk variables holding the configuration. *)
Record Vars := mkVars {
  output_dir : string;
  scaling : bool;
  write_parquet : bool;
  write_csv : bool;
  user_message : string;
  subfolder : bool;
  timestamp_suffix : bool;
  skip_existing : bool;
  zip_outputs : bool
}.

(** The state of [App] that the queue and the worker touch. *)
Record App := mkApp {
  files : list Path;
  tree : list Row;
  log : list LogLine;
  progress_value : nat;
  progress_maximum : nat;
  is_running : bool;
  convert_btn : bool;
  cancel_btn : bool;
  notified : option bool;
  fatal_shown : option string;
  open_out_btn : bool
}.

Definition set_files (fl : list Path) (a : App) : App :=
  mkApp fl (tree a) (log a) (progress_value a) (progress_maximum a)
        (is_running a) (convert_btn a) (cancel_btn a) (notified a) (fatal_shown a)
        (open_out_btn a).

Definition set_tree (t : list Row) (a : App) : App :=
  mkApp (files a) t (log a) (progress_value a) (progress_maximum a)
        (is_running a) (convert_btn a) (cancel_btn a) (notified a) (fatal_shown a)
        (open_out_btn a).

Definition set_log (l : list LogLine) (a : App) : App :=
  mkApp (files a) (tree a) l (progress_value a) (progress_maximum a)
        (is_running a) (convert_btn a) (cancel_btn a) (notified a) (fatal_shown a)
        (open_out_btn a).

Definition set_progress_value (v : nat) (a : App) : App :=
  mkApp (files a) (tree a) (log a) v (progress_maximum a)
        (is_running a) (convert_btn a) (cancel_btn a) (notified a) (fatal_shown a)
        (open_out_btn a).

Definition set_convert_btn (b : bool) (a : App) : App :=
  mkApp (files a) (tree a) (log a) (progress_value a) (progress_maximum a)
        (is_running a) b (cancel_btn a) (notified a) (fatal_shown a) (open_out_btn a).

(** The application as [__init__] leaves it when no output folder is
    stored in the settings. *)
Definition App_init : App :=
  mkApp [] [] [] 0 100 false false false None None false.

(** ** Display helpers *)

(** [_tree_insert]: a new last row, numbered by the row count. *)
Definition _tree_insert (path : Path) (status : Status) (a : App) : App :=
  set_tree (tree a ++ [mkRow (length (tree a) + 1) path status Blank Blank TagWait]) a.

Fixpoint renumber_from (i : nat) (rows : list Row) : list Row :=
  match rows with
  | [] => []
  | r :: rest =>
      mkRow i (row_file r) (row_status r) (row_parquet r) (row_csv r) (row_tag r)
        :: renumber_from (S i) rest
  end.

(** [_renumber]. *)
Definition _renumber (a : App) : App := set_tree (renumber_from 1 (tree a)) a.

(** [_refresh_buttons]. *)
Definition _refresh_buttons (a : App) : App :=
  set_convert_btn (negb (is_running a) && bool_decide (0 < length (files a))) a.

(** The loop of [_set_status]: the first row showing [path] is rewritten,
    the others are left alone. *)
Fixpoint set_status_rows (path : Path) (status : Status) (tag : Tag)
    (parquet csv : Cell) (rows : list Row) : list Row :=
  match rows with
  | [] => []
  | r :: rest =>
      if bool_decide (row_file r = path) then
        mkRow (row_num r) (row_file r) status
              (if cell_nonempty parquet then parquet else row_parquet r)
              (if cell_nonempty csv then csv else row_csv r)
              tag :: rest
      else r :: set_status_rows path status tag parquet csv rest
  end.

(** [_set_status]. *)
Definition _set_status (path : Path) (status : Status) (tag : Tag)
    (parquet csv : Cell) (a : App) : App :=
  set_tree (set_status_rows path status tag parquet csv (tree a)) a.

(** [_set_progress]. *)
Definition _set_progress (done : nat) (a : App) : App := set_progress_value done a.

(** [_log]. *)
Definition _log (line : LogLine) (a : App) : App := set_log (log a ++ [line]) a.

(** ** The queue *)

(** The body of the loop of [_add_files] for one selected name [p]. *)
Definition add_one (fs : gset string) (a : App) (p : string) : App :=
  if pathlib.exists_ fs (pathlib.Path_ p)
     && negb (bool_decide (pathlib.Path_ p ∈ files a)) then
    _tree_insert (pathlib.Path_ p) Queued
      (set_files (files a ++ [pathlib.Path_ p]) a)
  else a.

(** [_add_files], given the names the file dialog returned. *)
Definition _add_files (fs : gset string) (paths : list string) (a : App) : App :=
  match paths with
  | [] => a
  | _ => _refresh_buttons (_renumber (foldl (add_one fs) a paths))
  end.

(** The body of the loop of [_on_drop_files] for one dropped name [p]. *)
Definition drop_one (fs : gset string) (a : App) (p : string) : App :=
  if pathlib.exists_ fs (pathlib.Path_ p)
     && bool_decide (lower (pathlib.suffix (pathlib.Path_ p)) ∈ [".udf"; ".bin"])
     && negb (bool_decide (pathlib.Path_ p ∈ files a)) then
    _tree_insert (pathlib.Path_ p) Queued
      (set_files (files a ++ [pathlib.Path_ p]) a)
  else a.

(** The loop of [_parse_dnd_list] over the rest of [data], with the
    locals [out], [cur] and [in_brace].  A closing brace appends [cur]
    without clearing it. *)
Fixpoint parse_dnd_loop (data : string) (out : list string) (cur : string)
    (in_brace : bool) : list string :=
  match data with
  | EmptyString => if nonempty cur then out ++ [cur] else out
  | String ch rest =>
      if Ascii.eqb ch "{" then parse_dnd_loop rest out "" true
      else if Ascii.eqb ch "}" then parse_dnd_loop rest (out ++ [cur]) cur false
      else if Ascii.eqb ch " " && negb in_brace then
        if nonempty cur then parse_dnd_loop rest (out ++ [cur]) "" in_brace
        else parse_dnd_loop rest out cur in_brace
      else parse_dnd_loop rest out (cur +:+ String ch EmptyString) in_brace
  end.

(** [_parse_dnd_list]. *)
Definition _parse_dnd_list (data : string) : list string :=
  parse_dnd_loop data [] "" false.

(** [_on_drop_files], given [event.data]. *)
Definition _on_drop_files (fs : gset string) (data : string) (a : App) : App :=
  _refresh_buttons (_renumber (foldl (drop_one fs) a (_parse_dnd_list data))).

(** A call that enqueues, with the file system it runs against: the file
    dialog with the names it returns, or a drop with its data. *)
Inductive EnqueueCall :=
| AddFiles (fs : gset string) (paths : list string)
| DropFiles (fs : gset string) (data : string).

Definition enqueue_call (a : App) (c : EnqueueCall) : App :=
  match c with
  | AddFiles fs paths => _add_files fs paths a
  | DropFiles fs data => _on_drop_files fs data a
  end.

Definition enqueue_calls (cs : list EnqueueCall) (a : App) : App :=
  foldl enqueue_call a cs.

(** ** The worker's view of the outside *)

(** The outcome of a call that may raise; [e] is [str(e)]. *)
Inductive result (A : Type) := Ok (a : A) | Raise (e : string).
Arguments Ok {A} a.
Arguments Raise {A} e.

(** What the worker reads and calls outside its own locals.  The three
    timelines are indexed by the instant of the read. *)
Record Env := mkEnv {
  tk : nat → Vars;                      (* the Tk variables *)
  stop_flag : nat → bool;               (* [self.stop_flag.is_set()] *)
  ts_now : nat → string;                (* [ts_now()] *)
  import_decoder : result unit;         (* [_import_decoder()] and the imports *)
  UDFDecoder : Path → result unit;      (* entering [with UDFDecoder() as dec] *)
  read_bin_file : Path → bool → result unit;
  add_user_meta_data : Path → string → result unit;
  write_table : Path → Path → result unit;  (* [get_arrow_table] and [pq.write_table] *)
  to_csv : Path → Path → result unit;       (* [get_pandas_dataframe] and [df.to_csv] *)
  ZipFile : Path → result unit;
  zf_write : Path → string → result unit;
  zf_close : Path → result unit         (* leaving [with zipfile.ZipFile(...)] *)
}.

(** The calls the worker makes on the application object; [_end_run]
    comes with the text it reads from [self.output_dir]. *)
Inductive AppCall :=
| CSetStatus (path : Path) (status : Status) (tag : Tag) (parquet csv : Cell)
| CLog (line : LogLine)
| CSetProgress (done : nat)
| CSetIsRunning (b : bool)
| CEndRun (stopped : bool) (out : string)
| CShowError (e : string).

(** The worker's state: the file system, the local [produced], the archive
    opened (its path and the names of the entries added) and the calls
    made so far. *)
Record WState := mkW {
  w_fs : gset string;
  produced : list Path;
  archive : option (Path * list string);
  calls : list AppCall
}.

(** ** A state monad with exceptions *)

Definition M (A : Type) : Type := WState → result A * WState.

Global Instance M_ret : MRet M := λ A a s, (Ok a, s).

Global Instance M_bind : MBind M := λ A B k m s,
  match m s with
  | (Ok a, s') => k a s'
  | (Raise e, s') => (Raise e, s')
  end.

(** [try: m except Exception as e: h e]. *)
Definition try_except {A} (m : M A) (h : string → M A) : M A := λ s,
  match m s with
  | (Ok a, s') => (Ok a, s')
  | (Raise e, s') => h e s'
  end.

(** An external call. *)
Definition call {A} (r : result A) : M A := λ s, (r, s).

(** A call on the application object. *)
Definition app_call (c : AppCall) : M unit := λ s,
  (Ok tt, mkW (w_fs s) (produced s) (archive s) (calls s ++ [c])).

Definition get_fs : M (gset string) := λ s, (Ok (w_fs s), s).

Definition get_produced : M (list Path) := λ s, (Ok (produced s), s).

(** A successful write leaves the file on disk. *)
Definition fs_add (p : Path) : M unit := λ s,
  (Ok tt, mkW ({[p]} ∪ w_fs s) (produced s) (archive s) (calls s)).

(** [produced.append(p)]. *)
Definition produced_append (p : Path) : M unit := λ s,
  (Ok tt, mkW (w_fs s) (produced s ++ [p]) (archive s) (calls s)).

(** A zip archive opened for writing: empty, and on disk. *)
Definition zip_create (zip_name : Path) : M unit := λ s,
  (Ok tt, mkW ({[zip_name]} ∪ w_fs s) (produced s) (Some (zip_name, [])) (calls s)).

(** An entry added to the open archive. *)
Definition zip_add (arcname : string) : M unit := λ s,
  (Ok tt, mkW (w_fs s) (produced s)
     (match archive s with
      | Some (z, entries) => Some (z, entries ++ [arcname])
      | None => None
      end) (calls s)).

(** ** Helpers of the application *)

(** [_name_suffix], given the variable and the clock as read. *)
Definition _name_suffix (v : Vars) (now : string) : string :=
  if timestamp_suffix v then "_" +:+ now else "".

(** The loop body of [_find_collisions] for one file. *)
Definition collisions_of (v : Vars) (fs : gset string) (out_dir : Path)
    (suffix : string) (f : Path) : list string :=
  let base := pathlib.stem f +:+ suffix in
  (if write_parquet v && pathlib.exists_ fs (out_dir /: (base +:+ ".parquet"))
   then [base +:+ ".parquet"] else [])
  ++ (if write_csv v && pathlib.exists_ fs (out_dir /: (base +:+ ".csv"))
      then [base +:+ ".csv"] else []).

(** [_find_collisions]. *)
Definition _find_collisions (v : Vars) (fs : gset string) (fl : list Path)
    (out_dir : Path) (suffix : string) : list string :=
  concat (map (collisions_of v fs out_dir suffix) fl).

(** [_end_run], given the text [out] of [self.output_dir] as it reads
    it. *)
Definition _end_run (stopped : bool) (out : string) (a : App) : App :=
  let a1 := mkApp (files a) (tree a) (log a) (progress_value a) (progress_maximum a)
                  (is_running a) true false (notified a) (fatal_shown a)
                  (nonempty (strip out)) in
  let a2 := _refresh_buttons a1 in
  mkApp (files a2) (tree a2) (log a2) (progress_value a2) (progress_maximum a2)
        (is_running a2) (convert_btn a2) (cancel_btn a2) (Some (negb stopped)) (fatal_shown a2)
        (open_out_btn a2).

(** The effect of one call of the worker on the application. *)
Definition apply_call (a : App) (c : AppCall) : App :=
  match c with
  | CSetStatus path status tag parquet csv => _set_status path status tag parquet csv a
  | CLog line => _log line a
  | CSetProgress done => _set_progress done a
  | CSetIsRunning b =>
      mkApp (files a) (tree a) (log a) (progress_value a) (progress_maximum a)
            b (convert_btn a) (cancel_btn a) (notified a) (fatal_shown a) (open_out_btn a)
  | CEndRun stopped out => _end_run stopped out a
  | CShowError e =>
      mkApp (files a) (tree a) (log a) (progress_value a) (progress_maximum a)
            (is_running a) (convert_btn a) (cancel_btn a) (notified a) (Some e)
            (open_out_btn a)
  end.

Definition apply_calls (cs : list AppCall) (a : App) : App := foldl apply_call a cs.

(** ** The worker *)

(** How an iteration of the loop leaves its body. *)
Inductive Flow := Fallthrough | Continue | Break.

Section Worker.
(** The environment, the argument [out_dir] and the locals that
    [_worker_run] fixes before the loop; [total] is [len(self.files)] as
    read then. *)
Variable E : Env.
Variable out_dir : Path.
Variable total : nat.
Variable do_parq do_csv apply_scaling : bool.
Variable user_msg : option string.
Variable suffix : string.

Definition parq_path_of (in_file : Path) : option Path :=
  if do_parq then Some (out_dir /: ((pathlib.stem in_file +:+ suffix) +:+ ".parquet"))
  else None.

Definition csv_path_of (in_file : Path) : option Path :=
  if do_csv then Some (out_dir /: ((pathlib.stem in_file +:+ suffix) +:+ ".csv"))
  else None.

(** [p and p.exists()] for an optional path. *)
Definition path_exists (fs : gset string) (p : option Path) : bool :=
  match p with
  | Some q => pathlib.exists_ fs q
  | None => false
  end.

(** Truthiness of an optional path: a [Path] is true, [None] is false. *)
Definition truthy (p : option Path) : bool :=
  match p with Some _ => true | None => false end.

(** The flag [existed] of the skip check. *)
Definition existed (fs : gset string) (in_file : Path) : bool :=
  path_exists fs (parq_path_of in_file) || path_exists fs (csv_path_of in_file).

(** The [with UDFDecoder() as dec:] block and the lines after it, up to
    the end of the [try] body. *)
Definition convert_item (idx : nat) (in_file : Path) : M Flow :=
  call (UDFDecoder E in_file);;
  app_call (CLog (LReading idx total (pathlib.name in_file)));;
  call (read_bin_file E in_file apply_scaling);;
  match user_msg with
  | Some m => call (add_user_meta_data E in_file m)
  | None => mret tt
  end;;
  match parq_path_of in_file with
  | Some parq_path =>
      call (write_table E in_file parq_path);;
      fs_add parq_path;;
      produced_append parq_path
  | None => mret tt
  end;;
  match csv_path_of in_file with
  | Some csv_path =>
      call (to_csv E in_file csv_path);;
      fs_add csv_path;;
      produced_append csv_path
  | None => mret tt
  end;;
  app_call (CSetStatus in_file Done TagOk
              (if truthy (parq_path_of in_file) then Check else Blank)
              (if truthy (csv_path_of in_file) then Check else Blank));;
  app_call (CLog (LFinished idx total (pathlib.name in_file)));;
  mret Fallthrough.

(** The body of the inner [try]. *)
Definition try_body (idx : nat) (in_file : Path) : M Flow :=
  fs ← get_fs;
  if skip_existing (tk E idx) && existed fs in_file then
    app_call (CSetStatus in_file Skipped TagWait
                (if path_exists fs (parq_path_of in_file) then CheckExisting else Blank)
                (if path_exists fs (csv_path_of in_file) then CheckExisting else Blank));;
    app_call (CLog (LSkipped idx total (pathlib.name in_file)));;
    app_call (CSetProgress idx);;
    mret Continue
  else convert_item idx in_file.

(** The [except Exception as e:] clause of the inner [try]. *)
Definition item_except (in_file : Path) (e : string) : M Flow :=
  app_call (CSetStatus in_file Error TagErr Blank Blank);;
  app_call (CLog (LError (pathlib.name in_file) e));;
  app_call (CLog LTraceback);;
  mret Fallthrough.

(** One iteration of the [for] loop. *)
Definition loop_body (idx : nat) (in_file : Path) : M Flow :=
  if stop_flag E idx then
    app_call (CSetStatus in_file Cancelled TagErr Blank Blank);;
    mret Break
  else
    app_call (CSetStatus in_file Running TagRun Blank Blank);;
    fl ← try_except (try_body idx in_file) (item_except in_file);
    match fl with
    | Fallthrough => app_call (CSetProgress idx);; mret Fallthrough
    | other => mret other
    end.

(** [for idx, in_file in enumerate(self.files, start=1)], entered at
    index [idx] with [items] left. *)
Fixpoint for_loop (idx : nat) (items : list Path) : M unit :=
  match items with
  | [] => mret tt
  | in_file :: rest =>
      fl ← loop_body idx in_file;
      match fl with
      | Break => mret tt
      | _ => for_loop (S idx) rest
      end
  end.

End Worker.

(** The loop over [produced] inside [with zipfile.ZipFile(...) as zf]. *)
Fixpoint zip_loop (E : Env) (ps : list Path) : M unit :=
  match ps with
  | [] => mret tt
  | p :: rest =>
      try_except
        (call (zf_write E p (pathlib.name p));; zip_add (pathlib.name p))
        (λ e, app_call (CLog (LZipAddFailed (pathlib.name p) e)));;
      zip_loop E rest
  end.

(** The archive step after a loop that walked [n] items; leaving the
    [with] block closes the archive, outside the [try] of the entries. *)
Definition bundle (E : Env) (out_dir : Path) (n : nat) : M unit :=
  prod ← get_produced;
  if zip_outputs (tk E (S n)) && bool_decide (prod ≠ []) then
    let zip_name := out_dir /: ("udf_exports_" +:+ ts_now E (S n) +:+ ".zip") in
    app_call (CLog (LBundling (length prod) (pathlib.name zip_name)));;
    call (ZipFile E zip_name);;
    zip_create zip_name;;
    zip_loop E prod;;
    call (zf_close E zip_name)
  else mret tt.

(** [user_msg = self.user_message.get().strip() or None]. *)
Definition user_msg_of (v : Vars) : option string :=
  let m := strip (user_message v) in
  if nonempty m then Some m else None.

(** [_worker_run(out_dir)]: [total] is [len(self.files)] as read before
    the loop and [fl] is [self.files] as the loop walks it, which is longer
    when the display thread appends to it in time. *)
Definition _worker_run (E : Env) (out_dir : Path) (total : nat) (fl : list Path) : M unit :=
  try_except
    (call (import_decoder E);;
     let do_parq := write_parquet (tk E 0) in
     let do_csv := write_csv (tk E 0) in
     let apply_scaling := scaling (tk E 0) in
     let user_msg := user_msg_of (tk E 0) in
     let suffix := _name_suffix (tk E 0) (ts_now E 0) in
     for_loop E out_dir total do_parq do_csv apply_scaling user_msg suffix 1 fl;;
     bundle E out_dir (length fl);;
     app_call (CSetIsRunning false);;
     app_call (CEndRun (stop_flag E (S (length fl)))
                       (output_dir (tk E (S (length fl))))))
    (λ e,
     app_call (CSetIsRunning false);;
     app_call (CEndRun true (output_dir (tk E (S (length fl)))));;
     app_call (CShowError e)).

(** The worker's state when the thread starts. *)
Definition w_init (fs : gset string) : WState := mkW fs [] None [].

(** A run of the worker thread on the application [a] and the file system
    [fs], during which nothing is appended to the queue: the worker's
    final state. *)
Definition run (E : Env) (out_dir : Path) (a : App) (fs : gset string) : WState :=
  (_worker_run E out_dir (length (files a)) (files a) (w_init fs)).2.

(** The application after the run. *)
Definition run_app (E : Env) (out_dir : Path) (a : App) (fs : gset string) : App :=
  apply_calls (calls (run E out_dir a fs)) a.

(** A run during which the display thread makes the enqueue calls
    [arrivals], each in time for the loop to walk what it appends: the
    worker counts the files of [a] and walks those of the queue the calls
    leave. *)
Definition run_live (E : Env) (out_dir : Path) (a : App) (arrivals : list EnqueueCall)
    (fs : gset string) : WState :=
  (_worker_run E out_dir (length (files a)) (files (enqueue_calls arrivals a))
     (w_init fs)).2.

(** The application after such a run.  Each enqueue call is taken to be
    complete, the file appended and its row inserted, before the loop
    reaches the file; a call of the loop on a row that is there and an
    enqueue call give the same display in either order (see
    [enqueue_call_commutes]), so the calls of the display thread are
    applied first. *)
Definition run_live_app (E : Env) (out_dir : Path) (a : App)
    (arrivals : list EnqueueCall) (fs : gset string) : App :=
  apply_calls (calls (run_live E out_dir a arrivals fs)) (enqueue_calls arrivals a).

(** ** Starting a batch *)

(** Why [_on_convert] ends without starting the worker: the message it
    shows, or the exception of [out_dir.mkdir], which it does not catch. *)
Inductive Refusal :=
| NoFiles
| NoFormats
| NoOutputFolder
| OutputFolderMissing
| MissingDependencies (missing : list string)
| MkdirRaised (e : string)
| OverwriteDeclined (collisions : list string).

(** What [_on_convert] hands to the worker thread. *)
Record Started := mkStarted {
  st_out_dir : Path;
  st_fs : gset string;
  st_app : App;
  st_collisions : list string
}.

(** [_on_convert], given the Tk variables and the clock as read by the
    display thread, the answer of [_check_deps], the outcome of
    [out_dir.mkdir(parents=True, exist_ok=True)] if it is called and the
    answer the user gives to the overwrite prompt if it is shown. *)
Definition _on_convert (v : Vars) (now : string) (missing : list string)
    (mkdir : result unit) (askyesno : bool) (fs : gset string) (a : App)
    : Refusal + Started :=
  if bool_decide (files a = []) then inl NoFiles
  else if negb (write_parquet v || write_csv v) then inl NoFormats
  else
    let out := strip (output_dir v) in
    if negb (nonempty out) then inl NoOutputFolder
    else if negb (pathlib.exists_ fs (pathlib.Path_ out)) then inl OutputFolderMissing
    else if negb (bool_decide (missing = [])) then inl (MissingDependencies missing)
    else
      match (if subfolder v then mkdir else Ok tt) with
      | Raise e => inl (MkdirRaised e)
      | Ok _ =>
          let out_dir :=
            if subfolder v then pathlib.Path_ out /: "UDF_Exports"
            else pathlib.Path_ out in
          let fs1 := if subfolder v then {[out_dir]} ∪ fs else fs in
          let collisions :=
            if skip_existing v then []
            else _find_collisions v fs1 (files a) out_dir (_name_suffix v now) in
          if negb (bool_decide (collisions = [])) && negb askyesno
          then inl (OverwriteDeclined collisions)
          else
            inr (mkStarted out_dir fs1
                   (mkApp (files a) (tree a) [LStarting (length (files a))]
                          0 (max 1 (length (files a))) true false true
                          (notified a) (fatal_shown a) (open_out_btn a))
                   collisions)
      end.

(** ** Vocabulary of the properties *)

(** The operation [enqueue(path)] of the specification on the list of the
    queued paths, with [ok] the outcome of the test made on the path: no
    change when the test fails or the path is there, a new last element
    otherwise. *)
Definition enqueue_spec (ok : bool) (l : list Path) (P : Path) : list Path :=
  if ok && negb (bool_decide (P ∈ l)) then l ++ [P] else l.

(** The test [_on_drop_files] adds to that of [_add_files]. *)
Definition dnd_suffix_ok (P : Path) : bool :=
  bool_decide (lower (pathlib.suffix P) ∈ [".udf"; ".bin"]).

(** What one step of a queue loop may do to the list: nothing, or one new
    last element that was not there. *)
Definition queue_step (l l' : list Path) : Prop :=
  l' = l ∨ ∃ P, (P ∉ l) ∧ l' = l ++ [P].

(** The status the display shows for [p]: that of the first row for [p],
    the row [_set_status] would rewrite. *)
Fixpoint status_rows (p : Path) (rows : list Row) : option Status :=
  match rows with
  | [] => None
  | r :: rest =>
      if bool_decide (row_file r = p) then Some (row_status r) else status_rows p rest
  end.

Definition status_of (a : App) (p : Path) : option Status := status_rows p (tree a).

(** The statuses the calls [cs] set for [p], in order. *)
Fixpoint status_trace (p : Path) (cs : list AppCall) : list Status :=
  match cs with
  | [] => []
  | CSetStatus q st _ _ _ :: rest =>
      if bool_decide (q = p) then st :: status_trace p rest else status_trace p rest
  | _ :: rest => status_trace p rest
  end.

(** The statuses the display shows for [p] after each of the calls [cs]. *)
Fixpoint status_history (p : Path) (a : App) (cs : list AppCall) : list (option Status) :=
  match cs with
  | [] => []
  | c :: rest => status_of (apply_call a c) p :: status_history p (apply_call a c) rest
  end.

Definition terminal (s : Status) : bool :=
  match s with
  | Done | Skipped | Error | Cancelled => true
  | Queued | Running => false
  end.

(** The transition table of the specification. *)
Definition table_spec (s s' : Status) : bool :=
  match s, s' with
  | Queued, Cancelled | Queued, Skipped | Queued, Running
  | Running, Done | Running, Error => true
  | _, _ => false
  end.

(** The transitions the worker makes: [Running] ends in [Skipped],
    [Done] or [Error]; every other status, also one a former run left,
    can be followed by [Running] and by [Cancelled]. *)
Definition table_code (s s' : Status) : bool :=
  match s, s' with
  | Running, Skipped | Running, Done | Running, Error => true
  | Running, _ => false
  | _, Running | _, Cancelled => true
  | _, _ => false
  end.

(** Every change of the shown status is a transition of the table. *)
Fixpoint follows_table (tbl : Status → Status → bool) (s : option Status)
    (h : list (option Status)) : Prop :=
  match h with
  | [] => True
  | s' :: rest =>
      (s' = s ∨ ∃ x y, s = Some x ∧ s' = Some y ∧ tbl x y = true)
      ∧ follows_table tbl s' rest
  end.

(** The calls [cs] only set statuses of the paths in [L] and only report
    progress [i] with [lo ≤ i < hi]. *)
Definition calls_about (L : list Path) (lo hi : nat) (cs : list AppCall) : Prop :=
  Forall (λ c, match c with
               | CSetStatus p _ _ _ _ => p ∈ L
               | CSetProgress i => lo ≤ i < hi
               | _ => True
               end) cs.

(** The calls [cs] only log. *)
Definition only_logs (cs : list AppCall) : Prop :=
  Forall (λ c, match c with CLog _ => True | _ => False end) cs.

(** How the visit of one item ends; [written] are the files written during
    the visit. *)
Inductive Outcome :=
| OCancelled
| OSkipped (parquet csv : Cell)
| ODone (parquet csv : Cell) (written : list Path)
| OError (reading_logged : bool) (e : string) (written : list Path).

Definition outcome_flow (o : Outcome) : Flow :=
  match o with
  | OCancelled => Break
  | OSkipped _ _ => Continue
  | ODone _ _ _ | OError _ _ _ => Fallthrough
  end.

Definition outcome_status (o : Outcome) : Status :=
  match o with
  | OCancelled => Cancelled
  | OSkipped _ _ => Skipped
  | ODone _ _ _ => Done
  | OError _ _ _ => Error
  end.

Definition outcome_written (o : Outcome) : list Path :=
  match o with
  | ODone _ _ w | OError _ _ w => w
  | _ => []
  end.

(** The calls of a visit that ends with outcome [o]. *)
Definition outcome_calls (total idx : nat) (x : Path) (o : Outcome) : list AppCall :=
  match o with
  | OCancelled => [CSetStatus x Cancelled TagErr Blank Blank]
  | OSkipped pq cs =>
      [CSetStatus x Running TagRun Blank Blank;
       CSetStatus x Skipped TagWait pq cs;
       CLog (LSkipped idx total (pathlib.name x));
       CSetProgress idx]
  | ODone pq cs _ =>
      [CSetStatus x Running TagRun Blank Blank;
       CLog (LReading idx total (pathlib.name x));
       CSetStatus x Done TagOk pq cs;
       CLog (LFinished idx total (pathlib.name x));
       CSetProgress idx]
  | OError rl e _ =>
      CSetStatus x Running TagRun Blank Blank
      :: (if rl then [CLog (LReading idx total (pathlib.name x))] else [])
      ++ [CSetStatus x Error TagErr Blank Blank;
          CLog (LError (pathlib.name x) e);
          CLog LTraceback;
          CSetProgress idx]
  end.

(** The worker's state after a visit that ends with outcome [o]. *)
Definition outcome_state (total idx : nat) (x : Path) (o : Outcome) (s : WState) : WState :=
  mkW (foldl (λ fs p, {[p]} ∪ fs) (w_fs s) (outcome_written o))
      (produced s ++ outcome_written o)
      (archive s)
      (calls s ++ outcome_calls total idx x o).

Section Summary.
Variable E : Env.
Variable out_dir : Path.
Variable total : nat.
Variable do_parq do_csv apply_scaling : bool.
Variable user_msg : option string.
Variable suffix : string.

(** The decoder was entered, the file read and the user message, if
    any, attached. *)
Definition decoded (x : Path) : Prop :=
  UDFDecoder E x = Ok tt
  ∧ read_bin_file E x apply_scaling = Ok tt
  ∧ match user_msg with
    | Some m => add_user_meta_data E x m = Ok tt
    | None => True
    end.

(** The answers of the environment to the calls of [convert_item], in
    the order of the calls: the exception raised, if any, the files
    written up to there, and whether the read was logged. *)
Definition attempt (x : Path) : option string * list Path * bool :=
  match UDFDecoder E x with
  | Raise e => (Some e, [], false)
  | Ok _ =>
  match read_bin_file E x apply_scaling with
  | Raise e => (Some e, [], true)
  | Ok _ =>
  match (match user_msg with
         | Some m => add_user_meta_data E x m
         | None => Ok tt
         end) with
  | Raise e => (Some e, [], true)
  | Ok _ =>
  match (match parq_path_of out_dir do_parq suffix x with
         | Some p => (write_table E x p, [p])
         | None => (Ok tt, [])
         end) with
  | (Raise e, _) => (Some e, [], true)
  | (Ok _, w1) =>
  match (match csv_path_of out_dir do_csv suffix x with
         | Some c => (to_csv E x c, [c])
         | None => (Ok tt, [])
         end) with
  | (Raise e, _) => (Some e, w1, true)
  | (Ok _, w2) => (None, w1 ++ w2, true)
  end end end end end.

(** The outcome of the visit of [x] at index [idx] on the file system
    [fs]. *)
Definition item_outcome (idx : nat) (x : Path) (fs : gset string) : Outcome :=
  if stop_flag E idx then OCancelled
  else if skip_existing (tk E idx) && existed out_dir do_parq do_csv suffix fs x then
    OSkipped
      (if path_exists fs (parq_path_of out_dir do_parq suffix x) then CheckExisting else Blank)
      (if path_exists fs (csv_path_of out_dir do_csv suffix x) then CheckExisting else Blank)
  else
    match attempt x with
    | (None, w, _) =>
        ODone (if truthy (parq_path_of out_dir do_parq suffix x) then Check else Blank)
              (if truthy (csv_path_of out_dir do_csv suffix x) then Check else Blank) w
    | (Some e, w, rl) => OError rl e w
    end.

(** The state in which the loop over [items], entered at [idx] in state
    [s], leaves the worker. *)
Fixpoint loop_state (idx : nat) (items : list Path) (s : WState) : WState :=
  match items with
  | [] => s
  | x :: rest =>
      let o := item_outcome idx x (w_fs s) in
      match o with
      | OCancelled => outcome_state total idx x o s
      | _ => loop_state (S idx) rest (outcome_state total idx x o s)
      end
  end.
End Summary.

(** The calls [cs] set no status and report no progress. *)
Definition no_item_calls (cs : list AppCall) : Prop :=
  Forall (λ c, match c with
               | CSetStatus _ _ _ _ _ | CSetProgress _ => False
               | _ => True
               end) cs.

(** The entry names [zip_loop] adds for [ps]: one per file whose
    [zf.write] returns. *)
Definition zip_entries (E : Env) (ps : list Path) : list string :=
  omap (λ p, match zf_write E p (pathlib.name p) with
             | Ok _ => Some (pathlib.name p)
             | Raise _ => None
             end) ps.

(** The lines [zip_loop] logs for [ps]: one per file whose [zf.write]
    raises. *)
Definition zip_failures (E : Env) (ps : list Path) : list AppCall :=
  omap (λ p, match zf_write E p (pathlib.name p) with
             | Ok _ => None
             | Raise e => Some (CLog (LZipAddFailed (pathlib.name p) e))
             end) ps.

(** The name of the archive of a run whose loop walked [n] items. *)
Definition zip_name_of (E : Env) (out_dir : Path) (n : nat) : Path :=
  out_dir /: ("udf_exports_" +:+ ts_now E (S n) +:+ ".zip").

(** The worker's final state for the count [total] and the list [fl]. *)
Definition wrun (E : Env) (out_dir : Path) (total : nat) (fl : list Path)
    (fs : gset string) : WState :=
  (_worker_run E out_dir total fl (w_init fs)).2.

(** The worker's state when its loop ends, and when it reaches the item
    at position [k] of [fl]. *)
Definition wrun_loop (E : Env) (out_dir : Path) (total : nat) (fl : list Path)
    (fs : gset string) : WState :=
  loop_state E out_dir total
    (write_parquet (tk E 0)) (write_csv (tk E 0)) (scaling (tk E 0))
    (user_msg_of (tk E 0)) (_name_suffix (tk E 0) (ts_now E 0))
    1 fl (w_init fs).

Definition wrun_before (E : Env) (out_dir : Path) (total : nat) (fl : list Path)
    (fs : gset string) (k : nat) : WState :=
  wrun_loop E out_dir total (take k fl) fs.

(** The worker's state when the loop of a run ends. *)
Definition run_loop (E : Env) (out_dir : Path) (a : App) (fs : gset string) : WState :=
  loop_state E out_dir (length (files a))
    (write_parquet (tk E 0)) (write_csv (tk E 0)) (scaling (tk E 0))
    (user_msg_of (tk E 0)) (_name_suffix (tk E 0) (ts_now E 0))
    1 (files a) (w_init fs).

(** The worker's state when it reaches the item at position [k] of the
    queue. *)
Definition run_before (E : Env) (out_dir : Path) (a : App) (fs : gset string)
    (k : nat) : WState :=
  loop_state E out_dir (length (files a))
    (write_parquet (tk E 0)) (write_csv (tk E 0)) (scaling (tk E 0))
    (user_msg_of (tk E 0)) (_name_suffix (tk E 0) (ts_now E 0))
    1 (take k (files a)) (w_init fs).

(** The outcome of the visit of [x] in a run, on the file system [fs]. *)
Definition run_outcome (E : Env) (out_dir : Path) (idx : nat) (x : Path)
    (fs : gset string) : Outcome :=
  item_outcome E out_dir
    (write_parquet (tk E 0)) (write_csv (tk E 0)) (scaling (tk E 0))
    (user_msg_of (tk E 0)) (_name_suffix (tk E 0) (ts_now E 0)) idx x fs.

(** The statuses set for one item follow the table from [s] on. *)
Fixpoint trace_follows (tbl : Status → Status → bool) (s : Status)
    (tr : list Status) : bool :=
  match tr with
  | [] => true
  | s' :: rest => tbl s s' && trace_follows tbl s' rest
  end.

(** The statuses one run sets for one item: none, [Cancelled] alone, or
    [Running] and then one of [Skipped], [Done] and [Error]. *)
Definition trace_shape (tr : list Status) : Prop :=
  tr = [] ∨ tr = [Cancelled] ∨ tr = [Running; Skipped]
  ∨ tr = [Running; Done] ∨ tr = [Running; Error].

(** The flag [existed] of the skip check in a run. *)
Definition run_existed (E : Env) (out_dir : Path) (fs : gset string) (x : Path) : bool :=
  existed out_dir (write_parquet (tk E 0)) (write_csv (tk E 0))
    (_name_suffix (tk E 0) (ts_now E 0)) fs x.

(** The planned Parquet and CSV paths of [x] in a run. *)
Definition run_parq_path (E : Env) (out_dir : Path) (x : Path) : option Path :=
  parq_path_of out_dir (write_parquet (tk E 0)) (_name_suffix (tk E 0) (ts_now E 0)) x.

Definition run_csv_path (E : Env) (out_dir : Path) (x : Path) : option Path :=
  csv_path_of out_dir (write_csv (tk E 0)) (_name_suffix (tk E 0) (ts_now E 0)) x.

(** In a run, the decoder is entered for [x], reads it and takes the user
    message, if any, without raising. *)
Definition run_decoded (E : Env) (x : Path) : Prop :=
  decoded E (scaling (tk E 0)) (user_msg_of (tk E 0)) x.

(** In a run, the decoder or a write raises [e] for [x]: entering the
    decoder, reading, attaching the user message, writing the Parquet
    file, or writing the CSV file after the Parquet file, if planned, was
    written. *)
Inductive run_raises (E : Env) (out_dir : Path) (x : Path) (e : string) : Prop :=
| raises_decoder :
    UDFDecoder E x = Raise e → run_raises E out_dir x e
| raises_read :
    UDFDecoder E x = Ok tt →
    read_bin_file E x (scaling (tk E 0)) = Raise e → run_raises E out_dir x e
| raises_meta m :
    UDFDecoder E x = Ok tt →
    read_bin_file E x (scaling (tk E 0)) = Ok tt →
    user_msg_of (tk E 0) = Some m →
    add_user_meta_data E x m = Raise e → run_raises E out_dir x e
| raises_parquet p :
    run_decoded E x →
    run_parq_path E out_dir x = Some p →
    write_table E x p = Raise e → run_raises E out_dir x e
| raises_csv c :
    run_decoded E x →
    (∀ p, run_parq_path E out_dir x = Some p → write_table E x p = Ok tt) →
    run_csv_path E out_dir x = Some c →
    to_csv E x c = Raise e → run_raises E out_dir x e.

(** The environment in which skip-existing is read as off at every
    instant, and which is otherwise [E]. *)
Definition skip_off (E : Env) : Env :=
  mkEnv (λ t, let v := tk E t in
              mkVars (output_dir v) (scaling v) (write_parquet v) (write_csv v)
                     (user_message v) (subfolder v) (timestamp_suffix v) false
                     (zip_outputs v))
        (stop_flag E) (ts_now E) (import_decoder E) (UDFDecoder E) (read_bin_file E)
        (add_user_meta_data E) (write_table E) (to_csv E) (ZipFile E) (zf_write E)
        (zf_close E).

(** One iteration of the loop of a run. *)
Definition run_loop_body (E : Env) (out_dir : Path) (a : App) : nat → Path → M Flow :=
  loop_body E out_dir (length (files a))
    (write_parquet (tk E 0)) (write_csv (tk E 0)) (scaling (tk E 0))
    (user_msg_of (tk E 0)) (_name_suffix (tk E 0) (ts_now E 0)).

(** The calls [cs] are calls of the loop: statuses, log lines and
    progress. *)
Definition item_calls_only (cs : list AppCall) : Prop :=
  Forall (λ c, match c with
               | CSetStatus _ _ _ _ _ | CLog _ | CSetProgress _ => True
               | _ => False
               end) cs.

(** The environment [E] with the timeline [tk'] of the Tk variables. *)
Definition with_tk (tk' : nat → Vars) (E : Env) : Env :=
  mkEnv tk' (stop_flag E) (ts_now E) (import_decoder E) (UDFDecoder E) (read_bin_file E)
        (add_user_meta_data E) (write_table E) (to_csv E) (ZipFile E) (zf_write E)
        (zf_close E).

(** ** Removing from the queue *)

(** The rows left when the rows at the positions [sel] are deleted; [i] is
    the position of the first of [rows]. *)
Fixpoint delete_rows (sel : list nat) (i : nat) (rows : list Row) : list Row :=
  match rows with
  | [] => []
  | r :: rest =>
      if bool_decide (i ∈ sel) then delete_rows sel (S i) rest
      else r :: delete_rows sel (S i) rest
  end.

(** The body of the loop of [_remove_selected] on [self.files], for the
    selected row at position [i] of the tree [tree0] as it was when the
    loop started: the rows are renumbered only after the loop, so the
    number read is the one the row had then.  [idx = int(values[0]) - 1],
    and [self.files.pop(idx)] if [0 <= idx < len(self.files)]. *)
Definition pop_selected (tree0 : list Row) (fl : list Path) (i : nat) : list Path :=
  match tree0 !! i with
  | Some r =>
      match row_num r with
      | 0 => fl
      | S idx => delete idx fl
      end
  | None => fl
  end.

(** [_remove_selected], given the positions of the rows of
    [self.tree.selection()], in the order of the selection. *)
Definition _remove_selected (sel : list nat) (a : App) : App :=
  if is_running a then a
  else
    _refresh_buttons
      (_renumber
         (set_tree (delete_rows sel 0 (tree a))
            (set_files (foldl (pop_selected (tree a)) (files a) sel) a))).

(** [_clear_list]. *)
Definition _clear_list (a : App) : App :=
  if is_running a then a
  else _refresh_buttons (set_tree [] (set_files [] a)).

(** ** Settings *)

(** A value of the settings file, as far as [bool(...)] and the Tk
    variables look at it; a list or an object is known by its
    emptiness. *)
Inductive JVal :=
| JNull
| JBool (b : bool)
| JInt (n : Z)
| JStr (s : string)
| JCompound (nonempty : bool).

(** The settings file: missing, not parsable as JSON, a JSON object, or
    another JSON value.  [json.loads(json.dumps(d))] is taken to be [d]. *)
Inductive SettingsFile :=
| NoFile
| BadJson
| JsonDict (d : gmap string JVal)
| JsonOther.

(** [bool(x)]. *)
Definition py_bool (x : JVal) : bool :=
  match x with
  | JNull => false
  | JBool b => b
  | JInt n => negb (n =? 0)%Z
  | JStr s => nonempty s
  | JCompound b => b
  end.

(** [load_settings]: [None] stands for a loaded value that is not a
    [dict], on which [.get] raises. *)
Definition load_settings (f : SettingsFile) : option (gmap string JVal) :=
  match f with
  | NoFile | BadJson => Some ∅
  | JsonDict d => Some d
  | JsonOther => None
  end.

(** [save_settings]: the write either succeeds or raises, and then leaves
    the file in the state [failed]; the exception is swallowed. *)
Definition save_settings (written : bool) (failed : SettingsFile)
    (data : gmap string JVal) : SettingsFile :=
  if written then JsonDict data else failed.

(** The dictionary [_persist_settings] builds. *)
Definition settings_data (theme : string) (v : Vars) : gmap string JVal :=
  <["theme" := JStr theme]>
  (<["output_dir" := JStr (output_dir v)]>
  (<["scaling" := JBool (scaling v)]>
  (<["write_parquet" := JBool (write_parquet v)]>
  (<["write_csv" := JBool (write_csv v)]>
  (<["user_message" := JStr (user_message v)]>
  (<["subfolder" := JBool (subfolder v)]>
  (<["timestamp_suffix" := JBool (timestamp_suffix v)]>
  (<["skip_existing" := JBool (skip_existing v)]>
  (<["zip_outputs" := JBool (zip_outputs v)]> ∅))))))))).

(** [_persist_settings]. *)
Definition _persist_settings (written : bool) (failed : SettingsFile)
    (theme : string) (v : Vars) : SettingsFile :=
  save_settings written failed (settings_data theme v).

(** The Tk variables as [__init__] creates them. *)
Definition Vars_init : Vars :=
  mkVars "" true true true "" false false true false.

Section Settings.
(** The text a [StringVar] holds after [set(x)]; for a [str] it is the
    string itself. *)
Variable tk_text : JVal → string.

(** [s.get(key, default)]. *)
Definition dict_get (s : gmap string JVal) (key : string) (default : JVal) : JVal :=
  match s !! key with
  | Some x => x
  | None => default
  end.

(** [_restore_settings]: the Tk variables after it, or [None] when
    [.get] raises. *)
Definition _restore_settings (f : SettingsFile) : option Vars :=
  match load_settings f with
  | None => None
  | Some s =>
      Some (mkVars
              (tk_text (dict_get s "output_dir" (JStr "")))
              (py_bool (dict_get s "scaling" (JBool true)))
              (py_bool (dict_get s "write_parquet" (JBool true)))
              (py_bool (dict_get s "write_csv" (JBool true)))
              (tk_text (dict_get s "user_message" (JStr "")))
              (py_bool (dict_get s "subfolder" (JBool false)))
              (py_bool (dict_get s "timestamp_suffix" (JBool false)))
              (py_bool (dict_get s "skip_existing" (JBool true)))
              (py_bool (dict_get s "zip_outputs" (JBool false))))
  end.
End Settings.

(** ** Vocabulary of the further properties *)

(** The queue and its display agree: no path twice, one row per file in
    the order of the files, rows numbered from 1. *)
Definition queue_ok (a : App) : Prop :=
  NoDup (files a)
  ∧ map row_file (tree a) = files a
  ∧ map row_num (tree a) = seq 1 (length (tree a)).

(** A character that [_parse_dnd_list] treats as part of a name. *)
Definition dnd_plain_char (c : ascii) : bool :=
  negb (Ascii.eqb c "{") && negb (Ascii.eqb c "}") && negb (Ascii.eqb c " ").

(** A character other than a brace. *)
Definition dnd_inner_char (c : ascii) : bool :=
  negb (Ascii.eqb c "{") && negb (Ascii.eqb c "}").

Fixpoint string_forall (P : ascii → bool) (s : string) : bool :=
  match s with
  | EmptyString => true
  | String c rest => P c && string_forall P rest
  end.



(** Drop data for names without spaces: the names separated by one
    space. *)
Fixpoint dnd_join (ps : list string) : string :=
  match ps with
  | [] => ""
  | [p] => p
  | p :: rest => p +:+ " " +:+ dnd_join rest
  end.

(** Drop data for names with spaces: each name in braces, separated by
    one space. *)
Fixpoint dnd_braced (ps : list string) : string :=
  match ps with
  | [] => ""
  | [p] => "{" +:+ p +:+ "}"
  | p :: rest => "{" +:+ p +:+ "} " +:+ dnd_braced rest
  end.

(** The output paths planned for [x] in a run, Parquet first. *)
Definition run_planned (E : Env) (out_dir : Path) (x : Path) : list Path :=
  option_list (run_parq_path E out_dir x) ++ option_list (run_csv_path E out_dir x).

(** The lines the calls [cs] write to the log, in order. *)
Fixpoint log_trace (cs : list AppCall) : list LogLine :=
  match cs with
  | [] => []
  | CLog line :: rest => line :: log_trace rest
  | _ :: rest => log_trace rest
  end.

(** The progress values the calls [cs] report, in order. *)
Fixpoint progress_trace (cs : list AppCall) : list nat :=
  match cs with
  | [] => []
  | CSetProgress i :: rest => i :: progress_trace rest
  | _ :: rest => progress_trace rest
  end.

(** Every row shows Queued. *)
Definition all_queued (a : App) : Prop :=
  Forall (λ r, row_status r = Queued) (tree a).

(** Where a path [P] of the queue may come from: it is [Path(p)] for a
    name [p] the file dialog returned, or for a name parsed from drop data
    when it is a [.udf] or [.bin] path, and it existed when the call was
    made. *)
Definition enqueued_by (P : Path) (c : EnqueueCall) : Prop :=
  match c with
  | AddFiles fs paths => (∃ p, p ∈ paths ∧ P = pathlib.Path_ p) ∧ P ∈ fs
  | DropFiles fs data =>
      (∃ p, p ∈ _parse_dnd_list data ∧ P = pathlib.Path_ p) ∧ P ∈ fs
      ∧ lower (pathlib.suffix P) ∈ [".udf"; ".bin"]
  end.

(** The worker's state keeps what it produced apart from what was on the
    file system [fs0] before: nothing produced twice, everything produced
    on disk and not in [fs0], and nothing of [fs0] lost. *)
Definition produced_fresh (fs0 : gset string) (s : WState) : Prop :=
  NoDup (produced s)
  ∧ (∀ p, p ∈ produced s → p ∈ w_fs s ∧ p ∉ fs0)
  ∧ fs0 ⊆ w_fs s.

(** In a run, every call of the decoder and of the writers for [x]
    returns. *)
Definition run_converts (E : Env) (out_dir : Path) (x : Path) : Prop :=
  run_decoded E x
  ∧ (∀ p, run_parq_path E out_dir x = Some p → write_table E x p = Ok tt)
  ∧ (∀ c, run_csv_path E out_dir x = Some c → to_csv E x c = Ok tt).

(** ** The trial version (tk.trial_1.py) *)

Module trial_1.

(** [_refresh_buttons] of the trial version, given the text [out] of
    [self.output_dir] as it reads it: the Convert button follows the queue
    only while no batch runs. *)
Definition _refresh_buttons (out : string) (a : App) : App :=
  let a1 := if is_running a then a
            else set_convert_btn (bool_decide (0 < length (files a))) a in
  mkApp (files a1) (tree a1) (log a1) (progress_value a1) (progress_maximum a1)
        (is_running a1) (convert_btn a1) (cancel_btn a1) (notified a1) (fatal_shown a1)
        (nonempty (strip out)).

(** [_end_run] of the trial version, given the stop flag as the
    notification reads it and the text of [self.output_dir]. *)
Definition _end_run (stop_is_set : bool) (out : string) (a : App) : App :=
  let a1 := mkApp (files a) (tree a) (log a) (progress_value a) (progress_maximum a)
                  (is_running a) true false (notified a) (fatal_shown a) true in
  let a2 := _refresh_buttons out a1 in
  mkApp (files a2) (tree a2) (log a2) (progress_value a2) (progress_maximum a2)
        (is_running a2) (convert_btn a2) (cancel_btn a2) (Some (negb stop_is_set))
        (fatal_shown a2) (open_out_btn a2).

(** The effect of one call of the trial worker on the application. *)
Definition apply_call (a : App) (c : AppCall) : App :=
  match c with
  | CEndRun stop_is_set out => _end_run stop_is_set out a
  | _ => apply_call a c
  end.

Definition apply_calls (cs : list AppCall) (a : App) : App := foldl apply_call a cs.

(** [_find_collisions] of the trial version. *)
Definition _find_collisions (v : Vars) (fs : gset string) (fl : list Path)
    (out_dir : Path) : list string :=
  concat (map (λ f,
    (if write_parquet v && pathlib.exists_ fs (out_dir /: (pathlib.stem f +:+ ".parquet"))
     then [pathlib.stem f +:+ ".parquet"] else [])
    ++ (if write_csv v && pathlib.exists_ fs (out_dir /: (pathlib.stem f +:+ ".csv"))
        then [pathlib.stem f +:+ ".csv"] else [])) fl).

Section Worker.
Variable E : Env.
Variable out_dir : Path.
Variable total : nat.
Variable do_parq do_csv apply_scaling : bool.
Variable user_msg : option string.

(** The body of the inner [try]. *)
Definition convert_item (idx : nat) (in_file : Path) : M unit :=
  call (UDFDecoder E in_file);;
  app_call (CLog (LReading idx total (pathlib.name in_file)));;
  call (read_bin_file E in_file apply_scaling);;
  match user_msg with
  | Some m => call (add_user_meta_data E in_file m)
  | None => mret tt
  end;;
  (if do_parq then
     call (write_table E in_file (out_dir /: (pathlib.stem in_file +:+ ".parquet")));;
     fs_add (out_dir /: (pathlib.stem in_file +:+ ".parquet"))
   else mret tt);;
  (if do_csv then
     call (to_csv E in_file (out_dir /: (pathlib.stem in_file +:+ ".csv")));;
     fs_add (out_dir /: (pathlib.stem in_file +:+ ".csv"))
   else mret tt);;
  app_call (CSetStatus in_file Done TagOk
              (if do_parq then Check else Blank)
              (if do_csv then Check else Blank));;
  app_call (CLog (LFinished idx total (pathlib.name in_file))).

(** The [except Exception as e:] clause of the inner [try]. *)
Definition item_except (in_file : Path) (e : string) : M unit :=
  app_call (CSetStatus in_file Error TagErr Blank Blank);;
  app_call (CLog (LError (pathlib.name in_file) e));;
  app_call (CLog LTraceback).

(** One iteration of the [for] loop. *)
Definition loop_body (idx : nat) (in_file : Path) : M Flow :=
  if stop_flag E idx then
    app_call (CSetStatus in_file Cancelled TagErr Blank Blank);;
    mret Break
  else
    app_call (CSetStatus in_file Running TagRun Blank Blank);;
    try_except (convert_item idx in_file) (item_except in_file);;
    app_call (CSetProgress idx);;
    mret Fallthrough.

Fixpoint for_loop (idx : nat) (items : list Path) : M unit :=
  match items with
  | [] => mret tt
  | in_file :: rest =>
      fl ← loop_body idx in_file;
      match fl with
      | Break => mret tt
      | _ => for_loop (S idx) rest
      end
  end.
End Worker.

(** [_worker_run] of the trial version, with [total] and [fl] as for
    tk.py; the stop flag of the notification and the output folder are
    read at the end of the run. *)
Definition _worker_run (E : Env) (total : nat) (fl : list Path) : M unit :=
  try_except
    (call (import_decoder E);;
     let out_dir := pathlib.Path_ (strip (output_dir (tk E 0))) in
     let do_parq := write_parquet (tk E 0) in
     let do_csv := write_csv (tk E 0) in
     let apply_scaling := scaling (tk E 0) in
     let user_msg := user_msg_of (tk E 0) in
     for_loop E out_dir total do_parq do_csv apply_scaling user_msg 1 fl;;
     app_call (CSetIsRunning false);;
     app_call (CEndRun (stop_flag E (S (length fl)))
                       (output_dir (tk E (S (length fl))))))
    (λ e,
     app_call (CSetIsRunning false);;
     app_call (CEndRun (stop_flag E (S (length fl)))
                       (output_dir (tk E (S (length fl)))));;
     app_call (CShowError e)).

(** A run of the trial worker: its final state, and the application after
    it. *)
Definition run (E : Env) (a : App) (fs : gset string) : WState :=
  (_worker_run E (length (files a)) (files a) (w_init fs)).2.

Definition run_app (E : Env) (a : App) (fs : gset string) : App :=
  apply_calls (calls (run E a fs)) a.

End trial_1.

(** The state [s] without its [produced] list, which the trial worker
    does not keep. *)
Definition forget_produced (s : WState) : WState :=
  mkW (w_fs s) [] (archive s) (calls s).

(** * Properties *)

(** ** Texts and normalised paths *)

Lemma string_app_assoc (s1 s2 s3 : string) : (s1 +:+ s2) +:+ s3 = s1 +:+ (s2 +:+ s3).
Proof.
  induction s1 as [|c s1 IH]; [done|].
  change (String c ((s1 +:+ s2) +:+ s3) = String c (s1 +:+ s2 +:+ s3)). by f_equal.
Qed.

Lemma string_app_nil_r (s : string) : s +:+ "" = s.
Proof.
  induction s as [|c s IH]; [done|].
  change (String c (s +:+ "") = String c s). by f_equal.
Qed.

Section Normal.
Import pathlib.









End Normal.

(** ** The queue *)

Section Queue.
Implicit Types (a : App) (P : Path) (fs : gset string).

Lemma files_renumber a : files (_renumber a) = files a.
Proof. reflexivity. Qed.

Lemma files_refresh_buttons a : files (_refresh_buttons a) = files a.
Proof. reflexivity. Qed.

Lemma files_add_one fs a p :
  files (add_one fs a p)
  = enqueue_spec (pathlib.exists_ fs (pathlib.Path_ p)) (files a) (pathlib.Path_ p).
Proof. unfold add_one, enqueue_spec. by destruct (_ && _). Qed.

Lemma files_drop_one fs a p :
  files (drop_one fs a p)
  = enqueue_spec (pathlib.exists_ fs (pathlib.Path_ p) && dnd_suffix_ok (pathlib.Path_ p))
      (files a) (pathlib.Path_ p).
Proof. unfold drop_one, enqueue_spec, dnd_suffix_ok. by destruct (_ && _). Qed.

Lemma queue_step_enqueue ok l P : queue_step l (enqueue_spec ok l P).
Proof.
  unfold enqueue_spec. destruct ok; simpl; [|by left].
  case_bool_decide; simpl; [by left|right; eauto].
Qed.

Lemma queue_step_add_one fs a p : queue_step (files a) (files (add_one fs a p)).
Proof. rewrite files_add_one. apply queue_step_enqueue. Qed.

Lemma queue_step_drop_one fs a p : queue_step (files a) (files (drop_one fs a p)).
Proof. rewrite files_drop_one. apply queue_step_enqueue. Qed.

Lemma queue_step_inv l l' :
  queue_step l l' → NoDup l → NoDup l' ∧ l `prefix_of` l'.
Proof.
  intros [->|(P & HP & ->)] Hnd; [done|].
  split; [|by apply prefix_app_r].
  apply NoDup_app. split_and!; [done| |apply NoDup_singleton].
  intros x Hx ->%list_elem_of_singleton. done.
Qed.

Lemma foldl_queue_inv {A} (f : App → A → App) (xs : list A) a :
  (∀ b x, queue_step (files b) (files (f b x))) →
  NoDup (files a) →
  NoDup (files (foldl f a xs)) ∧ files a `prefix_of` files (foldl f a xs).
Proof.
  intros Hf. revert a. induction xs as [|x xs IH]; intros a Hnd; simpl; [done|].
  destruct (queue_step_inv _ _ (Hf a x) Hnd) as [Hnd' Hpre].
  destruct (IH _ Hnd') as [? ?]. split; [done|by etrans].
Qed.

Lemma enqueue_call_inv a c :
  NoDup (files a) →
  NoDup (files (enqueue_call a c)) ∧ files a `prefix_of` files (enqueue_call a c).
Proof.
  intros Hnd. destruct c as [fs paths|fs paths]; unfold enqueue_call.
  - unfold _add_files. destruct paths as [|P paths]; [done|].
    rewrite files_refresh_buttons, files_renumber.
    by apply foldl_queue_inv; [apply queue_step_add_one|].
  - unfold _on_drop_files. rewrite files_refresh_buttons, files_renumber.
    by apply foldl_queue_inv; [apply queue_step_drop_one|].
Qed.

Lemma enqueue_calls_inv cs a :
  NoDup (files a) →
  NoDup (files (enqueue_calls cs a)) ∧ files a `prefix_of` files (enqueue_calls cs a).
Proof.
  unfold enqueue_calls. revert a.
  induction cs as [|c cs IH]; intros a Hnd; simpl; [done|].
  destruct (enqueue_call_inv a c Hnd) as [Hnd' Hpre].
  destruct (IH _ Hnd') as [? ?]. split; [done|by etrans].
Qed.

(** The loops of [_add_files] and [_on_drop_files] are folds of [enqueue_spec]
    over the names offered. *)
Lemma files_foldl_add_one fs paths a :
  files (foldl (add_one fs) a paths)
  = foldl (λ l p, enqueue_spec (pathlib.exists_ fs (pathlib.Path_ p)) l (pathlib.Path_ p))
      (files a) paths.
Proof.
  revert a. induction paths as [|p paths IH]; intros a; simpl; [done|].
  by rewrite IH, files_add_one.
Qed.

Lemma files_foldl_drop_one fs names a :
  files (foldl (drop_one fs) a names)
  = foldl (λ l p, enqueue_spec (pathlib.exists_ fs (pathlib.Path_ p)
                           && dnd_suffix_ok (pathlib.Path_ p)) l (pathlib.Path_ p))
      (files a) names.
Proof.
  revert a. induction names as [|p names IH]; intros a; simpl; [done|].
  by rewrite IH, files_drop_one.
Qed.

Lemma files_add_files fs paths a :
  files (_add_files fs paths a)
  = foldl (λ l p, enqueue_spec (pathlib.exists_ fs (pathlib.Path_ p)) l (pathlib.Path_ p))
      (files a) paths.
Proof.
  unfold _add_files. destruct paths as [|p paths]; [done|].
  by rewrite files_refresh_buttons, files_renumber, files_foldl_add_one.
Qed.

Lemma files_on_drop_files fs data a :
  files (_on_drop_files fs data a)
  = foldl (λ l p, enqueue_spec (pathlib.exists_ fs (pathlib.Path_ p)
                           && dnd_suffix_ok (pathlib.Path_ p)) l (pathlib.Path_ p))
      (files a) (_parse_dnd_list data).
Proof.
  unfold _on_drop_files.
  by rewrite files_refresh_buttons, files_renumber, files_foldl_drop_one.
Qed.
End Queue.







(** ** The worker: one visit *)

Lemma WState_eq fs1 fs2 p1 p2 a1 a2 c1 c2 :
  fs1 = fs2 → p1 = p2 → a1 = a2 → c1 = c2 → mkW fs1 p1 a1 c1 = mkW fs2 p2 a2 c2.
Proof. by intros -> -> -> ->. Qed.

Ltac unfold_monad :=
  unfold mbind, mret, M_bind, M_ret, try_except, call, app_call, get_fs,
    get_produced, fs_add, produced_append, zip_create, zip_add in *.

(** Closes a decidable goal on concrete data by evaluation. *)
Ltac decide_true := refine (bool_decide_unpack _ _); vm_compute; exact I.

Ltac solve_visit :=
  f_equal; apply WState_eq; rewrite ?app_nil_r, <- ?app_assoc; done.

Section Visit.
Variable E : Env.
Variable out_dir : Path.
Variable total : nat.
Variable do_parq do_csv apply_scaling : bool.
Variable user_msg : option string.
Variable suffix : string.

Local Abbreviation body := (loop_body E out_dir total do_parq do_csv apply_scaling user_msg suffix).
Local Abbreviation loop := (for_loop E out_dir total do_parq do_csv apply_scaling user_msg suffix).
Local Abbreviation outcome := (item_outcome E out_dir do_parq do_csv apply_scaling user_msg suffix).
Local Abbreviation state_after := (loop_state E out_dir total do_parq do_csv apply_scaling user_msg suffix).

(** One iteration of the loop never raises: it ends with the outcome
    [item_outcome] gives, in the state [outcome_state] gives. *)
Lemma loop_body_eq idx x s :
  body idx x s =
  (Ok (outcome_flow (outcome idx x (w_fs s))),
   outcome_state total idx x (outcome idx x (w_fs s)) s).
Proof.
  unfold loop_body, item_outcome, try_body, convert_item,
    item_except, attempt, outcome_state.
  unfold_monad. destruct s as [fs prod arch cs]; simpl.
  destruct (stop_flag E idx); simpl; [solve_visit|].
  destruct (skip_existing (tk E idx) && _); simpl; [solve_visit|].
  destruct (UDFDecoder E x) as [[]|e]; simpl; [|solve_visit].
  destruct (read_bin_file E x apply_scaling) as [[]|e]; simpl; [|solve_visit].
  destruct user_msg as [m|]; [destruct (add_user_meta_data E x m) as [[]|e]|]; simpl.
  2: solve_visit.
  all: destruct (parq_path_of out_dir do_parq suffix x) as [p|];
    [destruct (write_table E x p) as [[]|e]|]; simpl.
  all: try solve_visit.
  all: destruct (csv_path_of out_dir do_csv suffix x) as [c|];
    [destruct (to_csv E x c) as [[]|e]|]; simpl.
  all: solve_visit.
Qed.

(** The loop never raises, and leaves the worker in [loop_state]. *)
Lemma for_loop_eq items idx s :
  loop idx items s = (Ok tt, state_after idx items s).
Proof.
  revert idx s. induction items as [|x rest IH]; intros idx s; simpl; [done|].
  unfold mbind, M_bind at 1. rewrite loop_body_eq.
  destruct (outcome idx x (w_fs s)); simpl; by rewrite ?IH.
Qed.
End Visit.

(** ** Calls and what they are about *)

Lemma calls_about_mono L L' lo lo' hi hi' cs :
  L ⊆ L' → lo' ≤ lo → hi ≤ hi' →
  calls_about L lo hi cs → calls_about L' lo' hi' cs.
Proof.
  intros HL Hlo Hhi. unfold calls_about. intros H.
  eapply Forall_impl; [exact H|].
  intros [p ? ? ? ?|?|i|?|?|?]; try done; [by intros ?%HL|simpl; lia].
Qed.

Lemma calls_about_app L lo hi cs1 cs2 :
  calls_about L lo hi cs1 → calls_about L lo hi cs2 → calls_about L lo hi (cs1 ++ cs2).
Proof. unfold calls_about. intros. by apply Forall_app. Qed.

Lemma calls_about_outcome total idx x o :
  calls_about [x] idx (S idx) (outcome_calls total idx x o).
Proof.
  unfold calls_about.
  destruct o as [| | |[] ? ?]; simpl; repeat constructor; lia.
Qed.

Lemma no_item_calls_about L lo hi cs : no_item_calls cs → calls_about L lo hi cs.
Proof.
  unfold no_item_calls, calls_about. intros H.
  eapply Forall_impl; [exact H|]. by intros [].
Qed.

Lemma status_trace_app p cs1 cs2 :
  status_trace p (cs1 ++ cs2) = status_trace p cs1 ++ status_trace p cs2.
Proof.
  induction cs1 as [|c cs1 IH]; simpl; [done|].
  destruct c; try done. case_bool_decide; simpl; by rewrite IH.
Qed.

Lemma status_trace_about p L lo hi cs :
  calls_about L lo hi cs → p ∉ L → status_trace p cs = [].
Proof.
  unfold calls_about. intros Hcs Hp.
  induction Hcs as [|c cs Hc _ IH]; simpl; [done|].
  destruct c; try done. case_bool_decide; [by subst|done].
Qed.

Lemma status_trace_outcome total idx x o :
  status_trace x (outcome_calls total idx x o) =
  match o with
  | OCancelled => [Cancelled]
  | _ => [Running; outcome_status o]
  end.
Proof.
  destruct o as [| | |[] ? ?]; simpl; by rewrite ?bool_decide_eq_true_2.
Qed.

(** ** The loop *)

Section Loop.
Variable E : Env.
Variable out_dir : Path.
Variable total : nat.
Variable do_parq do_csv apply_scaling : bool.
Variable user_msg : option string.
Variable suffix : string.

Local Abbreviation outcome := (item_outcome E out_dir do_parq do_csv apply_scaling user_msg suffix).
Local Abbreviation state_after := (loop_state E out_dir total do_parq do_csv apply_scaling user_msg suffix).

Lemma outcome_cancelled idx x fs :
  outcome idx x fs = OCancelled ↔ stop_flag E idx = true.
Proof.
  unfold item_outcome. destruct (stop_flag E idx); [done|].
  destruct (_ && _); [done|].
  by destruct (attempt _ _ _ _ _ _ _ _) as [[[e|] w] rl].
Qed.

Lemma loop_state_step idx x rest s :
  stop_flag E idx = false →
  state_after idx (x :: rest) s =
  state_after (S idx) rest (outcome_state total idx x (outcome idx x (w_fs s)) s).
Proof.
  intros Hstop. simpl.
  destruct (outcome idx x (w_fs s)) eqn:Ho; try done.
  apply outcome_cancelled in Ho. congruence.
Qed.

Lemma loop_state_stop idx x rest s :
  stop_flag E idx = true →
  state_after idx (x :: rest) s = outcome_state total idx x OCancelled s.
Proof.
  intros Hstop. simpl.
  by rewrite (proj2 (outcome_cancelled idx x (w_fs s)) Hstop).
Qed.

Lemma loop_state_app l1 l2 idx s :
  (∀ j, j < length l1 → stop_flag E (idx + j) = false) →
  state_after idx (l1 ++ l2) s = state_after (idx + length l1) l2 (state_after idx l1 s).
Proof.
  revert idx s. induction l1 as [|x l1 IH]; intros idx s Hstop.
  { simpl. by rewrite Nat.add_0_r. }
  rewrite <- app_comm_cons, !loop_state_step.
  2,3: rewrite <- (Nat.add_0_r idx); apply Hstop; simpl; lia.
  rewrite IH; [simpl; by rewrite Nat.add_succ_r|].
  intros j Hj. replace (S idx + j) with (idx + S j) by lia.
  apply Hstop. simpl. lia.
Qed.

(** What the loop adds to the calls is about its items only; what it
    adds to [produced] is added at the end; the archive is not touched. *)
Lemma loop_state_frame items idx s :
  ∃ cs, calls (state_after idx items s) = calls s ++ cs
        ∧ calls_about items idx (idx + length items) cs
        ∧ produced s `prefix_of` produced (state_after idx items s)
        ∧ archive (state_after idx items s) = archive s.
Proof.
  revert idx s. induction items as [|x rest IH]; intros idx s.
  { exists []. simpl. rewrite app_nil_r. split_and!; try done. constructor. }
  destruct (stop_flag E idx) eqn:Hstop.
  - rewrite loop_state_stop by done. eexists. split; [done|].
    split_and!; [|by apply prefix_app_r|done].
    eapply calls_about_mono, calls_about_outcome; [set_solver|lia|simpl; lia].
  - rewrite loop_state_step by done.
    set (o := outcome idx x (w_fs s)).
    destruct (IH (S idx) (outcome_state total idx x o s)) as (cs & Hcs & Habout & Hprod & Harch).
    exists (outcome_calls total idx x o ++ cs). split_and!.
    + rewrite Hcs. simpl. by rewrite app_assoc.
    + apply calls_about_app.
      * eapply calls_about_mono, calls_about_outcome; [set_solver|lia|simpl; lia].
      * eapply calls_about_mono, Habout; [set_solver|lia|simpl; lia].
    + etrans; [|apply Hprod]. simpl. by apply prefix_app_r.
    + by rewrite Harch.
Qed.

(** The visit of the item at position [k], when no stop was seen before
    it: the calls of the run are those of the items before it, those of
    its own visit and those of the items after it. *)
Lemma loop_state_visit items idx s k x :
  items !! k = Some x →
  (∀ j, j < k → stop_flag E (idx + j) = false) →
  let s1 := state_after idx (take k items) s in
  let o := outcome (idx + k) x (w_fs s1) in
  ∃ cs_pre cs_post,
    calls s1 = calls s ++ cs_pre
    ∧ calls_about (take k items) idx (idx + k) cs_pre
    ∧ calls (state_after idx items s)
      = calls s ++ cs_pre ++ outcome_calls total (idx + k) x o ++ cs_post
    ∧ calls_about (drop (S k) items) (S (idx + k)) (idx + length items) cs_post
    ∧ (o = OCancelled → cs_post = [])
    ∧ produced s1 ++ outcome_written o `prefix_of` produced (state_after idx items s).
Proof.
  intros Hk Hstop s1 o.
  pose proof (lookup_lt_Some _ _ _ Hk) as Hlt.
  assert (Hlen : length (take k items) = k) by (rewrite length_take; lia).
  destruct (loop_state_frame (take k items) idx s) as (cs_pre & Hpre & Hab_pre & _ & _).
  rewrite Hlen in Hab_pre. fold s1 in Hpre.
  assert (Hsplit : state_after idx items s = state_after (idx + k) (x :: drop (S k) items) s1).
  { rewrite <- (take_drop_middle _ _ _ Hk) at 1.
    rewrite loop_state_app; rewrite Hlen; done. }
  destruct (stop_flag E (idx + k)) eqn:Hs.
  - exists cs_pre, []. rewrite Hsplit, loop_state_stop by done.
    assert (o = OCancelled) as -> by by apply outcome_cancelled.
    simpl. rewrite Hpre, app_nil_r, <- app_assoc. split_and!; try done; constructor.
  - rewrite Hsplit, loop_state_step by done. fold o.
    destruct (loop_state_frame (drop (S k) items) (S (idx + k))
                (outcome_state total (idx + k) x o s1)) as (cs_post & Hpost & Hab & Hprod & _).
    exists cs_pre, cs_post. split_and!; try done.
    + rewrite Hpost. simpl. rewrite Hpre. by rewrite <- !app_assoc.
    + eapply calls_about_mono, Hab; [done|lia|]. rewrite length_drop. lia.
    + intros Ho. apply outcome_cancelled in Ho. congruence.
Qed.
End Loop.

(** ** The archive step and the whole run *)

Lemma only_logs_no_item_calls cs : only_logs cs → no_item_calls cs.
Proof.
  unfold only_logs, no_item_calls. intros H.
  eapply Forall_impl; [exact H|]. by intros [].
Qed.

Lemma status_trace_no_item_calls p cs : no_item_calls cs → status_trace p cs = [].
Proof.
  unfold no_item_calls. induction 1 as [|c cs Hc _ IH]; simpl; [done|].
  by destruct c.
Qed.

Lemma only_logs_zip_failures E ps : only_logs (zip_failures E ps).
Proof.
  unfold only_logs, zip_failures. induction ps as [|p ps IH]; simpl; [constructor|].
  destruct (zf_write E p _); [done|by constructor].
Qed.

Lemma zip_loop_eq E ps s z entries :
  archive s = Some (z, entries) →
  zip_loop E ps s =
  (Ok tt, mkW (w_fs s) (produced s) (Some (z, entries ++ zip_entries E ps))
              (calls s ++ zip_failures E ps)).
Proof.
  revert s entries. induction ps as [|p ps IH]; intros [fs prod arch cs] entries; simpl.
  { intros ->. unfold_monad. by rewrite !app_nil_r. }
  intros ->. unfold mbind, M_bind at 1. unfold_monad. simpl.
  destruct (zf_write E p (pathlib.name p)) as [[]|e]; simpl.
  - erewrite IH by done. simpl. by rewrite <- app_assoc.
  - erewrite IH by done. simpl. by rewrite <- app_assoc.
Qed.

(** The archive step: what it leaves, by the four ways it can go. *)
Lemma bundle_eq E out_dir n s :
  bundle E out_dir n s =
  if zip_outputs (tk E (S n)) && bool_decide (produced s ≠ []) then
    match ZipFile E (zip_name_of E out_dir n) with
    | Ok _ =>
        (zf_close E (zip_name_of E out_dir n),
         mkW ({[zip_name_of E out_dir n]} ∪ w_fs s) (produced s)
             (Some (zip_name_of E out_dir n, zip_entries E (produced s)))
             (calls s
              ++ CLog (LBundling (length (produced s))
                         (pathlib.name (zip_name_of E out_dir n)))
              :: zip_failures E (produced s)))
    | Raise e =>
        (Raise e,
         mkW (w_fs s) (produced s) (archive s)
             (calls s ++ [CLog (LBundling (length (produced s))
                                  (pathlib.name (zip_name_of E out_dir n)))]))
    end
  else (Ok tt, s).
Proof.
  unfold bundle. unfold mbind, M_bind at 1. unfold get_produced.
  destruct (_ && _); [|done].
  fold (zip_name_of E out_dir n).
  unfold_monad. destruct s as [fs prod arch cs]; simpl.
  destruct (ZipFile E _) as [[]|e]; simpl; [|done].
  erewrite zip_loop_eq by done. simpl. rewrite <- app_assoc. simpl.
  by destruct (zf_close E _) as [[]|e].
Qed.

(** The state the worker ends in, when the imports succeed. *)
Lemma wrun_eq E out_dir total fl fs :
  import_decoder E = Ok tt →
  wrun E out_dir total fl fs =
  let s := wrun_loop E out_dir total fl fs in
  let n := length fl in
  let zip := zip_name_of E out_dir n in
  let out := output_dir (tk E (S n)) in
  if zip_outputs (tk E (S n)) && bool_decide (produced s ≠ []) then
    match ZipFile E zip with
    | Ok _ =>
        mkW ({[zip]} ∪ w_fs s) (produced s) (Some (zip, zip_entries E (produced s)))
            (calls s
             ++ CLog (LBundling (length (produced s)) (pathlib.name zip))
             :: zip_failures E (produced s)
             ++ match zf_close E zip with
                | Ok _ => [CSetIsRunning false; CEndRun (stop_flag E (S n)) out]
                | Raise e => [CSetIsRunning false; CEndRun true out; CShowError e]
                end)
    | Raise e =>
        mkW (w_fs s) (produced s) (archive s)
            (calls s
             ++ [CLog (LBundling (length (produced s)) (pathlib.name zip));
                 CSetIsRunning false; CEndRun true out; CShowError e])
    end
  else
    mkW (w_fs s) (produced s) (archive s)
        (calls s ++ [CSetIsRunning false; CEndRun (stop_flag E (S n)) out]).
Proof.
  intros Himp. unfold wrun, _worker_run, wrun_loop.
  unfold try_except. unfold mbind, M_bind, call. rewrite Himp.
  rewrite for_loop_eq. rewrite bundle_eq.
  set (s := loop_state _ _ _ _ _ _ _ _ _ _ _). simpl.
  destruct (_ && _); [destruct (ZipFile E _) as [[]|e]|]; unfold app_call; simpl.
  - destruct (zf_close E _) as [[]|e]; simpl;
      apply WState_eq; try done; rewrite <- ?app_assoc; simpl;
      by rewrite <- ?app_assoc.
  - apply WState_eq; try done. by rewrite <- ?app_assoc.
  - apply WState_eq; try done. by rewrite <- ?app_assoc.
Qed.

(** The whole run, when the imports succeed: the loop, then the archive
    step, then the end of the run; only the loop sets statuses, reports
    progress and extends [produced]. *)
Lemma wrun_frame E out_dir total fl fs :
  import_decoder E = Ok tt →
  ∃ cs, calls (wrun E out_dir total fl fs) = calls (wrun_loop E out_dir total fl fs) ++ cs
        ∧ no_item_calls cs
        ∧ produced (wrun E out_dir total fl fs) = produced (wrun_loop E out_dir total fl fs).
Proof.
  intros Himp. rewrite (wrun_eq _ _ _ _ _ Himp). simpl.
  destruct (_ && _); [destruct (ZipFile E _) as [[]|e]|]; simpl.
  - eexists. split; [done|]. split; [|done].
    constructor; [done|]. apply Forall_app. split.
    + apply only_logs_no_item_calls, only_logs_zip_failures.
    + destruct (zf_close E _); by repeat constructor.
  - eexists. split; [done|]. split; [|done]. by repeat constructor.
  - eexists. split; [done|]. split; [|done]. by repeat constructor.
Qed.

Lemma wrun_import_failed E out_dir total fl fs e :
  import_decoder E = Raise e →
  wrun E out_dir total fl fs =
  mkW fs [] None
      [CSetIsRunning false; CEndRun true (output_dir (tk E (S (length fl))));
       CShowError e].
Proof.
  intros Himp. unfold wrun, _worker_run.
  unfold try_except. unfold mbind, M_bind, call. by rewrite Himp.
Qed.

Lemma run_frame E out_dir a fs :
  import_decoder E = Ok tt →
  ∃ cs, calls (run E out_dir a fs) = calls (run_loop E out_dir a fs) ++ cs
        ∧ no_item_calls cs
        ∧ produced (run E out_dir a fs) = produced (run_loop E out_dir a fs).
Proof. apply wrun_frame. Qed.

Lemma run_import_failed E out_dir a fs e :
  import_decoder E = Raise e →
  run E out_dir a fs =
  mkW fs [] None
      [CSetIsRunning false; CEndRun true (output_dir (tk E (S (length (files a)))));
       CShowError e].
Proof. apply wrun_import_failed. Qed.

(** ** The display *)

Lemma status_rows_set p q st tag pq cs rows :
  status_rows p (set_status_rows q st tag pq cs rows) =
  if bool_decide (q = p)
  then match status_rows p rows with Some _ => Some st | None => None end
  else status_rows p rows.
Proof.
  induction rows as [|r rows IH]; simpl; [by case_bool_decide|].
  destruct (decide (row_file r = q)) as [Hq|Hq];
    destruct (decide (row_file r = p)) as [Hp|Hp];
    destruct (decide (q = p)) as [Hqp|Hqp]; try congruence;
    rewrite ?(bool_decide_eq_true_2 _ Hq), ?(bool_decide_eq_false_2 _ Hq),
      ?(bool_decide_eq_true_2 _ Hqp), ?(bool_decide_eq_false_2 _ Hqp); simpl;
    rewrite ?(bool_decide_eq_true_2 _ Hp), ?(bool_decide_eq_false_2 _ Hp);
    try done.
  - rewrite IH. by rewrite (bool_decide_eq_true_2 _ Hqp).
  - rewrite IH. by rewrite (bool_decide_eq_false_2 _ Hqp).
Qed.

Lemma status_of_apply_call a c p :
  status_of (apply_call a c) p =
  match c with
  | CSetStatus q st _ _ _ =>
      if bool_decide (q = p)
      then match status_of a p with Some _ => Some st | None => None end
      else status_of a p
  | _ => status_of a p
  end.
Proof. destruct c; try done. apply status_rows_set. Qed.

(** The status shown after the calls is the last one they set. *)
Lemma status_of_apply_calls cs a p st0 :
  status_of a p = Some st0 →
  status_of (apply_calls cs a) p = Some (default st0 (last (status_trace p cs))).
Proof.
  unfold apply_calls. revert a st0.
  induction cs as [|c cs IH]; intros a st0 Hst; simpl; [done|].
  pose proof (status_of_apply_call a c p) as Hc.
  destruct c as [q st ? ? ?| | | | |]; try (apply IH; congruence).
  destruct (decide (q = p)) as [Hqp|Hqp].
  - rewrite (bool_decide_eq_true_2 _ Hqp) in Hc |- *. rewrite Hst in Hc.
    rewrite (IH _ st Hc), last_cons. by destruct (last _).
  - rewrite (bool_decide_eq_false_2 _ Hqp) in Hc |- *. apply IH. congruence.
Qed.

(** The shown status changes as the statuses set for the item do. *)
Lemma status_history_follows tbl cs a p st0 :
  status_of a p = Some st0 →
  trace_follows tbl st0 (status_trace p cs) = true →
  follows_table tbl (Some st0) (status_history p a cs).
Proof.
  revert a st0. induction cs as [|c cs IH]; intros a st0 Hst Htr; simpl; [done|].
  pose proof (status_of_apply_call a c p) as Hc.
  destruct c as [q st ? ? ?| | | | |];
    try (rewrite Hc, Hst; split; [by left|apply IH; [congruence|done]]).
  simpl in Htr. destruct (decide (q = p)) as [Hqp|Hqp].
  - rewrite (bool_decide_eq_true_2 _ Hqp) in Hc, Htr. rewrite Hst in Hc.
    simpl in Htr. apply andb_prop in Htr as [Ht Htr].
    rewrite Hc. split; [right; eauto|]. by apply IH.
  - rewrite (bool_decide_eq_false_2 _ Hqp) in Hc, Htr.
    rewrite Hc, Hst. split; [by left|]. apply IH; [congruence|done].
Qed.

Lemma trace_shape_follows st0 tr :
  st0 ≠ Running → trace_shape tr → trace_follows table_code st0 tr = true.
Proof. intros Hst [->|[->|[->|[->| ->]]]]; by destruct st0. Qed.

(** The log after the calls is the log before followed by the lines they
    write. *)
Lemma log_trace_app cs1 cs2 : log_trace (cs1 ++ cs2) = log_trace cs1 ++ log_trace cs2.
Proof.
  induction cs1 as [|c cs1 IH]; simpl; [done|]. destruct c; simpl; by rewrite ?IH.
Qed.

Lemma elem_of_log_trace line cs : line ∈ log_trace cs ↔ CLog line ∈ cs.
Proof.
  induction cs as [|c cs IH]; simpl; [by rewrite !elem_of_nil|].
  destruct c; rewrite ?elem_of_cons, IH; naive_solver.
Qed.

Lemma log_apply_calls cs a : log (apply_calls cs a) = log a ++ log_trace cs.
Proof.
  unfold apply_calls. revert a. induction cs as [|c cs IH]; intros a; simpl.
  { by rewrite app_nil_r. }
  rewrite IH. destruct c; simpl; try done. by rewrite <- app_assoc.
Qed.

(** ** Statuses set by a run *)

Section LoopTrace.
Variable E : Env.
Variable out_dir : Path.
Variable total : nat.
Variable do_parq do_csv apply_scaling : bool.
Variable user_msg : option string.
Variable suffix : string.

Local Abbreviation outcome := (item_outcome E out_dir do_parq do_csv apply_scaling user_msg suffix).
Local Abbreviation state_after := (loop_state E out_dir total do_parq do_csv apply_scaling user_msg suffix).

Lemma outcome_trace_shape idx x o :
  trace_shape (status_trace x (outcome_calls total idx x o)).
Proof.
  rewrite status_trace_outcome. unfold trace_shape.
  destruct o; simpl; auto.
Qed.

Lemma outcome_trace_other idx x o p :
  p ≠ x → status_trace p (outcome_calls total idx x o) = [].
Proof.
  intros Hp. eapply status_trace_about; [apply calls_about_outcome|].
  by intros ->%list_elem_of_singleton.
Qed.

(** Each item of a duplicate-free queue gets one of the five shapes. *)
Lemma loop_trace_shape items idx s :
  NoDup items →
  ∃ cs, calls (state_after idx items s) = calls s ++ cs
        ∧ ∀ p, trace_shape (status_trace p cs).
Proof.
  revert idx s. induction items as [|x rest IH]; intros idx s Hnd.
  { exists []. simpl. rewrite app_nil_r. split; [done|]. by left. }
  apply NoDup_cons in Hnd as [Hx Hnd].
  destruct (stop_flag E idx) eqn:Hstop.
  - rewrite loop_state_stop by done. eexists. split; [done|].
    intros p. destruct (decide (p = x)) as [->|Hp].
    + apply outcome_trace_shape.
    + rewrite outcome_trace_other by done. by left.
  - rewrite loop_state_step by done.
    set (o := outcome idx x (w_fs s)).
    destruct (loop_state_frame E out_dir total do_parq do_csv apply_scaling user_msg
                suffix rest (S idx) (outcome_state total idx x o s))
      as (cs & Hcs & Habout & _ & _).
    destruct (IH (S idx) (outcome_state total idx x o s) Hnd) as (cs' & Hcs' & Hshape).
    assert (cs' = cs) as -> by (rewrite Hcs in Hcs'; by apply app_inv_head in Hcs').
    exists (outcome_calls total idx x o ++ cs). split.
    { rewrite Hcs. simpl. by rewrite app_assoc. }
    intros p. rewrite status_trace_app.
    destruct (decide (p = x)) as [->|Hp].
    + rewrite (status_trace_about x rest _ _ cs Habout Hx), app_nil_r.
      apply outcome_trace_shape.
    + rewrite outcome_trace_other by done. apply Hshape.
Qed.

(** A [Cancelled] is set only for the item at the first boundary at
    which the flag is seen set. *)
Lemma loop_cancel_inv items idx s cs p :
  calls (state_after idx items s) = calls s ++ cs →
  Cancelled ∈ status_trace p cs →
  ∃ k, items !! k = Some p ∧ stop_flag E (idx + k) = true
       ∧ ∀ j, j < k → stop_flag E (idx + j) = false.
Proof.
  revert idx s cs. induction items as [|x rest IH]; intros idx s cs Hcs Hin.
  { simpl in Hcs. rewrite <- (app_nil_r (calls s)) in Hcs at 1.
    apply app_inv_head in Hcs as <-. by apply elem_of_nil in Hin. }
  destruct (stop_flag E idx) eqn:Hstop.
  - rewrite loop_state_stop in Hcs by done. simpl in Hcs.
    apply app_inv_head in Hcs as <-.
    simpl in Hin. case_bool_decide; [subst|by apply elem_of_nil in Hin].
    exists 0. rewrite Nat.add_0_r. split_and!; [done|done|lia].
  - rewrite loop_state_step in Hcs by done.
    set (o := outcome idx x (w_fs s)) in *.
    destruct (loop_state_frame E out_dir total do_parq do_csv apply_scaling user_msg
                suffix rest (S idx) (outcome_state total idx x o s))
      as (cs' & Hcs' & _).
    rewrite Hcs' in Hcs. simpl in Hcs. rewrite <- app_assoc in Hcs.
    apply app_inv_head in Hcs as <-.
    rewrite status_trace_app in Hin. apply elem_of_app in Hin as [Hin|Hin].
    + exfalso. destruct (decide (p = x)) as [->|Hp].
      * rewrite status_trace_outcome in Hin.
        assert (o ≠ OCancelled) as Ho.
        { intros Ho. apply outcome_cancelled in Ho. congruence. }
        destruct o; try done; simpl in Hin; set_solver.
      * rewrite outcome_trace_other in Hin by done. by apply elem_of_nil in Hin.
    + destruct (IH _ _ _ Hcs' Hin) as (k & Hk & Hsk & Hbefore).
      exists (S k). split_and!; [done|by rewrite Nat.add_succ_r|].
      intros [|j] Hj; [by rewrite Nat.add_0_r|].
      rewrite Nat.add_succ_r. apply Hbefore. lia.
Qed.
End LoopTrace.

(** ** The visit of one item in a run *)

(** Either no stop is seen before position [k], or there is a first
    position before [k] at which one is seen. *)
Lemma first_stop (f : nat → bool) (k : nat) :
  (∀ j, j < k → f j = false)
  ∨ ∃ j, j < k ∧ f j = true ∧ ∀ i, i < j → f i = false.
Proof.
  induction k as [|k [IH|(j & Hj & Hfj & Hbefore)]].
  - left. lia.
  - destruct (f k) eqn:Hk.
    + right. exists k. split_and!; [lia|done|done].
    + left. intros j Hj. destruct (decide (j = k)) as [->|]; [done|]. apply IH. lia.
  - right. exists j. split_and!; [lia|done|done].
Qed.

Lemma run_visit E out_dir a fs k x :
  import_decoder E = Ok tt →
  files a !! k = Some x →
  (∀ j, j < k → stop_flag E (S j) = false) →
  let o := run_outcome E out_dir (S k) x (w_fs (run_before E out_dir a fs k)) in
  ∃ cs_pre cs_post,
    calls (run E out_dir a fs)
    = cs_pre ++ outcome_calls (length (files a)) (S k) x o ++ cs_post
    ∧ calls_about (take k (files a)) 1 (S k) cs_pre
    ∧ calls_about (drop (S k) (files a)) (S (S k)) (S (length (files a))) cs_post
    ∧ (o = OCancelled → no_item_calls cs_post)
    ∧ produced (run_before E out_dir a fs k) ++ outcome_written o
        `prefix_of` produced (run E out_dir a fs).
Proof.
  intros Himp Hk Hstop o.
  destruct (run_frame E out_dir a fs Himp) as (cs_tail & Hrun & Htail & Hprod).
  destruct (loop_state_visit E out_dir (length (files a))
              (write_parquet (tk E 0)) (write_csv (tk E 0)) (scaling (tk E 0))
              (user_msg_of (tk E 0)) (_name_suffix (tk E 0) (ts_now E 0))
              (files a) 1 (w_init fs) k x Hk Hstop)
    as (cs_pre & cs_post & _ & Hpre & Hcs & Hpost & Hcancel & Hpr).
  fold (run_loop E out_dir a fs) in Hcs, Hpr.
  fold (run_before E out_dir a fs k) in Hcs, Hpr, Hcancel.
  change (1 + k) with (S k) in *. fold (run_outcome E out_dir (S k) x) in Hcs, Hpr, Hcancel.
  fold o in Hcs, Hpr, Hcancel.
  exists cs_pre, (cs_post ++ cs_tail). split_and!.
  - rewrite Hrun, Hcs. simpl. by rewrite <- !app_assoc.
  - done.
  - apply calls_about_app; [done|by apply no_item_calls_about].
  - intros Ho. rewrite (Hcancel Ho). done.
  - by rewrite Hprod.
Qed.

Lemma nodup_not_around (l : list Path) k x :
  NoDup l → l !! k = Some x → (x ∉ take k l) ∧ (x ∉ drop (S k) l).
Proof.
  intros Hnd Hk. split.
  - intros (i & Hi & Hlt)%elem_of_take.
    pose proof (NoDup_lookup _ _ _ _ Hnd Hi Hk). lia.
  - intros (i & Hi)%list_elem_of_lookup. rewrite lookup_drop in Hi.
    pose proof (NoDup_lookup _ _ _ _ Hnd Hi Hk). lia.
Qed.

(** The statuses a run sets for a visited item are those of its visit. *)
Lemma run_trace_at E out_dir a fs k x :
  import_decoder E = Ok tt →
  NoDup (files a) →
  files a !! k = Some x →
  (∀ j, j < k → stop_flag E (S j) = false) →
  let o := run_outcome E out_dir (S k) x (w_fs (run_before E out_dir a fs k)) in
  status_trace x (calls (run E out_dir a fs)) =
  match o with
  | OCancelled => [Cancelled]
  | _ => [Running; outcome_status o]
  end.
Proof.
  intros Himp Hnd Hk Hstop o.
  destruct (run_visit E out_dir a fs k x Himp Hk Hstop)
    as (cs_pre & cs_post & Hcs & Hpre & Hpost & _).
  destruct (nodup_not_around _ _ _ Hnd Hk) as [Hbefore Hafter].
  rewrite Hcs, !status_trace_app.
  rewrite (status_trace_about _ _ _ _ _ Hpre Hbefore).
  rewrite (status_trace_about _ _ _ _ _ Hpost Hafter).
  by rewrite app_nil_r, status_trace_outcome.
Qed.

(** A run sets no status for the items after the cancelled one. *)
Lemma run_trace_after_stop E out_dir a fs j k y :
  import_decoder E = Ok tt →
  NoDup (files a) →
  files a !! k = Some y →
  j < k → stop_flag E (S j) = true → (∀ i, i < j → stop_flag E (S i) = false) →
  status_trace y (calls (run E out_dir a fs)) = [].
Proof.
  intros Himp Hnd Hk Hjk Hj Hbefore.
  destruct (lookup_lt_is_Some_2 (files a) j) as [x Hx].
  { apply lookup_lt_Some in Hk. lia. }
  destruct (run_visit E out_dir a fs j x Himp Hx Hbefore)
    as (cs_pre & cs_post & Hcs & Hpre & _ & Hcancel & _).
  assert (run_outcome E out_dir (S j) x (w_fs (run_before E out_dir a fs j)) = OCancelled)
    as Ho by (unfold run_outcome; by apply outcome_cancelled).
  rewrite Ho in Hcs. specialize (Hcancel Ho).
  rewrite Hcs, !status_trace_app.
  rewrite (status_trace_no_item_calls _ _ Hcancel), app_nil_r.
  rewrite (status_trace_about _ _ _ _ _ Hpre).
  2:{ intros (i & Hi & Hlt)%elem_of_take.
      pose proof (NoDup_lookup _ _ _ _ Hnd Hi Hk). lia. }
  simpl. rewrite bool_decide_eq_false_2; [done|].
  intros ->. pose proof (NoDup_lookup _ _ _ _ Hnd Hx Hk). lia.
Qed.

Lemma run_loop_calls E out_dir a fs :
  calls (run_loop E out_dir a fs) = [] ++ calls (run_loop E out_dir a fs).
Proof. done. Qed.

Lemma wrun_trace_shape E out_dir total fl fs p :
  NoDup fl → trace_shape (status_trace p (calls (wrun E out_dir total fl fs))).
Proof.
  intros Hnd. destruct (import_decoder E) as [[]|e] eqn:Himp.
  - destruct (wrun_frame E out_dir total fl fs Himp) as (cs_tail & Hrun & Htail & _).
    destruct (loop_trace_shape E out_dir total
                (write_parquet (tk E 0)) (write_csv (tk E 0)) (scaling (tk E 0))
                (user_msg_of (tk E 0)) (_name_suffix (tk E 0) (ts_now E 0))
                fl 1 (w_init fs) Hnd) as (cs & Hcs & Hshape).
    rewrite Hrun. unfold wrun_loop. rewrite Hcs. simpl.
    rewrite status_trace_app, (status_trace_no_item_calls _ _ Htail), app_nil_r.
    apply Hshape.
  - rewrite (wrun_import_failed _ _ _ _ _ _ Himp). by left.
Qed.

Lemma run_trace_shape E out_dir a fs p :
  NoDup (files a) → trace_shape (status_trace p (calls (run E out_dir a fs))).
Proof. apply wrun_trace_shape. Qed.

Lemma run_cancel_inv E out_dir a fs p :
  Cancelled ∈ status_trace p (calls (run E out_dir a fs)) →
  ∃ k, files a !! k = Some p ∧ stop_flag E (S k) = true
       ∧ ∀ j, j < k → stop_flag E (S j) = false.
Proof.
  destruct (import_decoder E) as [[]|e] eqn:Himp.
  - destruct (run_frame E out_dir a fs Himp) as (cs_tail & Hrun & Htail & _).
    rewrite Hrun, status_trace_app, (status_trace_no_item_calls _ _ Htail), app_nil_r.
    intros Hin.
    eapply (loop_cancel_inv E out_dir (length (files a))
              (write_parquet (tk E 0)) (write_csv (tk E 0)) (scaling (tk E 0))
              (user_msg_of (tk E 0)) (_name_suffix (tk E 0) (ts_now E 0))
              (files a) 1 (w_init fs)); [|exact Hin].
    done.
  - rewrite (run_import_failed _ _ _ _ _ Himp). simpl. by intros ?%elem_of_nil.
Qed.

(** ** Status transitions *)

(** C6 (as amended).  In a run over a queue without duplicates, to
    which nothing is added while it runs, the status shown for an item
    that does not show Running when the run starts changes only along
    X → Running and X → Cancelled, for X any of Queued, Done, Skipped,
    Error and Cancelled, and along Running → Skipped, Running → Done and
    Running → Error.  The run sets for the item no status, or Cancelled
    alone, or Running and then exactly one of Skipped, Done and Error,
    and leaves it with a status other than Running, the status from
    before the run if it set none; so the same holds for the next run.
    A status Done, Skipped, Error or Cancelled that a run sets is thus
    the last one this run sets for the item, but it is not final beyond
    the run: nothing resets the rows, and a later run sets such an item
    to Running or Cancelled again.  An item that a run marks Skipped was
    set to Running first and to Skipped next. *)
Theorem status_transitions (E : Env) (out_dir : Path) (a : App) (fs : gset string)
    (p : Path) (st0 : Status) :
  NoDup (files a) →
  status_of a p = Some st0 →
  st0 ≠ Running →
  follows_table table_code (Some st0)
    (status_history p a (calls (run E out_dir a fs)))
  ∧ trace_shape (status_trace p (calls (run E out_dir a fs)))
  ∧ (Skipped ∈ status_trace p (calls (run E out_dir a fs)) →
     status_trace p (calls (run E out_dir a fs)) = [Running; Skipped])
  ∧ (∃ st1, status_of (run_app E out_dir a fs) p = Some st1 ∧ st1 ≠ Running
            ∧ (status_trace p (calls (run E out_dir a fs)) = [] → st1 = st0))
  ∧ (∀ s s', table_code s s' = true ↔
       (s = Running ∧ (s' = Skipped ∨ s' = Done ∨ s' = Error))
       ∨ (s ≠ Running ∧ (s' = Running ∨ s' = Cancelled))).
Proof.
  intros Hnd Hst Hrun.
  pose proof (run_trace_shape E out_dir a fs p Hnd) as Hshape.
  split_and!.
  - apply status_history_follows; [done|]. by apply trace_shape_follows.
  - done.
  - destruct Hshape as [->|[->|[->|[->| ->]]]]; try done;
      intros Hin; repeat (apply elem_of_cons in Hin as [?|Hin]; [done|]);
      by apply elem_of_nil in Hin.
  - unfold run_app. rewrite (status_of_apply_calls _ _ _ _ Hst).
    eexists. split; [done|].
    destruct Hshape as [->|[->|[->|[->| ->]]]]; simpl; by split.
  - intros s s'. split.
    + destruct s, s'; simpl; intros [=]; (by left; split; auto) || (by right; split; auto).
    + intros [[-> [->|[->| ->]]]|[Hs [->| ->]]]; try done; by destruct s.
Qed.

(** The statement at the second run over a queue of two files: the first
    run converted the second file, which shows Done when the second run
    starts. *)
Lemma status_transitions_witness :
  let fs : gset string := {[ "/out"; "/in/a.udf"; "/in/b.bin"; "/out/a.parquet" ]} in
  let v := mkVars "/out" true true true "" false false true false in
  let E := mkEnv (λ _, v) (λ _, false) (λ _, "20250101_000000") (Ok tt)
             (λ _, Ok tt) (λ _ _, Ok tt) (λ _ _, Ok tt) (λ _ _, Ok tt) (λ _ _, Ok tt)
             (λ _, Ok tt) (λ _ _, Ok tt) (λ _, Ok tt) in
  let a := _add_files fs ["/in/a.udf"; "/in/b.bin"] App_init in
  let a1 := run_app E "/out" a fs in
  let fs1 := w_fs (run E "/out" a fs) in
  status_of a1 "/in/b.bin" = Some Done
  ∧ status_trace "/in/b.bin" (calls (run E "/out" a1 fs1)) = [Running; Skipped]
  ∧ follows_table table_code (Some Done)
      (status_history "/in/b.bin" a1 (calls (run E "/out" a1 fs1))).
Proof.
  intros fs v E a a1 fs1.
  split; [vm_compute; reflexivity|]. split; [vm_compute; reflexivity|].
  destruct (status_transitions E "/out" a1 fs1 "/in/b.bin" Done) as (H & _).
  - decide_true.
  - vm_compute. reflexivity.
  - discriminate.
  - exact H.
Defined.

(** C6 as stated fails twice.  A skipped item is shown as Running before
    it is shown as Skipped, which is not a transition of the table of the
    specification.  And Done is not final: [_on_convert] starts a second
    run over the same rows, and the worker sets the item that shows Done
    to Running again. *)
Lemma skipped_was_running :
  let fs : gset string := {[ "/out"; "/in/a.udf"; "/in/b.bin"; "/out/a.parquet" ]} in
  let v := mkVars "/out" true true true "" false false true false in
  let E := mkEnv (λ _, v) (λ _, false) (λ _, "20250101_000000") (Ok tt)
             (λ _, Ok tt) (λ _ _, Ok tt) (λ _ _, Ok tt) (λ _ _, Ok tt) (λ _ _, Ok tt)
             (λ _, Ok tt) (λ _ _, Ok tt) (λ _, Ok tt) in
  let a := _add_files fs ["/in/a.udf"; "/in/b.bin"] App_init in
  let a1 := run_app E "/out" a fs in
  let fs1 := w_fs (run E "/out" a fs) in
  let st := mkStarted "/out" fs1
              (mkApp (files a1) (tree a1) [LStarting 2] 0 2 true false true
                     (notified a1) (fatal_shown a1) (open_out_btn a1)) [] in
  (status_of a "/in/a.udf" = Some Queued
   ∧ status_of a1 "/in/a.udf" = Some Skipped
   ∧ take 2 (status_history "/in/a.udf" a (calls (run E "/out" a fs)))
     = [Some Running; Some Skipped]
   ∧ ¬ follows_table table_spec (status_of a "/in/a.udf")
         (status_history "/in/a.udf" a (calls (run E "/out" a fs))))
  ∧ (status_of a1 "/in/b.bin" = Some Done
     ∧ terminal Done = true
     ∧ _on_convert v "20250101_000000" [] (Ok tt) true fs1 a1 = inr st
     ∧ status_of (st_app st) "/in/b.bin" = Some Done
     ∧ status_trace "/in/b.bin" (calls (run E (st_out_dir st) (st_app st) (st_fs st)))
       = [Running; Skipped]
     ∧ status_history "/in/b.bin" (st_app st)
         (calls (run E (st_out_dir st) (st_app st) (st_fs st))) !! 4
       = Some (Some Running)
     ∧ ¬ follows_table table_spec (Some Done)
           (status_history "/in/b.bin" (st_app st)
              (calls (run E (st_out_dir st) (st_app st) (st_fs st))))).
Proof.
  intros fs v E a a1 fs1 st. split.
  - split_and!; [vm_compute; reflexivity..|].
    vm_compute. intros (_ & [[=]|(x & y & [= <-] & [= <-] & [=])] & _).
  - split_and!; [vm_compute; reflexivity..|].
    vm_compute.
    intros (_ & _ & _ & _ & [[=]|(x & y & [= <-] & [= <-] & [=])] & _).
Qed.

(** ** Cancellation *)

(** C3.  In a run whose imports succeed, over a queue without duplicates
    whose items are all shown as Queued: when the stop flag is first seen
    set at the boundary before the item at position [k], that item is set
    to Cancelled, without having been set to Running, and the worker sets
    no status and reports no progress after that, so every later item
    stays Queued; a Cancelled is set only in this way, for an item that
    was not set to Running; and at most one item is set to Cancelled. *)
Theorem cancel_at_boundary (E : Env) (out_dir : Path) (a : App) (fs : gset string) :
  import_decoder E = Ok tt →
  NoDup (files a) →
  Forall (λ q, status_of a q = Some Queued) (files a) →
  (∀ k x, files a !! k = Some x →
     (∀ j, j < k → stop_flag E (S j) = false) → stop_flag E (S k) = true →
     (∃ cs_pre cs_post,
        calls (run E out_dir a fs)
        = cs_pre ++ [CSetStatus x Cancelled TagErr Blank Blank] ++ cs_post
        ∧ no_item_calls cs_post)
     ∧ status_trace x (calls (run E out_dir a fs)) = [Cancelled]
     ∧ status_of (run_app E out_dir a fs) x = Some Cancelled
     ∧ ∀ j y, k < j → files a !! j = Some y →
         status_trace y (calls (run E out_dir a fs)) = []
         ∧ status_of (run_app E out_dir a fs) y = Some Queued)
  ∧ (∀ p, Cancelled ∈ status_trace p (calls (run E out_dir a fs)) →
       status_trace p (calls (run E out_dir a fs)) = [Cancelled]
       ∧ ∃ k, files a !! k = Some p ∧ stop_flag E (S k) = true
              ∧ ∀ j, j < k → stop_flag E (S j) = false)
  ∧ (∀ p q, Cancelled ∈ status_trace p (calls (run E out_dir a fs)) →
       Cancelled ∈ status_trace q (calls (run E out_dir a fs)) → p = q).
Proof.
  intros Himp Hnd Hq. rewrite Forall_forall in Hq. split_and!.
  - intros k x Hk Hbefore Hstop.
    assert (run_outcome E out_dir (S k) x (w_fs (run_before E out_dir a fs k)) = OCancelled)
      as Ho by (unfold run_outcome; by apply outcome_cancelled).
    pose proof (run_trace_at E out_dir a fs k x Himp Hnd Hk Hbefore) as Htr.
    simpl in Htr. rewrite Ho in Htr.
    split_and!.
    + destruct (run_visit E out_dir a fs k x Himp Hk Hbefore)
        as (cs_pre & cs_post & Hcs & _ & _ & Hcancel & _).
      rewrite Ho in Hcs. exists cs_pre, cs_post. split; [done|by apply Hcancel].
    + done.
    + unfold run_app.
      rewrite (status_of_apply_calls _ _ _ Queued), Htr; [done|].
      apply Hq. by eapply list_elem_of_lookup_2.
    + intros j y Hkj Hj.
      pose proof (run_trace_after_stop E out_dir a fs k j y Himp Hnd Hj Hkj Hstop Hbefore)
        as Hnone.
      split; [done|]. unfold run_app.
      rewrite (status_of_apply_calls _ _ _ Queued), Hnone; [done|].
      apply Hq. by eapply list_elem_of_lookup_2.
  - intros p Hin. split; [|by apply (run_cancel_inv E out_dir a fs)].
    destruct (run_trace_shape E out_dir a fs p Hnd) as [H|[H|[H|[H|H]]]];
      rewrite H in Hin |- *; try done; set_solver.
  - intros p q (kp & Hp & Hsp & Hbp)%run_cancel_inv (kq & Hq' & Hsq & Hbq)%run_cancel_inv.
    assert (kp = kq) as ->.
    { destruct (Nat.lt_trichotomy kp kq) as [Hlt|[->|Hlt]]; [|done|].
      - rewrite (Hbq _ Hlt) in Hsp. done.
      - rewrite (Hbp _ Hlt) in Hsq. done. }
    congruence.
Qed.

(** The statement at a queue of three files, with the stop flag set while
    the first file is converted. *)
Lemma cancel_at_boundary_witness :
  let fs : gset string := {[ "/out"; "/in/a.udf"; "/in/b.bin"; "/in/c.udf" ]} in
  let v := mkVars "/out" true true true "" false false true false in
  let E := mkEnv (λ _, v) (λ t, bool_decide (2 ≤ t)) (λ _, "20250101_000000") (Ok tt)
             (λ _, Ok tt) (λ _ _, Ok tt) (λ _ _, Ok tt) (λ _ _, Ok tt) (λ _ _, Ok tt)
             (λ _, Ok tt) (λ _ _, Ok tt) (λ _, Ok tt) in
  let a := _add_files fs ["/in/a.udf"; "/in/b.bin"; "/in/c.udf"] App_init in
  map row_status (tree (run_app E "/out" a fs)) = [Done; Cancelled; Queued]
  ∧ ∀ p q, Cancelled ∈ status_trace p (calls (run E "/out" a fs)) →
           Cancelled ∈ status_trace q (calls (run E "/out" a fs)) → p = q.
Proof.
  intros fs v E a. split; [by vm_compute|].
  apply (cancel_at_boundary E "/out" a fs); [reflexivity|decide_true..].
Defined.

(** ** Progress *)

Lemma progress_not_about L lo hi cs i :
  calls_about L lo hi cs → ¬ (lo ≤ i < hi) → CSetProgress i ∉ cs.
Proof.
  unfold calls_about. intros Hcs Hi Hin.
  rewrite Forall_forall in Hcs. specialize (Hcs _ Hin). simpl in Hcs. lia.
Qed.

Lemma progress_not_in_tail cs i : no_item_calls cs → CSetProgress i ∉ cs.
Proof.
  unfold no_item_calls. intros Hcs Hin.
  rewrite Forall_forall in Hcs. by specialize (Hcs _ Hin).
Qed.

(** C4 (as amended).  In a run over a queue without duplicates, for the
    item at position [k] (index [k + 1]): when the last status set for it
    is Skipped, Done or Error, the call that sets it is followed, after
    log lines only, by the progress report of index [k + 1]; when the last
    status set for it is Cancelled, no progress of index [k + 1] is
    reported in the run. *)
Theorem progress_after_item (E : Env) (out_dir : Path) (a : App) (fs : gset string)
    (k : nat) (x : Path) :
  NoDup (files a) →
  files a !! k = Some x →
  (∀ st, last (status_trace x (calls (run E out_dir a fs))) = Some st →
     st = Skipped ∨ st = Done ∨ st = Error →
     ∃ tag pq csv cs1 cs2 cs3,
       calls (run E out_dir a fs)
       = cs1 ++ CSetStatus x st tag pq csv :: cs2 ++ CSetProgress (S k) :: cs3
       ∧ only_logs cs2)
  ∧ (last (status_trace x (calls (run E out_dir a fs))) = Some Cancelled →
     CSetProgress (S k) ∉ calls (run E out_dir a fs)).
Proof.
  intros Hnd Hk.
  destruct (import_decoder E) as [[]|e] eqn:Himp.
  2:{ rewrite (run_import_failed _ _ _ _ _ Himp). simpl. by split; [intros ? [=]|intros [=]]. }
  destruct (first_stop (λ j, stop_flag E (S j)) k) as [Hbefore|(j & Hjk & Hj & Hfirst)].
  2:{ rewrite (run_trace_after_stop E out_dir a fs j k x Himp Hnd Hk Hjk Hj Hfirst).
      simpl. by split; [intros ? [=]|intros [=]]. }
  pose proof (run_trace_at E out_dir a fs k x Himp Hnd Hk Hbefore) as Htr.
  destruct (run_visit E out_dir a fs k x Himp Hk Hbefore)
    as (cs_pre & cs_post & Hcs & Hpre & Hpost & Hcancel & _).
  simpl in Htr.
  destruct (run_outcome E out_dir (S k) x (w_fs (run_before E out_dir a fs k)))
    as [|pq c|pq c w|rl e w] eqn:Ho; rewrite Htr; simpl; split.
  - intros st [= <-] [|[|]]; done.
  - intros _. rewrite Hcs. intros [Hin|[Hin|Hin]%elem_of_app]%elem_of_app.
    + revert Hin. eapply progress_not_about; [done|lia].
    + by apply list_elem_of_singleton in Hin.
    + revert Hin. by apply progress_not_in_tail, Hcancel.
  - intros st [= <-] _.
    exists TagWait, pq, c, (cs_pre ++ [CSetStatus x Running TagRun Blank Blank]),
      [CLog (LSkipped (S k) (length (files a)) (pathlib.name x))], cs_post.
    split; [|by repeat constructor].
    rewrite Hcs. simpl. by rewrite <- app_assoc.
  - intros [=].
  - intros st [= <-] _.
    exists TagOk, pq, c,
      (cs_pre ++ [CSetStatus x Running TagRun Blank Blank;
                  CLog (LReading (S k) (length (files a)) (pathlib.name x))]),
      [CLog (LFinished (S k) (length (files a)) (pathlib.name x))], cs_post.
    split; [|by repeat constructor].
    rewrite Hcs. simpl. by rewrite <- app_assoc.
  - intros [=].
  - intros st [= <-] _.
    exists TagErr, Blank, Blank,
      (cs_pre ++ CSetStatus x Running TagRun Blank Blank
         :: (if rl then [CLog (LReading (S k) (length (files a)) (pathlib.name x))] else [])),
      [CLog (LError (pathlib.name x) e); CLog LTraceback], cs_post.
    split; [|by repeat constructor].
    rewrite Hcs. destruct rl; simpl; by rewrite <- ?app_assoc.
  - intros [=].
Qed.

(** The statement at a queue of two files, the first converted and the
    second, at the boundary of which the stop flag is seen, cancelled. *)
Lemma progress_after_item_witness :
  let fs : gset string := {[ "/out"; "/in/a.udf"; "/in/b.bin" ]} in
  let v := mkVars "/out" true true true "" false false true false in
  let E := mkEnv (λ _, v) (λ t, bool_decide (2 ≤ t)) (λ _, "20250101_000000") (Ok tt)
             (λ _, Ok tt) (λ _ _, Ok tt) (λ _ _, Ok tt) (λ _ _, Ok tt) (λ _ _, Ok tt)
             (λ _, Ok tt) (λ _ _, Ok tt) (λ _, Ok tt) in
  let a := _add_files fs ["/in/a.udf"; "/in/b.bin"] App_init in
  last (status_trace "/in/b.bin" (calls (run E "/out" a fs))) = Some Cancelled
  ∧ CSetProgress 2 ∉ calls (run E "/out" a fs).
Proof.
  intros fs v E a. split; [by vm_compute|].
  apply (progress_after_item E "/out" a fs 1 "/in/b.bin");
    [decide_true|reflexivity|by vm_compute].
Defined.

(** C4 as stated fails for Cancelled: the cancelled item has reached a
    terminal status, and the run reports no progress for it. *)
Lemma no_progress_for_cancelled :
  let fs : gset string := {[ "/out"; "/in/a.udf" ]} in
  let v := mkVars "/out" true true true "" false false true false in
  let E := mkEnv (λ _, v) (λ _, true) (λ _, "20250101_000000") (Ok tt)
             (λ _, Ok tt) (λ _ _, Ok tt) (λ _ _, Ok tt) (λ _ _, Ok tt) (λ _ _, Ok tt)
             (λ _, Ok tt) (λ _ _, Ok tt) (λ _, Ok tt) in
  let a := _add_files fs ["/in/a.udf"] App_init in
  status_of (run_app E "/out" a fs) "/in/a.udf" = Some Cancelled
  ∧ calls (run E "/out" a fs)
    = [CSetStatus "/in/a.udf" Cancelled TagErr Blank Blank;
       CSetIsRunning false; CEndRun true "/out"]
  ∧ ∀ i, CSetProgress i ∉ calls (run E "/out" a fs).
Proof.
  intros fs v E a. split_and!; [by vm_compute..|].
  intros i Hin. vm_compute in Hin.
  repeat (apply elem_of_cons in Hin as [[=]|Hin]). by apply elem_of_nil in Hin.
Qed.

(** ** Skip existing *)

Lemma run_existed_spec E out_dir fs x :
  run_existed E out_dir fs x = true ↔
  ∃ p, (run_parq_path E out_dir x = Some p ∨ run_csv_path E out_dir x = Some p) ∧ p ∈ fs.
Proof.
  unfold run_existed, existed, run_parq_path, run_csv_path, path_exists, pathlib.exists_.
  rewrite orb_true_iff. split.
  - intros [H|H].
    + destruct (parq_path_of _ _ _ _) as [p|]; [|done].
      apply bool_decide_eq_true_1 in H. eauto.
    + destruct (csv_path_of _ _ _ _) as [p|]; [|done].
      apply bool_decide_eq_true_1 in H. eauto.
  - intros (p & [-> | ->] & Hp); [left|right]; by apply bool_decide_eq_true_2.
Qed.

(** C1 (as amended).  In a run, for a visited item [x] for which
    skip-existing is read as on: [x] is set to Skipped exactly when at
    least one of its planned output paths exists when it is visited; then
    the visit only sets Running and Skipped, logs and reports progress,
    and neither calls the decoder nor writes; when none of its planned
    output paths exists, the visit is the one made with skip-existing
    off. *)
Theorem skip_when_any_exists (E : Env) (out_dir : Path) (a : App) (fs : gset string)
    (k : nat) (x : Path) :
  import_decoder E = Ok tt →
  NoDup (files a) →
  files a !! k = Some x →
  (∀ j, j ≤ k → stop_flag E (S j) = false) →
  skip_existing (tk E (S k)) = true →
  let s1 := run_before E out_dir a fs k in
  let any := run_existed E out_dir (w_fs s1) x in
  (any = true ↔
     ∃ p, (run_parq_path E out_dir x = Some p ∨ run_csv_path E out_dir x = Some p)
          ∧ p ∈ w_fs s1)
  ∧ (Skipped ∈ status_trace x (calls (run E out_dir a fs)) ↔ any = true)
  ∧ (any = true →
     run_loop_body E out_dir a (S k) x s1 =
     (Ok Continue,
      mkW (w_fs s1) (produced s1) (archive s1)
          (calls s1 ++
           [CSetStatus x Running TagRun Blank Blank;
            CSetStatus x Skipped TagWait
              (if path_exists (w_fs s1) (run_parq_path E out_dir x)
               then CheckExisting else Blank)
              (if path_exists (w_fs s1) (run_csv_path E out_dir x)
               then CheckExisting else Blank);
            CLog (LSkipped (S k) (length (files a)) (pathlib.name x));
            CSetProgress (S k)])))
  ∧ (any = false →
     run_loop_body E out_dir a (S k) x s1 =
     run_loop_body (skip_off E) out_dir a (S k) x s1).
Proof.
  intros Himp Hnd Hk Hstop Hskip s1 any.
  assert (Hbefore : ∀ j, j < k → stop_flag E (S j) = false) by (intros; apply Hstop; lia).
  pose proof (run_trace_at E out_dir a fs k x Himp Hnd Hk Hbefore) as Htr.
  simpl in Htr. fold s1 in Htr.
  assert (Ho : run_outcome E out_dir (S k) x (w_fs s1) =
               if any then
                 OSkipped
                   (if path_exists (w_fs s1) (run_parq_path E out_dir x)
                    then CheckExisting else Blank)
                   (if path_exists (w_fs s1) (run_csv_path E out_dir x)
                    then CheckExisting else Blank)
               else run_outcome (skip_off E) out_dir (S k) x (w_fs s1)).
  { subst any. unfold run_outcome, item_outcome, run_existed, run_parq_path, run_csv_path.
    rewrite (Hstop k), Hskip by lia.
    destruct (existed _ _ _ _ _ _); simpl; [done|].
    by rewrite (Hstop k) by lia. }
  split_and!.
  - apply run_existed_spec.
  - rewrite Htr, Ho. destruct any; simpl.
    + split; [done|]. intros _. set_solver.
    + split; [|done].
      unfold run_outcome, item_outcome. simpl. rewrite (Hstop k) by lia.
      destruct (attempt _ _ _ _ _ _ _ _) as [[[e|] w] rl]; simpl; set_solver.
  - intros Hany. unfold run_loop_body. rewrite loop_body_eq.
    fold (run_outcome E out_dir (S k) x (w_fs s1)). rewrite Ho, Hany.
    unfold outcome_state. simpl. by rewrite app_nil_r.
  - intros Hany. unfold run_loop_body. rewrite !loop_body_eq.
    fold (run_outcome E out_dir (S k) x (w_fs s1)). rewrite Ho, Hany. done.
Qed.

(** The statement at a queue of one file whose CSV output is on disk. *)
Lemma skip_when_any_exists_witness :
  let fs : gset string := {[ "/out"; "/in/a.udf"; "/out/a.csv" ]} in
  let v := mkVars "/out" true true true "" false false true false in
  let E := mkEnv (λ _, v) (λ _, false) (λ _, "20250101_000000") (Ok tt)
             (λ _, Ok tt) (λ _ _, Ok tt) (λ _ _, Ok tt) (λ _ _, Ok tt) (λ _ _, Ok tt)
             (λ _, Ok tt) (λ _ _, Ok tt) (λ _, Ok tt) in
  let a := _add_files fs ["/in/a.udf"] App_init in
  run_existed E "/out" (w_fs (run_before E "/out" a fs 0)) "/in/a.udf" = true
  ∧ Skipped ∈ status_trace "/in/a.udf" (calls (run E "/out" a fs)).
Proof.
  intros fs v E a.
  assert (run_existed E "/out" (w_fs (run_before E "/out" a fs 0)) "/in/a.udf" = true)
    as Hany by by vm_compute.
  split; [done|].
  apply (skip_when_any_exists E "/out" a fs 0 "/in/a.udf");
    [reflexivity|decide_true|reflexivity|by intros|reflexivity|exact Hany].
Defined.

(** C1 as stated fails: with both formats planned, the Parquet file on
    disk and the CSV file missing, not all planned paths exist, and the
    item is skipped all the same, without anything being written. *)
Lemma skipped_with_one_output_missing :
  let fs : gset string := {[ "/out"; "/in/a.udf"; "/out/a.parquet" ]} in
  let v := mkVars "/out" true true true "" false false true false in
  let E := mkEnv (λ _, v) (λ _, false) (λ _, "20250101_000000") (Ok tt)
             (λ _, Ok tt) (λ _ _, Ok tt) (λ _ _, Ok tt) (λ _ _, Ok tt) (λ _ _, Ok tt)
             (λ _, Ok tt) (λ _ _, Ok tt) (λ _, Ok tt) in
  let a := _add_files fs ["/in/a.udf"] App_init in
  run_csv_path E "/out" "/in/a.udf" = Some "/out/a.csv"
  ∧ ("/out/a.csv" ∉ fs)
  ∧ status_of (run_app E "/out" a fs) "/in/a.udf" = Some Skipped
  ∧ produced (run E "/out" a fs) = []
  ∧ "/out/a.csv" ∉ w_fs (run E "/out" a fs).
Proof.
  intros fs v E a. split_and!; by vm_compute.
Qed.

(** ** The end of a run *)

Section LoopCalls.
Variable E : Env.
Variable out_dir : Path.
Variable total : nat.
Variable do_parq do_csv apply_scaling : bool.
Variable user_msg : option string.
Variable suffix : string.

Local Abbreviation state_after := (loop_state E out_dir total do_parq do_csv apply_scaling user_msg suffix).

Lemma outcome_item_calls_only idx x o :
  item_calls_only (outcome_calls total idx x o).
Proof.
  unfold item_calls_only. destruct o as [| | |[] ? ?]; simpl; by repeat constructor.
Qed.

Lemma loop_state_item_calls items idx s :
  ∃ cs, calls (state_after idx items s) = calls s ++ cs ∧ item_calls_only cs.
Proof.
  revert idx s. induction items as [|x rest IH]; intros idx s.
  { exists []. simpl. rewrite app_nil_r. split; [done|constructor]. }
  destruct (stop_flag E idx) eqn:Hstop.
  - rewrite loop_state_stop by done. eexists. split; [done|].
    apply outcome_item_calls_only.
  - rewrite loop_state_step by done.
    destruct (IH (S idx) (outcome_state total idx x
                (item_outcome E out_dir do_parq do_csv apply_scaling user_msg suffix
                   idx x (w_fs s)) s)) as (cs & Hcs & Hall).
    eexists. rewrite Hcs. simpl. rewrite <- app_assoc. split; [done|].
    apply Forall_app. split; [apply outcome_item_calls_only|done].
Qed.
End LoopCalls.

(** The state a run ends in, when the imports succeed. *)
Lemma run_eq E out_dir a fs :
  import_decoder E = Ok tt →
  run E out_dir a fs =
  let s := run_loop E out_dir a fs in
  let total := length (files a) in
  let zip := zip_name_of E out_dir total in
  let out := output_dir (tk E (S total)) in
  if zip_outputs (tk E (S total)) && bool_decide (produced s ≠ []) then
    match ZipFile E zip with
    | Ok _ =>
        mkW ({[zip]} ∪ w_fs s) (produced s) (Some (zip, zip_entries E (produced s)))
            (calls s
             ++ CLog (LBundling (length (produced s)) (pathlib.name zip))
             :: zip_failures E (produced s)
             ++ match zf_close E zip with
                | Ok _ => [CSetIsRunning false; CEndRun (stop_flag E (S total)) out]
                | Raise e => [CSetIsRunning false; CEndRun true out; CShowError e]
                end)
    | Raise e =>
        mkW (w_fs s) (produced s) (archive s)
            (calls s
             ++ [CLog (LBundling (length (produced s)) (pathlib.name zip));
                 CSetIsRunning false; CEndRun true out; CShowError e])
    end
  else
    mkW (w_fs s) (produced s) (archive s)
        (calls s ++ [CSetIsRunning false; CEndRun (stop_flag E (S total)) out]).
Proof. apply wrun_eq. Qed.

Lemma wrun_loop_archive E out_dir total fl fs :
  archive (wrun_loop E out_dir total fl fs) = None.
Proof.
  unfold wrun_loop.
  destruct (loop_state_frame E out_dir total
              (write_parquet (tk E 0)) (write_csv (tk E 0)) (scaling (tk E 0))
              (user_msg_of (tk E 0)) (_name_suffix (tk E 0) (ts_now E 0))
              fl 1 (w_init fs)) as (_ & _ & _ & _ & ->).
  done.
Qed.

Lemma run_loop_archive E out_dir a fs : archive (run_loop E out_dir a fs) = None.
Proof. apply wrun_loop_archive. Qed.

Lemma wrun_loop_item_calls E out_dir total fl fs :
  item_calls_only (calls (wrun_loop E out_dir total fl fs)).
Proof.
  unfold wrun_loop.
  destruct (loop_state_item_calls E out_dir total
              (write_parquet (tk E 0)) (write_csv (tk E 0)) (scaling (tk E 0))
              (user_msg_of (tk E 0)) (_name_suffix (tk E 0) (ts_now E 0))
              fl 1 (w_init fs)) as (cs & -> & Hall).
  done.
Qed.

Lemma run_loop_item_calls E out_dir a fs :
  item_calls_only (calls (run_loop E out_dir a fs)).
Proof. apply wrun_loop_item_calls. Qed.

(** A fatal error is shown in a run whose imports succeed only when
    opening the archive raises, or closing it after it was opened. *)
Lemma wrun_fatal_inv E out_dir total fl fs e :
  import_decoder E = Ok tt →
  CShowError e ∈ calls (wrun E out_dir total fl fs) →
  ZipFile E (zip_name_of E out_dir (length fl)) = Raise e
  ∨ (ZipFile E (zip_name_of E out_dir (length fl)) = Ok tt
     ∧ zf_close E (zip_name_of E out_dir (length fl)) = Raise e).
Proof.
  intros Himp. rewrite (wrun_eq _ _ _ _ _ Himp). simpl.
  pose proof (wrun_loop_item_calls E out_dir total fl fs) as Hall.
  assert (Hloop : CShowError e ∉ calls (wrun_loop E out_dir total fl fs)).
  { intros Hin. unfold item_calls_only in Hall.
    rewrite Forall_forall in Hall. by specialize (Hall _ Hin). }
  destruct (_ && _); [destruct (ZipFile E _) as [[]|e'] eqn:Hzip|]; simpl.
  - intros [Hin|Hin]%elem_of_app; [done|].
    apply elem_of_cons in Hin as [[=]|Hin].
    apply elem_of_app in Hin as [Hin|Hin].
    + pose proof (only_logs_zip_failures E (produced (wrun_loop E out_dir total fl fs)))
        as Hl.
      unfold only_logs in Hl. rewrite Forall_forall in Hl. by specialize (Hl _ Hin).
    + destruct (zf_close E _) as [[]|e''] eqn:Hclose;
        repeat (apply elem_of_cons in Hin as [[=]|Hin]);
        try (by apply elem_of_nil in Hin).
      subst. by right.
  - intros [Hin|Hin]%elem_of_app; [done|].
    repeat (apply elem_of_cons in Hin as [[=]|Hin]); [left; congruence|].
    by apply elem_of_nil in Hin.
  - intros [Hin|Hin]%elem_of_app; [done|].
    repeat (apply elem_of_cons in Hin as [[=]|Hin]). by apply elem_of_nil in Hin.
Qed.

Lemma run_fatal_inv E out_dir a fs e :
  import_decoder E = Ok tt →
  CShowError e ∈ calls (run E out_dir a fs) →
  ZipFile E (zip_name_of E out_dir (length (files a))) = Raise e
  ∨ (ZipFile E (zip_name_of E out_dir (length (files a))) = Ok tt
     ∧ zf_close E (zip_name_of E out_dir (length (files a))) = Raise e).
Proof. apply wrun_fatal_inv. Qed.

(** ** Failure of one item *)

Lemma attempt_of_raises E out_dir x e :
  run_raises E out_dir x e →
  ∃ w rl,
    attempt E out_dir (write_parquet (tk E 0)) (write_csv (tk E 0)) (scaling (tk E 0))
      (user_msg_of (tk E 0)) (_name_suffix (tk E 0) (ts_now E 0)) x = (Some e, w, rl).
Proof.
  intros [H|H1 H2|m H1 H2 H3 H4|p (H1 & H2 & H3) H4 H5|c (H1 & H2 & H3) H4 H5 H6];
    unfold attempt, run_parq_path, run_csv_path in *.
  - rewrite H. eauto.
  - rewrite H1, H2. eauto.
  - rewrite H1, H2, H3, H4. eauto.
  - rewrite H1, H2, H4, H5.
    destruct (user_msg_of (tk E 0)); [rewrite H3|]; eauto.
  - rewrite H1, H2, H5, H6.
    destruct (parq_path_of _ _ _ _) as [p|]; [rewrite (H4 p eq_refl)|];
      (destruct (user_msg_of (tk E 0)); [rewrite H3|]); eauto.
Qed.

Lemma run_outcome_error E out_dir idx x fs e :
  stop_flag E idx = false →
  skip_existing (tk E idx) && run_existed E out_dir fs x = false →
  run_raises E out_dir x e →
  ∃ rl w, run_outcome E out_dir idx x fs = OError rl e w.
Proof.
  intros Hstop Hskip (w & rl & Hatt)%attempt_of_raises.
  unfold run_outcome, item_outcome. unfold run_existed in Hskip.
  rewrite Hstop, Hskip, Hatt. eauto.
Qed.

(** C7.  In a run whose imports succeed, over a queue without duplicates:
    when the decoder or a write raises [e] for a visited item [x] that
    has a row and is not skipped, [x] is set to Running and then to Error
    and shows Error after the run, the error is written to the log with
    [e], followed by the traceback, and the progress of [x] is reported;
    the item after [x] is visited, set to Cancelled if the stop flag is
    seen at its boundary and to Running otherwise; and a fatal error is
    shown in the run only if opening the archive raises, or closing
    it. *)
Theorem item_error_isolated (E : Env) (out_dir : Path) (a : App) (fs : gset string)
    (k : nat) (x : Path) (e : string) (st0 : Status) :
  import_decoder E = Ok tt →
  NoDup (files a) →
  files a !! k = Some x →
  status_of a x = Some st0 →
  (∀ j, j ≤ k → stop_flag E (S j) = false) →
  skip_existing (tk E (S k))
    && run_existed E out_dir (w_fs (run_before E out_dir a fs k)) x = false →
  run_raises E out_dir x e →
  status_trace x (calls (run E out_dir a fs)) = [Running; Error]
  ∧ status_of (run_app E out_dir a fs) x = Some Error
  ∧ (∃ cs1 cs2,
       calls (run E out_dir a fs)
       = cs1 ++ [CSetStatus x Error TagErr Blank Blank;
                 CLog (LError (pathlib.name x) e);
                 CLog LTraceback;
                 CSetProgress (S k)] ++ cs2)
  ∧ (∃ l1 l2,
       log (run_app E out_dir a fs)
       = log a ++ l1 ++ [LError (pathlib.name x) e; LTraceback] ++ l2)
  ∧ (∀ y, files a !! S k = Some y →
       if stop_flag E (S (S k))
       then status_trace y (calls (run E out_dir a fs)) = [Cancelled]
       else ∃ st, status_trace y (calls (run E out_dir a fs)) = [Running; st])
  ∧ (∀ e', CShowError e' ∈ calls (run E out_dir a fs) →
       ZipFile E (zip_name_of E out_dir (length (files a))) = Raise e'
       ∨ (ZipFile E (zip_name_of E out_dir (length (files a))) = Ok tt
          ∧ zf_close E (zip_name_of E out_dir (length (files a))) = Raise e')).
Proof.
  intros Himp Hnd Hk Hq Hstop Hskip Hraise.
  assert (Hbefore : ∀ j, j < k → stop_flag E (S j) = false) by (intros; apply Hstop; lia).
  destruct (run_outcome_error E out_dir (S k) x _ e (Hstop k (le_n k)) Hskip Hraise)
    as (rl & w & Ho).
  pose proof (run_trace_at E out_dir a fs k x Himp Hnd Hk Hbefore) as Htr.
  simpl in Htr. rewrite Ho in Htr. simpl in Htr.
  assert (Hcalls : ∃ cs1 cs2,
            calls (run E out_dir a fs)
            = cs1 ++ [CSetStatus x Error TagErr Blank Blank;
                      CLog (LError (pathlib.name x) e);
                      CLog LTraceback;
                      CSetProgress (S k)] ++ cs2).
  { destruct (run_visit E out_dir a fs k x Himp Hk Hbefore)
      as (cs_pre & cs_post & Hcs & _).
    rewrite Ho in Hcs.
    exists (cs_pre ++ CSetStatus x Running TagRun Blank Blank
              :: (if rl then [CLog (LReading (S k) (length (files a)) (pathlib.name x))]
                  else [])), cs_post.
    rewrite Hcs. destruct rl; simpl; by rewrite <- ?app_assoc. }
  split_and!.
  - done.
  - unfold run_app. by rewrite (status_of_apply_calls _ _ _ st0), Htr.
  - done.
  - destruct Hcalls as (cs1 & cs2 & Hcs).
    exists (log_trace cs1), (log_trace cs2).
    unfold run_app. by rewrite log_apply_calls, Hcs, !log_trace_app.
  - intros y Hy.
    assert (Hnext : ∀ j, j < S k → stop_flag E (S j) = false) by (intros; apply Hstop; lia).
    pose proof (run_trace_at E out_dir a fs (S k) y Himp Hnd Hy Hnext) as Hty.
    simpl in Hty.
    destruct (stop_flag E (S (S k))) eqn:Hs.
    + rewrite Hty. unfold run_outcome.
      by rewrite (proj2 (outcome_cancelled E out_dir _ _ _ _ _ (S (S k)) y _) Hs).
    + rewrite Hty. unfold run_outcome.
      destruct (item_outcome _ _ _ _ _ _ _ _ _ _) eqn:Hoy; eauto.
      apply outcome_cancelled in Hoy. congruence.
  - intros e'. by apply run_fatal_inv.
Qed.

(** The statement at a queue of two files, with a decoder that cannot
    read the first. *)
Lemma item_error_isolated_witness :
  let fs : gset string := {[ "/out"; "/in/a.udf"; "/in/b.bin" ]} in
  let v := mkVars "/out" true true true "" false false true false in
  let E := mkEnv (λ _, v) (λ _, false) (λ _, "20250101_000000") (Ok tt)
             (λ _, Ok tt)
             (λ p _, if bool_decide (p = "/in/a.udf") then Raise "bad header" else Ok tt)
             (λ _ _, Ok tt) (λ _ _, Ok tt) (λ _ _, Ok tt)
             (λ _, Ok tt) (λ _ _, Ok tt) (λ _, Ok tt) in
  let a := _add_files fs ["/in/a.udf"; "/in/b.bin"] App_init in
  map row_status (tree (run_app E "/out" a fs)) = [Error; Done]
  ∧ log (run_app E "/out" a fs)
    = [LReading 1 2 "a.udf"; LError "a.udf" "bad header"; LTraceback;
       LReading 2 2 "b.bin"; LFinished 2 2 "b.bin"]
  ∧ status_trace "/in/a.udf" (calls (run E "/out" a fs)) = [Running; Error].
Proof.
  intros fs v E a. split; [by vm_compute|]. split; [by vm_compute|].
  apply (item_error_isolated E "/out" a fs 0 "/in/a.udf" "bad header" Queued);
    [reflexivity|decide_true|reflexivity|by vm_compute|by intros|by vm_compute|].
  by apply raises_read.
Defined.

(** ** The archive *)

Lemma zip_entries_all E ps :
  (∀ p, p ∈ ps → zf_write E p (pathlib.name p) = Ok tt) →
  zip_entries E ps = map pathlib.name ps.
Proof.
  unfold zip_entries. induction ps as [|p ps IH]; intros Hall; simpl; [done|].
  rewrite (Hall p) by apply list_elem_of_here. simpl. f_equal.
  apply IH. intros q Hq. apply Hall. by apply list_elem_of_further.
Qed.

(** C9.  In a run whose imports succeed, with [produced] as the loop
    leaves it: when zip-outputs is read as off after the loop, or
    [produced] is empty, no archive is opened, the run ends right after
    the loop and the log has the lines of the loop only; when zip-outputs
    is read as on, [produced] is not empty and the archive can be opened,
    the log has the line of the bundling, the archive is given, in order,
    the base name of every produced file whose [zf.write] returns, hence
    of all of them when none raises, and every file whose [zf.write]
    raises is in the log with its error; the run then ends normally,
    without a fatal error, when the archive can be closed, and with the
    fatal error of the close otherwise. *)
Theorem bundle_after_loop (E : Env) (out_dir : Path) (a : App) (fs : gset string) :
  import_decoder E = Ok tt →
  let total := length (files a) in
  let s := run E out_dir a fs in
  let zip := zip_name_of E out_dir total in
  let out := output_dir (tk E (S total)) in
  produced s = produced (run_loop E out_dir a fs)
  ∧ (zip_outputs (tk E (S total)) = false ∨ produced s = [] →
     archive s = None
     ∧ w_fs s = w_fs (run_loop E out_dir a fs)
     ∧ calls s = calls (run_loop E out_dir a fs)
                 ++ [CSetIsRunning false; CEndRun (stop_flag E (S total)) out]
     ∧ log (run_app E out_dir a fs)
       = log a ++ log_trace (calls (run_loop E out_dir a fs)))
  ∧ (zip_outputs (tk E (S total)) = true → produced s ≠ [] → ZipFile E zip = Ok tt →
     archive s = Some (zip, zip_entries E (produced s))
     ∧ LBundling (length (produced s)) (pathlib.name zip) ∈ log (run_app E out_dir a fs)
     ∧ (∀ p, p ∈ produced s → zf_write E p (pathlib.name p) = Ok tt →
          pathlib.name p ∈ zip_entries E (produced s))
     ∧ (∀ p e, p ∈ produced s → zf_write E p (pathlib.name p) = Raise e →
          LZipAddFailed (pathlib.name p) e ∈ log (run_app E out_dir a fs))
     ∧ ((∀ p, p ∈ produced s → zf_write E p (pathlib.name p) = Ok tt) →
          zip_entries E (produced s) = map pathlib.name (produced s))
     ∧ (zf_close E zip = Ok tt →
          (∃ cs, calls s
                 = cs ++ [CSetIsRunning false; CEndRun (stop_flag E (S total)) out])
          ∧ ∀ e, CShowError e ∉ calls s)
     ∧ (∀ e, zf_close E zip = Raise e →
          ∃ cs, calls s = cs ++ [CSetIsRunning false; CEndRun true out; CShowError e])).
Proof.
  intros Himp total s zip out.
  assert (Hprod : produced s = produced (run_loop E out_dir a fs)).
  { by destruct (run_frame E out_dir a fs Himp) as (? & _ & _ & ?). }
  split; [done|].
  pose proof (run_eq E out_dir a fs Himp) as Hrun. simpl in Hrun.
  fold s total zip out in Hrun. rewrite <- Hprod in Hrun.
  split.
  - intros Hoff.
    assert (zip_outputs (tk E (S total)) && bool_decide (produced s ≠ []) = false) as Hc.
    { destruct Hoff as [->| ->]; [done|]. rewrite bool_decide_eq_false_2; [|by intros ?].
      by rewrite andb_false_r. }
    rewrite Hc in Hrun. unfold run_app. fold s. rewrite log_apply_calls.
    rewrite Hrun. simpl. split_and!; [|done..|].
    + apply run_loop_archive.
    + by rewrite log_trace_app, app_nil_r.
  - intros Hon Hne Hzip.
    rewrite Hon, (bool_decide_eq_true_2 _ Hne), Hzip in Hrun. simpl in Hrun.
    assert (Hlog : ∀ line,
              CLog line ∈ CLog (LBundling (length (produced s)) (pathlib.name zip))
                          :: zip_failures E (produced s) →
              line ∈ log (run_app E out_dir a fs)).
    { intros line Hin. unfold run_app. fold s. rewrite log_apply_calls.
      apply elem_of_app. right. apply elem_of_log_trace.
      rewrite Hrun at 1. simpl. apply elem_of_app. right.
      apply elem_of_cons in Hin as [->|Hin]; [apply list_elem_of_here|].
      apply list_elem_of_further, elem_of_app. by left. }
    split_and!.
    + by rewrite Hrun at 1.
    + apply Hlog, list_elem_of_here.
    + intros p Hp Hok. unfold zip_entries. apply list_elem_of_omap.
      exists p. by rewrite Hok.
    + intros p e Hp He. apply Hlog, list_elem_of_further.
      unfold zip_failures. apply list_elem_of_omap. exists p. by rewrite He.
    + apply zip_entries_all.
    + intros Hclose. rewrite Hclose in Hrun. split.
      * exists (calls (run_loop E out_dir a fs)
                ++ CLog (LBundling (length (produced s)) (pathlib.name zip))
                :: zip_failures E (produced s)).
        rewrite Hrun at 1. simpl. by rewrite <- app_assoc.
      * intros e He. apply (run_fatal_inv E out_dir a fs e Himp) in He.
        fold total zip in He. destruct He as [He|[_ He]]; congruence.
    + intros e Hclose. rewrite Hclose in Hrun.
      exists (calls (run_loop E out_dir a fs)
              ++ CLog (LBundling (length (produced s)) (pathlib.name zip))
              :: zip_failures E (produced s)).
      rewrite Hrun at 1. simpl. by rewrite <- app_assoc.
Qed.

(** The statement at a queue of one file converted to both formats, with
    a zip library that cannot add the CSV file. *)
Lemma bundle_after_loop_witness :
  let fs : gset string := {[ "/out"; "/in/a.udf" ]} in
  let v := mkVars "/out" true true true "" false false true true in
  let E := mkEnv (λ _, v) (λ _, false) (λ _, "20250101_000000") (Ok tt)
             (λ _, Ok tt) (λ _ _, Ok tt) (λ _ _, Ok tt) (λ _ _, Ok tt) (λ _ _, Ok tt)
             (λ _, Ok tt)
             (λ p _, if bool_decide (p = "/out/a.csv") then Raise "locked" else Ok tt)
             (λ _, Ok tt) in
  let a := _add_files fs ["/in/a.udf"] App_init in
  archive (run E "/out" a fs)
  = Some ("/out/udf_exports_20250101_000000.zip", ["a.parquet"])
  ∧ log (run_app E "/out" a fs)
    = [LReading 1 1 "a.udf"; LFinished 1 1 "a.udf";
       LBundling 2 "udf_exports_20250101_000000.zip"; LZipAddFailed "a.csv" "locked"]
  ∧ LZipAddFailed "a.csv" "locked" ∈ log (run_app E "/out" a fs).
Proof.
  intros fs v E a. split; [by vm_compute|]. split; [by vm_compute|].
  destruct (bundle_after_loop E "/out" a fs eq_refl) as (_ & _ & H).
  destruct H as (_ & _ & _ & Hlog & _); [reflexivity|by vm_compute|reflexivity|].
  apply (Hlog "/out/a.csv" "locked"); [decide_true|reflexivity].
Defined.

(** ** Outputs of a failed item *)

Lemma attempt_csv_raises E out_dir x p c e :
  run_decoded E x →
  run_parq_path E out_dir x = Some p → write_table E x p = Ok tt →
  run_csv_path E out_dir x = Some c → to_csv E x c = Raise e →
  attempt E out_dir (write_parquet (tk E 0)) (write_csv (tk E 0)) (scaling (tk E 0))
    (user_msg_of (tk E 0)) (_name_suffix (tk E 0) (ts_now E 0)) x = (Some e, [p], true).
Proof.
  intros (H1 & H2 & H3) Hp Hw Hc He.
  unfold attempt, run_parq_path, run_csv_path in *.
  rewrite H1, H2, Hp, Hw, Hc, He.
  by destruct (user_msg_of (tk E 0)); [rewrite H3|].
Qed.

(** C10.  In a run whose imports succeed, over a queue without
    duplicates: when, for a visited item [x] that is not skipped, the
    Parquet file [p] is written and the CSV write raises, [x] ends as
    Error and [p] is nevertheless in [produced] at the end of the run;
    and when zip-outputs is read as on, the archive can be opened and
    [zf.write] returns for [p], the archive has the entry of [p]. *)
Theorem produced_kept_on_error (E : Env) (out_dir : Path) (a : App) (fs : gset string)
    (k : nat) (x p c : Path) (e : string) :
  import_decoder E = Ok tt →
  NoDup (files a) →
  files a !! k = Some x →
  status_of a x = Some Queued →
  (∀ j, j ≤ k → stop_flag E (S j) = false) →
  skip_existing (tk E (S k))
    && run_existed E out_dir (w_fs (run_before E out_dir a fs k)) x = false →
  run_decoded E x →
  run_parq_path E out_dir x = Some p → write_table E x p = Ok tt →
  run_csv_path E out_dir x = Some c → to_csv E x c = Raise e →
  status_of (run_app E out_dir a fs) x = Some Error
  ∧ p ∈ produced (run E out_dir a fs)
  ∧ (zip_outputs (tk E (S (length (files a)))) = true →
     ZipFile E (zip_name_of E out_dir (length (files a))) = Ok tt →
     zf_write E p (pathlib.name p) = Ok tt →
     ∃ entries,
       archive (run E out_dir a fs)
       = Some (zip_name_of E out_dir (length (files a)), entries)
       ∧ pathlib.name p ∈ entries).
Proof.
  intros Himp Hnd Hk Hq Hstop Hskip Hdec Hp Hw Hc He.
  assert (Hbefore : ∀ j, j < k → stop_flag E (S j) = false) by (intros; apply Hstop; lia).
  assert (Ho : run_outcome E out_dir (S k) x (w_fs (run_before E out_dir a fs k))
               = OError true e [p]).
  { unfold run_outcome, item_outcome. unfold run_existed in Hskip.
    by rewrite (Hstop k (le_n k)), Hskip,
      (attempt_csv_raises E out_dir x p c e Hdec Hp Hw Hc He). }
  assert (Hin : p ∈ produced (run E out_dir a fs)).
  { destruct (run_visit E out_dir a fs k x Himp Hk Hbefore)
      as (_ & _ & _ & _ & _ & _ & Hpre).
    rewrite Ho in Hpre. simpl in Hpre. destruct Hpre as [rest ->].
    rewrite <- app_assoc. apply elem_of_app. right. apply list_elem_of_here. }
  split_and!.
  - pose proof (run_trace_at E out_dir a fs k x Himp Hnd Hk Hbefore) as Htr.
    simpl in Htr. rewrite Ho in Htr. simpl in Htr.
    unfold run_app. by rewrite (status_of_apply_calls _ _ _ Queued), Htr.
  - done.
  - intros Hzip Hopen Hadd.
    destruct (run_frame E out_dir a fs Himp) as (? & _ & _ & Hprod).
    rewrite Hprod in Hin.
    pose proof (run_eq E out_dir a fs Himp) as Hrun. simpl in Hrun.
    rewrite Hzip, Hopen, bool_decide_eq_true_2 in Hrun.
    2:{ intros Hnil. rewrite Hnil in Hin. by apply elem_of_nil in Hin. }
    simpl in Hrun. rewrite Hrun. simpl. eexists. split; [done|].
    unfold zip_entries. apply list_elem_of_omap. exists p. by rewrite Hadd.
Qed.

(** The statement at a queue of one file whose CSV write fails, with
    zip-outputs on. *)
Lemma produced_kept_on_error_witness :
  let fs : gset string := {[ "/out"; "/in/a.udf" ]} in
  let v := mkVars "/out" true true true "" false false true true in
  let E := mkEnv (λ _, v) (λ _, false) (λ _, "20250101_000000") (Ok tt)
             (λ _, Ok tt) (λ _ _, Ok tt) (λ _ _, Ok tt) (λ _ _, Ok tt)
             (λ _ _, Raise "disk full")
             (λ _, Ok tt) (λ _ _, Ok tt) (λ _, Ok tt) in
  let a := _add_files fs ["/in/a.udf"] App_init in
  archive (run E "/out" a fs)
  = Some ("/out/udf_exports_20250101_000000.zip", ["a.parquet"])
  ∧ status_of (run_app E "/out" a fs) "/in/a.udf" = Some Error
  ∧ "/out/a.parquet" ∈ produced (run E "/out" a fs).
Proof.
  intros fs v E a. split; [by vm_compute|].
  destruct (produced_kept_on_error E "/out" a fs 0 "/in/a.udf"
              "/out/a.parquet" "/out/a.csv" "disk full") as (H1 & H2 & _);
    [reflexivity|decide_true|reflexivity|by vm_compute|by intros|by vm_compute
    |by vm_compute|reflexivity|reflexivity|reflexivity|reflexivity|].
  by split.
Defined.

(** ** Configuration read while a run is in flight *)

Section Reads.
Variable E : Env.
Variable tk' : nat → Vars.
Variable out_dir : Path.
Variable total : nat.
Variable do_parq do_csv apply_scaling : bool.
Variable user_msg : option string.
Variable suffix : string.

Lemma item_outcome_with_tk idx x fs :
  skip_existing (tk' idx) = skip_existing (tk E idx) →
  item_outcome (with_tk tk' E) out_dir do_parq do_csv apply_scaling user_msg suffix idx x fs
  = item_outcome E out_dir do_parq do_csv apply_scaling user_msg suffix idx x fs.
Proof. intros Hskip. unfold item_outcome. simpl. by rewrite Hskip. Qed.

Lemma loop_state_with_tk items idx s :
  (∀ t, idx ≤ t < idx + length items → skip_existing (tk' t) = skip_existing (tk E t)) →
  loop_state (with_tk tk' E) out_dir total do_parq do_csv apply_scaling user_msg suffix
    idx items s
  = loop_state E out_dir total do_parq do_csv apply_scaling user_msg suffix idx items s.
Proof.
  revert idx s. induction items as [|x rest IH]; intros idx s Hskip; simpl; [done|].
  rewrite item_outcome_with_tk by (apply Hskip; simpl; lia).
  destruct (item_outcome E _ _ _ _ _ _ _ _ _); try done;
    apply IH; intros t Ht; apply Hskip; simpl; lia.
Qed.
End Reads.

(** The Tk variables reach a run only through the locals taken before the
    loop, the read of skip-existing at each item, the read of zip-outputs
    after the loop and the read of the output folder by [_end_run]: two
    timelines that agree on these give the same run. *)
Lemma run_reads E tk' out_dir a fs :
  write_parquet (tk' 0) = write_parquet (tk E 0) →
  write_csv (tk' 0) = write_csv (tk E 0) →
  scaling (tk' 0) = scaling (tk E 0) →
  user_message (tk' 0) = user_message (tk E 0) →
  timestamp_suffix (tk' 0) = timestamp_suffix (tk E 0) →
  (∀ t, 1 ≤ t ≤ length (files a) → skip_existing (tk' t) = skip_existing (tk E t)) →
  zip_outputs (tk' (S (length (files a)))) = zip_outputs (tk E (S (length (files a)))) →
  output_dir (tk' (S (length (files a)))) = output_dir (tk E (S (length (files a)))) →
  run (with_tk tk' E) out_dir a fs = run E out_dir a fs.
Proof.
  intros Hp Hc Hs Hm Ht Hskip Hzip Hout.
  unfold run, _worker_run, try_except. unfold mbind, M_bind, call. simpl.
  rewrite Hout.
  destruct (import_decoder E) as [[]|e]; [|done].
  rewrite !for_loop_eq, !bundle_eq. unfold user_msg_of, _name_suffix.
  rewrite Hp, Hc, Hs, Hm, Ht.
  rewrite loop_state_with_tk by (intros; apply Hskip; lia).
  unfold zip_name_of. simpl. by rewrite Hzip.
Qed.

(** C2 at a failing input.  Three runs start from the same Tk variables,
    with skip-existing and zip-outputs off, on the same queue and disk;
    in the second the user ticks skip-existing, in the third zip-outputs,
    after the worker has taken its locals.  The second run skips the file
    that the first converts, and the third writes an archive that the
    first does not: both variables are read in flight. *)
Lemma config_read_in_flight :
  let fs : gset string := {[ "/out"; "/in/a.udf"; "/out/a.parquet" ]} in
  let v0 := mkVars "/out" true true true "" false false false false in
  let v_skip := mkVars "/out" true true true "" false false true false in
  let v_zip := mkVars "/out" true true true "" false false false true in
  let env tkf := mkEnv tkf (λ _, false) (λ _, "20250101_000000") (Ok tt)
                   (λ _, Ok tt) (λ _ _, Ok tt) (λ _ _, Ok tt) (λ _ _, Ok tt)
                   (λ _ _, Ok tt) (λ _, Ok tt) (λ _ _, Ok tt) (λ _, Ok tt) in
  let E0 := env (λ _, v0) in
  let E1 := env (λ t, if bool_decide (t = 0) then v0 else v_skip) in
  let E2 := env (λ t, if bool_decide (t = 0) then v0 else v_zip) in
  let a := _add_files fs ["/in/a.udf"] App_init in
  tk E1 0 = tk E0 0 ∧ tk E2 0 = tk E0 0
  ∧ status_of (run_app E0 "/out" a fs) "/in/a.udf" = Some Done
  ∧ produced (run E0 "/out" a fs) = ["/out/a.parquet"; "/out/a.csv"]
  ∧ archive (run E0 "/out" a fs) = None
  ∧ status_of (run_app E1 "/out" a fs) "/in/a.udf" = Some Skipped
  ∧ produced (run E1 "/out" a fs) = []
  ∧ archive (run E2 "/out" a fs)
    = Some ("/out/udf_exports_20250101_000000.zip", ["a.parquet"; "a.csv"]).
Proof. intros fs v0 v_skip v_zip env E0 E1 E2 a. split_and!; by vm_compute. Qed.

(** ** The timestamp suffix *)

(** C5 at a failing input.  With the timestamp suffix on and
    skip-existing off, the clock reads [20250101_000000] when
    [_on_convert] looks for collisions and [20250101_000001] when the
    worker takes its suffix.  The file the worker will write is on disk;
    the collision check, made with the other suffix, finds nothing, so the
    batch starts without the overwrite prompt, and the worker overwrites
    the file. *)
Lemma suffix_taken_twice :
  let fs : gset string :=
    {[ "/out"; "/in/a.udf"; "/out/a_20250101_000001.parquet" ]} in
  let v := mkVars "/out" true true true "" false true false false in
  let E := mkEnv (λ _, v) (λ _, false)
             (λ t, if bool_decide (t = 0) then "20250101_000001" else "20250101_000009")
             (Ok tt) (λ _, Ok tt) (λ _ _, Ok tt) (λ _ _, Ok tt) (λ _ _, Ok tt)
             (λ _ _, Ok tt) (λ _, Ok tt) (λ _ _, Ok tt) (λ _, Ok tt) in
  let a := _add_files fs ["/in/a.udf"] App_init in
  _name_suffix v "20250101_000000" ≠ _name_suffix (tk E 0) (ts_now E 0)
  ∧ _find_collisions v fs (files a) "/out" (_name_suffix v "20250101_000000") = []
  ∧ _find_collisions v fs (files a) "/out" (_name_suffix (tk E 0) (ts_now E 0))
    = ["a_20250101_000001.parquet"]
  ∧ match _on_convert v "20250101_000000" [] (Ok tt) false fs a with
    | inl _ => False
    | inr st =>
        st_collisions st = []
        ∧ produced (run E (st_out_dir st) (st_app st) (st_fs st))
          = ["/out/a_20250101_000001.parquet"; "/out/a_20250101_000001.csv"]
        ∧ "/out/a_20250101_000001.parquet" ∈ st_fs st
    end.
Proof. intros fs v E a. split_and!; by vm_compute. Qed.

(** * Further properties *)

(** ** The queue and its display *)

Lemma renumber_from_file i rows :
  map row_file (renumber_from i rows) = map row_file rows.
Proof. revert i. induction rows as [|r rows IH]; intros i; simpl; [done|]. by rewrite IH. Qed.

Lemma renumber_from_status i rows :
  map row_status (renumber_from i rows) = map row_status rows.
Proof. revert i. induction rows as [|r rows IH]; intros i; simpl; [done|]. by rewrite IH. Qed.

Lemma renumber_from_num i rows :
  map row_num (renumber_from i rows) = seq i (length rows).
Proof. revert i. induction rows as [|r rows IH]; intros i; simpl; [done|]. by rewrite IH. Qed.

Lemma renumber_from_length i rows : length (renumber_from i rows) = length rows.
Proof. revert i. induction rows as [|r rows IH]; intros i; simpl; [done|]. by rewrite IH. Qed.

Section QueueDisplay.
Implicit Types (a : App) (P : Path) (fs : gset string).

Lemma tree_insert_match a P :
  map row_file (tree a) = files a → all_queued a →
  map row_file (tree (_tree_insert P Queued (set_files (files a ++ [P]) a)))
  = files (_tree_insert P Queued (set_files (files a ++ [P]) a))
  ∧ all_queued (_tree_insert P Queued (set_files (files a ++ [P]) a)).
Proof.
  intros Hm Hq. unfold all_queued. simpl. rewrite map_app, Hm. split; [done|].
  apply Forall_app. split; [done|by repeat constructor].
Qed.

Lemma add_one_match fs a P :
  map row_file (tree a) = files a → all_queued a →
  map row_file (tree (add_one fs a P)) = files (add_one fs a P)
  ∧ all_queued (add_one fs a P).
Proof.
  intros Hm Hq. unfold add_one. destruct (_ && _); [|done].
  by apply tree_insert_match.
Qed.

Lemma drop_one_match fs a P :
  map row_file (tree a) = files a → all_queued a →
  map row_file (tree (drop_one fs a P)) = files (drop_one fs a P)
  ∧ all_queued (drop_one fs a P).
Proof.
  intros Hm Hq. unfold drop_one. destruct (_ && _); [|done].
  by apply tree_insert_match.
Qed.

Lemma foldl_match {A} (f : App → A → App) (xs : list A) a :
  (∀ b x, map row_file (tree b) = files b → all_queued b →
          map row_file (tree (f b x)) = files (f b x) ∧ all_queued (f b x)) →
  map row_file (tree a) = files a → all_queued a →
  map row_file (tree (foldl f a xs)) = files (foldl f a xs)
  ∧ all_queued (foldl f a xs).
Proof.
  intros Hf. revert a. induction xs as [|x xs IH]; intros a Hm Hq; simpl; [done|].
  destruct (Hf a x Hm Hq). by apply IH.
Qed.

(** Renumbering and refreshing the buttons after a loop that kept the
    rows and the files together gives a queue that is in order. *)
Lemma finish_queue_ok a :
  NoDup (files a) → map row_file (tree a) = files a → all_queued a →
  queue_ok (_refresh_buttons (_renumber a))
  ∧ all_queued (_refresh_buttons (_renumber a)).
Proof.
  intros Hnd Hm Hq. unfold queue_ok, all_queued. simpl.
  rewrite renumber_from_file, renumber_from_num, renumber_from_length.
  split_and!; try done.
  unfold all_queued in Hq. clear Hm. revert Hq. generalize (tree a), 1.
  intros rows i Hq. revert i.
  induction Hq as [|r rows Hr _ IH]; intros i; simpl; constructor; [done|apply IH].
Qed.

Lemma enqueue_call_ok a c :
  queue_ok a → all_queued a →
  queue_ok (enqueue_call a c) ∧ all_queued (enqueue_call a c).
Proof.
  intros (Hnd & Hm & Hn) Hq. destruct c as [fs paths|fs data]; unfold enqueue_call.
  - unfold _add_files. destruct paths as [|P paths]; [done|].
    destruct (foldl_match (add_one fs) (P :: paths) a (add_one_match fs) Hm Hq).
    apply finish_queue_ok; try done.
    by apply foldl_queue_inv; [apply queue_step_add_one|].
  - unfold _on_drop_files.
    destruct (foldl_match (drop_one fs) (_parse_dnd_list data) a (drop_one_match fs) Hm Hq).
    apply finish_queue_ok; try done.
    by apply foldl_queue_inv; [apply queue_step_drop_one|].
Qed.

Lemma status_rows_all_queued rows q :
  Forall (λ r, row_status r = Queued) rows → q ∈ map row_file rows →
  status_rows q rows = Some Queued.
Proof.
  induction 1 as [|r rows Hr _ IH]; simpl; [by intros ?%elem_of_nil|].
  intros Hin. case_bool_decide; [by rewrite Hr|].
  apply IH. apply elem_of_cons in Hin as [?|?]; [congruence|done].
Qed.
End QueueDisplay.

(** X1.  Enqueue calls keep the queue and its display together: from a
    queue without duplicates whose rows are those of its files, in order,
    numbered from 1 and all Queued, every sequence of calls of the file
    dialog and of drops gives such a queue again; in particular every
    file of the queue then shows Queued. *)
Theorem enqueue_keeps_display (cs : list EnqueueCall) (a : App) :
  queue_ok a → all_queued a →
  queue_ok (enqueue_calls cs a)
  ∧ all_queued (enqueue_calls cs a)
  ∧ Forall (λ q, status_of (enqueue_calls cs a) q = Some Queued)
      (files (enqueue_calls cs a)).
Proof.
  intros Hok Hq.
  assert (queue_ok (enqueue_calls cs a) ∧ all_queued (enqueue_calls cs a)) as [Hok' Hq'].
  { unfold enqueue_calls. revert a Hok Hq.
    induction cs as [|c cs IH]; intros a Hok Hq; simpl; [done|].
    destruct (enqueue_call_ok a c Hok Hq). by apply IH. }
  split_and!; try done.
  apply Forall_forall. intros q Hin. unfold status_of.
  apply status_rows_all_queued; [done|].
  destruct Hok' as (_ & -> & _). done.
Qed.

(** The statement from the empty queue of the start of the application. *)
Lemma enqueue_keeps_display_witness :
  let fs : gset string := {[ "/in/a.udf"; "/in/b.bin"; "/in/my file.udf" ]} in
  let cs := [AddFiles fs ["/in/b.bin"; "/in/a.udf"];
             DropFiles fs "{/in/my file.udf} /in/a.udf"] in
  files (enqueue_calls cs App_init) = ["/in/b.bin"; "/in/a.udf"; "/in/my file.udf"]
  ∧ queue_ok (enqueue_calls cs App_init).
Proof.
  intros fs cs. split; [by vm_compute|].
  apply (enqueue_keeps_display cs App_init).
  - unfold queue_ok. simpl. split_and!; [apply NoDup_nil_2|done|done].
  - constructor.
Defined.

Section Provenance.
Implicit Types (a : App) (P : Path) (fs : gset string).

Lemma foldl_enqueue_from {A} (ok : A → bool) (f : A → Path) (xs : list A) l P :
  P ∈ foldl (λ l x, enqueue_spec (ok x) l (f x)) l xs →
  P ∈ l ∨ ∃ x, x ∈ xs ∧ P = f x ∧ ok x = true.
Proof.
  revert l. induction xs as [|x xs IH]; intros l; simpl; [by left|].
  intros [Hin|(y & Hy & HP & Hok)]%IH.
  - unfold enqueue_spec in Hin. destruct (ok x) eqn:Hok; simpl in Hin; [|by left].
    destruct (negb _); [|by left].
    apply elem_of_app in Hin as [?|Heq]; [by left|].
    apply list_elem_of_singleton in Heq as ->.
    right. exists x. split; [apply list_elem_of_here|done].
  - right. exists y. split; [by apply list_elem_of_further|done].
Qed.
End Provenance.

(** X2.  The queue never takes a path that did not exist when it was
    offered: every path in the queue after a sequence of enqueue calls was
    in the queue before, or is [Path(p)] for a name [p] offered by one of
    the calls and existed on the file system of that call; a path taken
    from a drop also has the suffix [.udf] or [.bin], whatever its
    case. *)
Theorem enqueued_paths_existed (cs : list EnqueueCall) (a : App) (P : Path) :
  P ∈ files (enqueue_calls cs a) →
  P ∈ files a ∨ Exists (enqueued_by P) cs.
Proof.
  unfold enqueue_calls. revert a. induction cs as [|c cs IH]; intros a; simpl; [by left|].
  intros [Hin|Hex]%IH; [|right; by apply Exists_cons_tl].
  destruct c as [fs paths|fs data]; unfold enqueue_call in Hin.
  - rewrite files_add_files in Hin.
    apply (foldl_enqueue_from (λ p, pathlib.exists_ fs (pathlib.Path_ p)) pathlib.Path_)
      in Hin as [?|(p & Hp & -> & Hex)]; [by left|].
    right. apply Exists_cons_hd. simpl. split; [by exists p|].
    by apply bool_decide_eq_true_1 in Hex.
  - rewrite files_on_drop_files in Hin.
    apply (foldl_enqueue_from
             (λ p, pathlib.exists_ fs (pathlib.Path_ p) && dnd_suffix_ok (pathlib.Path_ p))
             pathlib.Path_) in Hin as [?|(p & Hp & -> & Hok)]; [by left|].
    apply andb_prop in Hok as [Hex Hsuf].
    right. apply Exists_cons_hd. simpl. split_and!; [by exists p| |].
    + by apply bool_decide_eq_true_1 in Hex.
    + by apply bool_decide_eq_true_1 in Hsuf.
Qed.

(** The statement at a drop that offers a file under another spelling of
    its path, a missing file and a text file. *)
Lemma enqueued_paths_existed_witness :
  let fs : gset string := {[ "/in/a.UDF"; "/in/notes.txt" ]} in
  let cs := [DropFiles fs "/in//a.UDF /in/gone.udf /in/notes.txt"] in
  files (enqueue_calls cs App_init) = ["/in/a.UDF"]
  ∧ ("/in/a.UDF" ∈ files App_init ∨ Exists (enqueued_by "/in/a.UDF") cs).
Proof.
  intros fs cs. split; [by vm_compute|].
  apply (enqueued_paths_existed cs App_init "/in/a.UDF"). decide_true.
Defined.

(** ** Drop data *)

Lemma nonempty_app_r (s1 s2 : string) : nonempty s2 = true → nonempty (s1 +:+ s2) = true.
Proof. destruct s1, s2; done. Qed.

(** Characters of a name are added to [cur]: outside braces when they are
    neither braces nor spaces, inside braces when they are not braces. *)
Lemma parse_dnd_loop_name (p rest : string) (out : list string) (cur : string)
    (in_brace : bool) :
  string_forall (if in_brace then dnd_inner_char else dnd_plain_char) p = true →
  parse_dnd_loop (p +:+ rest) out cur in_brace
  = parse_dnd_loop rest out (cur +:+ p) in_brace.
Proof.
  revert cur. induction p as [|c p IH]; intros cur Hp; simpl.
  { by rewrite string_app_nil_r. }
  simpl in Hp. apply andb_prop in Hp as [Hc Hp].
  assert (Ascii.eqb c "{" = false ∧ Ascii.eqb c "}" = false
          ∧ Ascii.eqb c " " && negb in_brace = false) as (-> & -> & ->).
  { destruct in_brace; unfold dnd_inner_char, dnd_plain_char in Hc;
      destruct (Ascii.eqb c "{"), (Ascii.eqb c "}"), (Ascii.eqb c " "); done. }
  rewrite IH by done. by rewrite string_app_assoc.
Qed.

Lemma parse_dnd_loop_join ps out :
  Forall (λ p, nonempty p = true ∧ string_forall dnd_plain_char p = true) ps →
  parse_dnd_loop (dnd_join ps) out "" false = out ++ ps.
Proof.
  intros Hps. revert out.
  induction Hps as [|p ps [Hne Hp] Hps IH]; intros out; simpl.
  { by rewrite app_nil_r. }
  destruct ps as [|q ps].
  - rewrite <- (string_app_nil_r p) at 1.
    rewrite (parse_dnd_loop_name p "" out "" false Hp).
    change ("" +:+ p) with p. cbn [parse_dnd_loop]. by rewrite Hne.
  - rewrite (parse_dnd_loop_name p _ out "" false Hp).
    change ("" +:+ p) with p.
    change (" " +:+ dnd_join (q :: ps)) with (String " " (dnd_join (q :: ps))).
    cbn [parse_dnd_loop].
    change (Ascii.eqb " " "{") with false. change (Ascii.eqb " " "}") with false.
    change (Ascii.eqb " " " ") with true. cbn [andb negb].
    rewrite Hne, IH. by rewrite <- app_assoc.
Qed.

(** X3.  Drop data made of names separated by single spaces parses back
    into the names: for non-empty names without spaces and braces,
    [_parse_dnd_list] of the joined names is the list of names, in
    order. *)
Theorem parse_dnd_join (ps : list string) :
  Forall (λ p, nonempty p = true ∧ string_forall dnd_plain_char p = true) ps →
  _parse_dnd_list (dnd_join ps) = ps.
Proof. intros Hps. unfold _parse_dnd_list. by rewrite parse_dnd_loop_join. Qed.

(** The statement at three names. *)
Lemma parse_dnd_join_witness :
  _parse_dnd_list (dnd_join ["/in/a.udf"; "C:\data\b.bin"; "c"])
  = ["/in/a.udf"; "C:\data\b.bin"; "c"].
Proof. apply parse_dnd_join. repeat constructor. Defined.

Lemma parse_dnd_loop_braced ps out :
  Forall (λ p, nonempty p = true ∧ string_forall dnd_inner_char p = true) ps →
  parse_dnd_loop (dnd_braced ps) out "" false = out ++ (ps ≫= λ p, [p; p]).
Proof.
  intros Hps. revert out.
  induction Hps as [|p ps [Hne Hp] Hps IH]; intros out.
  { simpl. by rewrite app_nil_r. }
  assert (Hstep : ∀ rest,
            parse_dnd_loop ("{" +:+ p +:+ "}" +:+ rest) out "" false
            = parse_dnd_loop rest (out ++ [p]) p false).
  { intros rest.
    change ("{" +:+ p +:+ "}" +:+ rest) with (String "{" (p +:+ String "}" rest)).
    cbn [parse_dnd_loop]. change (Ascii.eqb "{" "{") with true. cbn iota.
    rewrite (parse_dnd_loop_name p _ out "" true Hp). change ("" +:+ p) with p.
    cbn [parse_dnd_loop]. change (Ascii.eqb "}" "{") with false.
    change (Ascii.eqb "}" "}") with true. by cbn iota. }
  destruct ps as [|q ps].
  - change (dnd_braced [p]) with ("{" +:+ p +:+ "}" +:+ "").
    rewrite Hstep. cbn [parse_dnd_loop]. rewrite Hne.
    by rewrite <- app_assoc.
  - change (dnd_braced (p :: q :: ps))
      with ("{" +:+ p +:+ "}" +:+ String " " (dnd_braced (q :: ps))).
    rewrite Hstep. cbn [parse_dnd_loop].
    change (Ascii.eqb " " "{") with false. change (Ascii.eqb " " "}") with false.
    change (Ascii.eqb " " " ") with true. cbn [andb negb].
    cbn iota. rewrite Hne, IH.
    change ((p :: q :: ps) ≫= λ p0, [p0; p0])
      with ([p; p] ++ ((q :: ps) ≫= λ p0, [p0; p0])).
    by rewrite <- !app_assoc.
Qed.

Lemma drop_one_twice fs a p : drop_one fs (drop_one fs a p) p = drop_one fs a p.
Proof.
  destruct (pathlib.exists_ fs (pathlib.Path_ p)
            && bool_decide (lower (pathlib.suffix (pathlib.Path_ p)) ∈ [".udf"; ".bin"])
            && negb (bool_decide (pathlib.Path_ p ∈ files a))) eqn:Hc.
  - unfold drop_one at 2. rewrite Hc. unfold drop_one. simpl.
    rewrite (bool_decide_eq_true_2 (pathlib.Path_ p ∈ files a ++ [pathlib.Path_ p])).
    + by rewrite Hc, andb_false_r.
    + apply elem_of_app. right. apply list_elem_of_here.
  - unfold drop_one. by rewrite !Hc.
Qed.

(** X4.  Names with spaces arrive in braces, and the parser returns each
    braced name twice; the duplicate check of the queue absorbs the
    repetition: dropping non-empty names without braces, each wrapped in
    braces and separated by single spaces, changes the application as
    offering each name once does. *)
Theorem drop_braced_once (fs : gset string) (ps : list string) (a : App) :
  Forall (λ p, nonempty p = true ∧ string_forall dnd_inner_char p = true) ps →
  _parse_dnd_list (dnd_braced ps) = ps ≫= (λ p, [p; p])
  ∧ _on_drop_files fs (dnd_braced ps) a
    = _refresh_buttons (_renumber (foldl (drop_one fs) a ps)).
Proof.
  intros Hps.
  assert (Hparse : _parse_dnd_list (dnd_braced ps) = ps ≫= (λ p, [p; p])).
  { unfold _parse_dnd_list. by rewrite parse_dnd_loop_braced. }
  split; [done|]. unfold _on_drop_files. rewrite Hparse. do 2 f_equal.
  clear. revert a. induction ps as [|p ps IH]; intros a; [done|].
  change ((p :: ps) ≫= λ p0, [p0; p0]) with ([p; p] ++ (ps ≫= λ p0, [p0; p0])).
  rewrite foldl_app. simpl. by rewrite drop_one_twice, IH.
Qed.

(** The statement at two names with spaces. *)
Lemma drop_braced_once_witness :
  let fs : gset string := {[ "/in/my file.udf"; "/in/other one.bin" ]} in
  _parse_dnd_list "{/in/my file.udf} {/in/other one.bin}"
  = ["/in/my file.udf"; "/in/my file.udf"; "/in/other one.bin"; "/in/other one.bin"]
  ∧ files (_on_drop_files fs "{/in/my file.udf} {/in/other one.bin}" App_init)
    = ["/in/my file.udf"; "/in/other one.bin"].
Proof.
  intros fs.
  destruct (drop_braced_once fs ["/in/my file.udf"; "/in/other one.bin"] App_init)
    as [H1 H2]; [by repeat constructor|].
  split; [exact H1|]. change (dnd_braced _) with "{/in/my file.udf} {/in/other one.bin}" in H2.
  rewrite H2. by vm_compute.
Defined.

(** ** Removing from the queue *)

Lemma map_delete {A B} (f : A → B) i (l : list A) :
  map f (delete i l) = delete i (map f l).
Proof.
  revert i. induction l as [|x l IH]; intros [|i]; simpl; try done.
  by rewrite IH.
Qed.

Lemma delete_rows_one i j rows :
  delete_rows [i] j rows = if bool_decide (j ≤ i) then delete (i - j) rows else rows.
Proof.
  revert j. induction rows as [|r rows IH]; intros j; simpl.
  { by case_bool_decide. }
  rewrite IH. destruct (decide (j = i)) as [->|Hne].
  - rewrite (bool_decide_eq_true_2 (i ∈ [i])) by apply list_elem_of_here.
    rewrite (bool_decide_eq_true_2 (i ≤ i)), (bool_decide_eq_false_2 (S i ≤ i)) by lia.
    by rewrite Nat.sub_diag.
  - rewrite (bool_decide_eq_false_2 (j ∈ [i])).
    2:{ by intros ?%list_elem_of_singleton. }
    destruct (decide (j ≤ i)) as [Hle|Hgt].
    + rewrite (bool_decide_eq_true_2 (j ≤ i)), (bool_decide_eq_true_2 (S j ≤ i)) by lia.
      by replace (i - j) with (S (i - S j)) by lia.
    + by rewrite (bool_decide_eq_false_2 (j ≤ i)), (bool_decide_eq_false_2 (S j ≤ i)) by lia.
Qed.

Lemma numbered_lookup (rows : list Row) i r :
  map row_num rows = seq 1 (length rows) → rows !! i = Some r → row_num r = S i.
Proof.
  intros Hnum Hi.
  assert (map row_num rows !! i = Some (row_num r)) as Hm.
  { change (map row_num rows) with (row_num <$> rows). by rewrite list_lookup_fmap, Hi. }
  rewrite Hnum in Hm. apply lookup_seq in Hm as [-> _]. done.
Qed.

(** X5.  Removing one selected row: in a queue that is in order and not
    running, removing the row at position [i] removes the file at
    position [i] and only it, deletes its row and only it, keeps the
    statuses of the other rows, and leaves the queue in order. *)
Theorem remove_one_selected (i : nat) (a : App) :
  queue_ok a → is_running a = false → i < length (files a) →
  files (_remove_selected [i] a) = delete i (files a)
  ∧ map row_status (tree (_remove_selected [i] a)) = delete i (map row_status (tree a))
  ∧ queue_ok (_remove_selected [i] a).
Proof.
  intros (Hnd & Hm & Hnum) Hrun Hi.
  assert (length (tree a) = length (files a)) as Hlen.
  { by rewrite <- Hm, length_map. }
  destruct (lookup_lt_is_Some_2 (tree a) i) as [r Hr]; [lia|].
  pose proof (numbered_lookup _ _ _ Hnum Hr) as Hr_num.
  unfold _remove_selected. rewrite Hrun. unfold queue_ok. simpl.
  unfold pop_selected. rewrite Hr, Hr_num.
  rewrite delete_rows_one, (bool_decide_eq_true_2 (0 ≤ i)), Nat.sub_0_r by lia.
  rewrite renumber_from_file, renumber_from_status, renumber_from_num,
    renumber_from_length, !map_delete, Hm.
  split_and!; try done.
  apply (sublist_NoDup _ (files a)); [done|apply sublist_delete].
Qed.

(** The statement at the second of three files. *)
Lemma remove_one_selected_witness :
  let fs : gset string := {[ "/in/a.udf"; "/in/b.bin"; "/in/c.udf" ]} in
  let a := _add_files fs ["/in/a.udf"; "/in/b.bin"; "/in/c.udf"] App_init in
  files (_remove_selected [1] a) = ["/in/a.udf"; "/in/c.udf"]
  ∧ map row_num (tree (_remove_selected [1] a)) = [1; 2].
Proof.
  intros fs a. split; [|by vm_compute].
  destruct (remove_one_selected 1 a) as (H & _).
  - unfold queue_ok. split_and!; [decide_true|by vm_compute|by vm_compute].
  - reflexivity.
  - vm_compute. lia.
  - rewrite H. by vm_compute.
Defined.

Lemma delete_rows_after i j k rows :
  i < k → delete_rows [i; j] k rows = delete_rows [j] k rows.
Proof.
  revert k. induction rows as [|r rows IH]; intros k Hk; simpl; [done|].
  rewrite IH by lia.
  destruct (decide (k = j)) as [->|Hne].
  - by rewrite !bool_decide_eq_true_2 by (rewrite ?elem_of_cons; auto).
  - rewrite !bool_decide_eq_false_2; [done|..].
    + by intros ?%list_elem_of_singleton.
    + rewrite !elem_of_cons. intros [?|[?|?%elem_of_nil]]; [lia|done|done].
Qed.

Lemma delete_rows_two i j k rows :
  k ≤ i → i < j →
  delete_rows [i; j] k rows = delete (j - 1 - k) (delete (i - k) rows).
Proof.
  revert k. induction rows as [|r rows IH]; intros k Hk Hij.
  { simpl. by destruct (j - 1 - k), (i - k). }
  cbn [delete_rows]. destruct (decide (k = i)) as [->|Hne].
  - rewrite bool_decide_eq_true_2 by apply list_elem_of_here.
    rewrite delete_rows_after, delete_rows_one by lia.
    rewrite (bool_decide_eq_true_2 (S i ≤ j)) by lia.
    rewrite Nat.sub_diag. simpl. f_equal. lia.
  - rewrite bool_decide_eq_false_2.
    2:{ rewrite !elem_of_cons. intros [?|[?|?%elem_of_nil]]; [done|lia|done]. }
    rewrite IH by lia.
    replace (i - k) with (S (i - S k)) by lia.
    replace (j - 1 - k) with (S (j - 1 - S k)) by lia. done.
Qed.

(** X6.  Removing two selected rows at once: the second file is popped by
    the number its row had before the first pop.  In a queue that is in
    order and not running, with rows [i < j] selected and a file after
    position [j], the file of row [j] stays in [self.files] and the file
    after it is removed instead, while the display deletes rows [i] and
    [j]: the files and the rows no longer agree. *)
Theorem remove_two_selected (i j : nat) (a : App) :
  queue_ok a → is_running a = false → i < j → S j < length (files a) →
  files (_remove_selected [i; j] a) = delete j (delete i (files a))
  ∧ map row_file (tree (_remove_selected [i; j] a))
    = delete (j - 1) (delete i (files a))
  ∧ files (_remove_selected [i; j] a) !! (j - 1) = files a !! j
  ∧ map row_file (tree (_remove_selected [i; j] a)) !! (j - 1) = files a !! S j
  ∧ ¬ queue_ok (_remove_selected [i; j] a).
Proof.
  intros (Hnd & Hm & Hnum) Hrun Hij Hj.
  assert (length (tree a) = length (files a)) as Hlen.
  { by rewrite <- Hm, length_map. }
  destruct (lookup_lt_is_Some_2 (tree a) i) as [ri Hri]; [lia|].
  destruct (lookup_lt_is_Some_2 (tree a) j) as [rj Hrj]; [lia|].
  pose proof (numbered_lookup _ _ _ Hnum Hri) as Hi_num.
  pose proof (numbered_lookup _ _ _ Hnum Hrj) as Hj_num.
  assert (Hfiles : files (_remove_selected [i; j] a) = delete j (delete i (files a))).
  { unfold _remove_selected. rewrite Hrun. simpl.
    unfold pop_selected. by rewrite Hri, Hi_num, Hrj, Hj_num. }
  assert (Hrows : map row_file (tree (_remove_selected [i; j] a))
                  = delete (j - 1) (delete i (files a))).
  { unfold _remove_selected. rewrite Hrun. simpl.
    rewrite renumber_from_file, delete_rows_two, !Nat.sub_0_r, !map_delete, Hm by lia.
    done. }
  assert (Hf : files (_remove_selected [i; j] a) !! (j - 1) = files a !! j).
  { rewrite Hfiles, list_lookup_delete_lt, list_lookup_delete_ge by lia.
    f_equal. lia. }
  assert (Hr : map row_file (tree (_remove_selected [i; j] a)) !! (j - 1)
               = files a !! S j).
  { rewrite Hrows, list_lookup_delete_ge by lia.
    replace (S (j - 1)) with j by lia. by rewrite list_lookup_delete_ge by lia. }
  split_and!; try done.
  intros (_ & Hm' & _). rewrite Hm' in Hr. rewrite Hf in Hr.
  destruct (lookup_lt_is_Some_2 (files a) j) as [x Hx]; [lia|].
  rewrite Hx in Hr. symmetry in Hr.
  pose proof (NoDup_lookup _ _ _ _ Hnd Hx Hr). lia.
Qed.

(** The statement at the first two of three files: [c.udf] is dropped
    from the files and stays on display, [b.bin] the other way round. *)
Lemma remove_two_selected_witness :
  let fs : gset string := {[ "/in/a.udf"; "/in/b.bin"; "/in/c.udf" ]} in
  let a := _add_files fs ["/in/a.udf"; "/in/b.bin"; "/in/c.udf"] App_init in
  files (_remove_selected [0; 1] a) = ["/in/b.bin"]
  ∧ map row_file (tree (_remove_selected [0; 1] a)) = ["/in/c.udf"]
  ∧ ¬ queue_ok (_remove_selected [0; 1] a).
Proof.
  intros fs a. split; [by vm_compute|]. split; [by vm_compute|].
  apply (remove_two_selected 0 1 a).
  - unfold queue_ok. split_and!; [decide_true|by vm_compute|by vm_compute].
  - reflexivity.
  - lia.
  - vm_compute. lia.
Defined.

(** ** Starting a batch *)

Lemma on_convert_started v now missing mkdir ask fs a st :
  _on_convert v now missing mkdir ask fs a = inr st →
  files a ≠ []
  ∧ write_parquet v || write_csv v = true
  ∧ nonempty (strip (output_dir v)) = true
  ∧ pathlib.Path_ (strip (output_dir v)) ∈ fs
  ∧ missing = []
  ∧ (subfolder v = true → mkdir = Ok tt)
  ∧ st = mkStarted
           (if subfolder v then pathlib.Path_ (strip (output_dir v)) /: "UDF_Exports"
            else pathlib.Path_ (strip (output_dir v)))
           (if subfolder v
            then {[pathlib.Path_ (strip (output_dir v)) /: "UDF_Exports"]} ∪ fs else fs)
           (mkApp (files a) (tree a) [LStarting (length (files a))]
                  0 (max 1 (length (files a))) true false true
                  (notified a) (fatal_shown a) (open_out_btn a))
           (st_collisions st)
  ∧ (bool_decide (st_collisions st = []) = false → ask = true)
  ∧ st_collisions st
    = if skip_existing v then []
      else _find_collisions v (st_fs st) (files a) (st_out_dir st) (_name_suffix v now).
Proof.
  unfold _on_convert.
  case_bool_decide as Hfiles; [done|].
  destruct (write_parquet v || write_csv v) eqn:Hfmt; simpl; [|done].
  destruct (nonempty (strip (output_dir v))) eqn:Hout; simpl; [|done].
  destruct (pathlib.exists_ fs (pathlib.Path_ (strip (output_dir v)))) eqn:Hex;
    simpl; [|done].
  case_bool_decide as Hmiss; simpl; [|done].
  destruct (if subfolder v then mkdir else Ok tt) as [[]|e] eqn:Hmk; [|done].
  destruct (negb (bool_decide (_ = [])) && negb ask) eqn:Hask; [done|].
  intros [= <-]. simpl.
  apply bool_decide_eq_true_1 in Hex.
  split_and!; try done.
  - intros Hsub. by rewrite Hsub in Hmk.
  - by destruct (subfolder v).
  - intros Hc. rewrite Hc in Hask. by destruct ask.
Qed.

(** X7.  What a started batch is given: when [_on_convert] starts the
    worker, the queue is not empty, a format is enabled, no dependency is
    missing, the output folder, which is the path of the stripped text of
    the entry, exists, and the folder handed to the worker is this folder
    or, if the subfolder is asked for, its [UDF_Exports] subfolder, whose
    [mkdir] then returned; this folder exists on the file system the
    worker gets, which has lost nothing; collisions were looked for only
    with skip-existing off, and if any was found the user confirmed; the
    queue and its rows are untouched, the application is marked running,
    the log holds only the start line, and the progress bar is at 0 with
    the number of files as maximum. *)
Theorem convert_start_state (v : Vars) (now : string) (missing : list string)
    (mkdir : result unit) (ask : bool) (fs : gset string) (a : App) (st : Started) :
  _on_convert v now missing mkdir ask fs a = inr st →
  files a ≠ [] ∧ write_parquet v || write_csv v = true ∧ missing = []
  ∧ nonempty (strip (output_dir v)) = true
  ∧ pathlib.Path_ (strip (output_dir v)) ∈ fs
  ∧ st_out_dir st
    = (if subfolder v then pathlib.Path_ (strip (output_dir v)) /: "UDF_Exports"
       else pathlib.Path_ (strip (output_dir v)))
  ∧ (subfolder v = true → mkdir = Ok tt)
  ∧ st_out_dir st ∈ st_fs st ∧ fs ⊆ st_fs st
  ∧ (skip_existing v = true → st_collisions st = [])
  ∧ (st_collisions st ≠ [] → ask = true)
  ∧ files (st_app st) = files a ∧ tree (st_app st) = tree a
  ∧ is_running (st_app st) = true
  ∧ log (st_app st) = [LStarting (length (files a))]
  ∧ progress_value (st_app st) = 0
  ∧ progress_maximum (st_app st) = length (files a).
Proof.
  intros (Hfiles & Hfmt & Hout & Hex & Hmiss & Hmk & Hst & Hask & Hcol)%on_convert_started.
  rewrite Hst. simpl. split_and!; try done.
  - destruct (subfolder v); [set_solver|done].
  - destruct (subfolder v); [set_solver|done].
  - intros Hskip. by rewrite Hcol, Hskip.
  - intros Hne. apply Hask. by apply bool_decide_eq_false_2.
  - destruct (files a); [done|]. simpl. lia.
Qed.

(** The statement at a start into the subfolder, from an entry with
    blanks and a trailing slash, over one existing output, confirmed by
    the user. *)
Lemma convert_start_state_witness :
  let fs : gset string := {[ "/out"; "/in/a.udf"; "/out/UDF_Exports/a.csv" ]} in
  let v := mkVars " /out/ " true true true "" true false false false in
  let a := _add_files fs ["/in/a.udf"] App_init in
  match _on_convert v "20250101_000000" [] (Ok tt) true fs a with
  | inl _ => False
  | inr st =>
      st_out_dir st = "/out/UDF_Exports" ∧ st_collisions st = ["a.csv"]
      ∧ st_out_dir st ∈ st_fs st
  end.
Proof.
  intros fs v a.
  destruct (_on_convert v "20250101_000000" [] (Ok tt) true fs a) as [r|st] eqn:Hst.
  { by vm_compute in Hst. }
  pose proof (convert_start_state _ _ _ _ _ _ _ _ Hst) as (_ & _ & _ & _ & _ & _ & _ & Hin & _).
  vm_compute in Hst. injection Hst as <-. split_and!; [done|done|exact Hin].
Defined.

(** X8.  While a batch runs the queue can grow but not shrink: on the
    application that [_on_convert] leaves, [_remove_selected] and
    [_clear_list] change nothing, whatever is selected, while
    [_add_files] still appends an existing file that is not queued. *)
Theorem queue_while_running (v : Vars) (now : string) (missing : list string)
    (mkdir : result unit) (ask : bool) (fs : gset string) (a : App) (st : Started) :
  _on_convert v now missing mkdir ask fs a = inr st →
  (∀ sel, _remove_selected sel (st_app st) = st_app st)
  ∧ _clear_list (st_app st) = st_app st
  ∧ (∀ fs' p, pathlib.exists_ fs' (pathlib.Path_ p) = true → pathlib.Path_ p ∉ files a →
       files (_add_files fs' [p] (st_app st)) = files a ++ [pathlib.Path_ p]).
Proof.
  intros (_ & _ & _ & _ & _ & _ & Hst & _)%on_convert_started.
  rewrite Hst. split_and!; [done|done|].
  intros fs' p Hex Hin. rewrite files_add_files. simpl. unfold enqueue_spec.
  by rewrite Hex, (bool_decide_eq_false_2 _ Hin).
Qed.

(** The statement at a started batch of one file. *)
Lemma queue_while_running_witness :
  let fs : gset string := {[ "/out"; "/in/a.udf"; "/in/b.bin" ]} in
  let v := mkVars "/out" true true true "" false false true false in
  let a := _add_files fs ["/in/a.udf"] App_init in
  match _on_convert v "20250101_000000" [] (Ok tt) true fs a with
  | inl _ => False
  | inr st =>
      _clear_list (st_app st) = st_app st
      ∧ files (_add_files fs ["/in/b.bin"] (st_app st)) = ["/in/a.udf"; "/in/b.bin"]
  end.
Proof.
  intros fs v a.
  destruct (_on_convert v "20250101_000000" [] (Ok tt) true fs a) as [r|st] eqn:Hst.
  { by vm_compute in Hst. }
  destruct (queue_while_running _ _ _ _ _ _ _ _ Hst) as (_ & Hclear & Hadd).
  split; [exact Hclear|].
  apply (Hadd fs "/in/b.bin"); [by vm_compute|decide_true].
Defined.

(** ** Collisions *)

Lemma collisions_of_spec v fs out_dir suffix f name :
  name ∈ collisions_of v fs out_dir suffix f ↔
  (write_parquet v = true ∧ name = (pathlib.stem f +:+ suffix) +:+ ".parquet"
   ∨ write_csv v = true ∧ name = (pathlib.stem f +:+ suffix) +:+ ".csv")
  ∧ out_dir /: name ∈ fs.
Proof.
  unfold collisions_of, pathlib.exists_. rewrite elem_of_app.
  destruct (write_parquet v), (write_csv v); simpl;
    repeat case_bool_decide; rewrite ?list_elem_of_singleton, ?elem_of_nil;
    naive_solver.
Qed.

Lemma collisions_of_existed v fs out_dir suffix f :
  collisions_of v fs out_dir suffix f = [] ↔
  existed out_dir (write_parquet v) (write_csv v) suffix fs f = false.
Proof.
  unfold collisions_of, existed, parq_path_of, csv_path_of, path_exists.
  destruct (write_parquet v), (write_csv v); simpl;
    repeat destruct (pathlib.exists_ _ _); simpl; naive_solver.
Qed.

(** X9.  What the collision check reports: a name is reported exactly when
    it is the Parquet or CSV name of a queued file for an enabled format
    and the file of that name exists in the output folder; and the check
    reports nothing exactly when the worker's own existence test, made
    with the same formats and suffix, finds no output for any queued
    file. *)
Theorem find_collisions_spec (v : Vars) (fs : gset string) (fl : list Path)
    (out_dir : Path) (suffix name : string) :
  (name ∈ _find_collisions v fs fl out_dir suffix ↔
   ∃ f, f ∈ fl
        ∧ (write_parquet v = true ∧ name = (pathlib.stem f +:+ suffix) +:+ ".parquet"
           ∨ write_csv v = true ∧ name = (pathlib.stem f +:+ suffix) +:+ ".csv")
        ∧ out_dir /: name ∈ fs)
  ∧ (_find_collisions v fs fl out_dir suffix = [] ↔
     ∀ f, f ∈ fl →
          existed out_dir (write_parquet v) (write_csv v) suffix fs f = false).
Proof.
  unfold _find_collisions. split.
  - induction fl as [|f fl IH]; simpl.
    { rewrite elem_of_nil. split; [done|]. by intros (? & ?%elem_of_nil & _). }
    rewrite elem_of_app, IH, collisions_of_spec. split.
    + intros [[H1 H2]|(g & Hg & H)].
      * exists f. split; [apply list_elem_of_here|done].
      * exists g. split; [by apply list_elem_of_further|done].
    + intros (g & [->|Hg]%elem_of_cons & H); [by left|right; eauto].
  - induction fl as [|f fl IH]; simpl.
    { split; [by intros _ ? ?%elem_of_nil|done]. }
    split.
    + intros [Hf Hfl]%app_nil g [->|Hg]%elem_of_cons.
      * by apply collisions_of_existed.
      * by apply IH.
    + intros H. apply app_nil. split.
      * apply collisions_of_existed, H, list_elem_of_here.
      * apply IH. intros g Hg. by apply H, list_elem_of_further.
Qed.

(** ** Files added while a batch runs *)

Section Arrivals.
Implicit Types (a : App) (c : AppCall) (e : EnqueueCall).

Lemma foldl_commute {A} (I : App → Prop) (f : App → A → App) (g : App → App)
    (xs : list A) a :
  (∀ b x, I b → I (f b x)) →
  (∀ b x, I b → g (f b x) = f (g b) x) →
  I a → g (foldl f a xs) = foldl f (g a) xs.
Proof.
  intros HI Hfg. revert a. induction xs as [|x xs IH]; intros a Ha; simpl; [done|].
  rewrite IH by by apply HI. by rewrite Hfg.
Qed.

Lemma set_status_rows_length q st tag pq cs rows :
  length (set_status_rows q st tag pq cs rows) = length rows.
Proof.
  induction rows as [|r rows IH]; simpl; [done|].
  case_bool_decide; simpl; [done|by rewrite IH].
Qed.

Lemma set_status_rows_app q st tag pq cs rows more :
  is_Some (status_rows q rows) →
  set_status_rows q st tag pq cs (rows ++ more)
  = set_status_rows q st tag pq cs rows ++ more.
Proof.
  induction rows as [|r rows IH]; simpl; [by intros [? [=]]|].
  case_bool_decide; simpl; [done|]. intros Hq. by rewrite IH.
Qed.

Lemma status_rows_app_l q rows more :
  is_Some (status_rows q rows) → is_Some (status_rows q (rows ++ more)).
Proof.
  induction rows as [|r rows IH]; simpl; [by intros [? [=]]|].
  by case_bool_decide.
Qed.

Lemma set_status_rows_renumber q st tag pq cs i rows :
  renumber_from i (set_status_rows q st tag pq cs rows)
  = set_status_rows q st tag pq cs (renumber_from i rows).
Proof.
  revert i. induction rows as [|r rows IH]; intros i; simpl; [done|].
  case_bool_decide; simpl; [done|]. by rewrite IH.
Qed.

(** A call of the loop on a row that is there and the body of an enqueue
    loop give the same display in either order. *)
Lemma tree_insert_commutes c a P :
  match c with
  | CSetStatus q _ _ _ _ => is_Some (status_of a q)
  | CLog _ | CSetProgress _ => True
  | _ => False
  end →
  apply_call (_tree_insert P Queued (set_files (files a ++ [P]) a)) c
  = _tree_insert P Queued (set_files (files a ++ [P]) (apply_call a c)).
Proof.
  destruct c as [q st tag pq cs| | | | |]; try done.
  intros Hq. unfold apply_call, _set_status, _tree_insert, set_tree, set_files. simpl.
  by rewrite set_status_rows_app, set_status_rows_length.
Qed.

Lemma status_of_tree_insert a P q :
  is_Some (status_of a q) →
  is_Some (status_of (_tree_insert P Queued (set_files (files a ++ [P]) a)) q).
Proof. apply status_rows_app_l. Qed.

Lemma files_apply_call a c : files (apply_call a c) = files a.
Proof. by destruct c. Qed.

(** A call of the loop on a row that is there and an enqueue call give
    the same display in either order: the enqueue call appends rows and
    renumbers, the call of the loop rewrites the status of a row, the log
    or the progress value. *)
Lemma enqueue_call_commutes a e c :
  match c with
  | CSetStatus q _ _ _ _ => is_Some (status_of a q)
  | CLog _ | CSetProgress _ => True
  | _ => False
  end →
  apply_call (enqueue_call a e) c = enqueue_call (apply_call a c) e.
Proof.
  intros Hc.
  set (I := λ b, match c with
                 | CSetStatus q _ _ _ _ => is_Some (status_of b q)
                 | CLog _ | CSetProgress _ => True
                 | _ => False
                 end).
  assert (Hend : ∀ b, I b →
            apply_call (_refresh_buttons (_renumber b)) c
            = _refresh_buttons (_renumber (apply_call b c))).
  { intros b Hb. destruct c as [q st tag pq cs| | | | |]; try done.
    unfold apply_call, _set_status, _refresh_buttons, _renumber, set_tree,
      set_convert_btn. simpl.
    by rewrite set_status_rows_renumber. }
  assert (Hadd : ∀ fs b p, I b → I (add_one fs b p)
            ∧ apply_call (add_one fs b p) c = add_one fs (apply_call b c) p).
  { intros fs b p Hb. unfold add_one. rewrite files_apply_call.
    destruct (_ && _); [|done]. split; [|by apply tree_insert_commutes].
    destruct c; try done. by apply status_of_tree_insert. }
  assert (Hdrop : ∀ fs b p, I b → I (drop_one fs b p)
            ∧ apply_call (drop_one fs b p) c = drop_one fs (apply_call b c) p).
  { intros fs b p Hb. unfold drop_one. rewrite files_apply_call.
    destruct (_ && _); [|done]. split; [|by apply tree_insert_commutes].
    destruct c; try done. by apply status_of_tree_insert. }
  assert (Hfold : ∀ {A} (f : App → A → App) xs,
            (∀ b x, I b → I (f b x) ∧ apply_call (f b x) c = f (apply_call b c) x) →
            I (foldl f a xs)
            ∧ apply_call (foldl f a xs) c = foldl f (apply_call a c) xs).
  { intros A f xs Hf. split.
    - clear Hend Hadd Hdrop. revert a Hc. induction xs as [|x xs IH]; intros a Hc; [done|].
      simpl. by apply IH, Hf.
    - apply (foldl_commute I f (λ b, apply_call b c)); [| |done]; intros; by apply Hf. }
  destruct e as [fs paths|fs data]; unfold enqueue_call.
  - unfold _add_files. destruct paths as [|p paths]; [done|].
    destruct (Hfold _ (add_one fs) (p :: paths) (Hadd fs)) as [HI <-].
    by apply Hend.
  - unfold _on_drop_files.
    destruct (Hfold _ (drop_one fs) (_parse_dnd_list data) (Hdrop fs)) as [HI <-].
    by apply Hend.
Qed.

(** Enqueue calls leave the log, the progress bar, the run state and the
    messages alone. *)
Lemma enqueue_call_display a e :
  log (enqueue_call a e) = log a
  ∧ progress_value (enqueue_call a e) = progress_value a
  ∧ progress_maximum (enqueue_call a e) = progress_maximum a
  ∧ is_running (enqueue_call a e) = is_running a.
Proof.
  assert (Hfold : ∀ {A} (f : App → A → App) xs b,
            (∀ b x, log (f b x) = log b ∧ progress_value (f b x) = progress_value b
                    ∧ progress_maximum (f b x) = progress_maximum b
                    ∧ is_running (f b x) = is_running b) →
            log (foldl f b xs) = log b ∧ progress_value (foldl f b xs) = progress_value b
            ∧ progress_maximum (foldl f b xs) = progress_maximum b
            ∧ is_running (foldl f b xs) = is_running b).
  { intros A f xs b Hf. revert b. induction xs as [|x xs IH]; intros b; [done|].
    simpl. destruct (IH (f b x)) as (-> & -> & -> & ->). apply Hf. }
  destruct e as [fs paths|fs data]; unfold enqueue_call.
  - unfold _add_files. destruct paths as [|p paths]; [done|].
    change (log (foldl (add_one fs) a (p :: paths)) = log a
            ∧ progress_value (foldl (add_one fs) a (p :: paths)) = progress_value a
            ∧ progress_maximum (foldl (add_one fs) a (p :: paths)) = progress_maximum a
            ∧ is_running (foldl (add_one fs) a (p :: paths)) = is_running a).
    apply Hfold. intros b x. unfold add_one. by destruct (_ && _).
  - unfold _on_drop_files. simpl. apply Hfold.
    intros b x. unfold drop_one. by destruct (_ && _).
Qed.

Lemma enqueue_calls_display es a :
  log (enqueue_calls es a) = log a
  ∧ progress_value (enqueue_calls es a) = progress_value a
  ∧ progress_maximum (enqueue_calls es a) = progress_maximum a
  ∧ is_running (enqueue_calls es a) = is_running a.
Proof.
  unfold enqueue_calls. revert a. induction es as [|e es IH]; intros a; [done|].
  simpl. destruct (IH (enqueue_call a e)) as (-> & -> & -> & ->).
  apply enqueue_call_display.
Qed.

Lemma progress_maximum_apply_calls cs a :
  progress_maximum (apply_calls cs a) = progress_maximum a.
Proof.
  unfold apply_calls. revert a. induction cs as [|c cs IH]; intros a; simpl; [done|].
  rewrite IH. by destruct c.
Qed.
End Arrivals.

(** The visit of the item at position [k] of the list the loop walks. *)
Lemma wrun_visit E out_dir total fl fs k x :
  import_decoder E = Ok tt →
  fl !! k = Some x →
  (∀ j, j < k → stop_flag E (S j) = false) →
  let o := run_outcome E out_dir (S k) x (w_fs (wrun_before E out_dir total fl fs k)) in
  ∃ cs_pre cs_post,
    calls (wrun E out_dir total fl fs)
    = cs_pre ++ outcome_calls total (S k) x o ++ cs_post
    ∧ calls_about (take k fl) 1 (S k) cs_pre
    ∧ calls_about (drop (S k) fl) (S (S k)) (S (length fl)) cs_post.
Proof.
  intros Himp Hk Hstop o.
  destruct (wrun_frame E out_dir total fl fs Himp) as (cs_tail & Hrun & Htail & _).
  destruct (loop_state_visit E out_dir total
              (write_parquet (tk E 0)) (write_csv (tk E 0)) (scaling (tk E 0))
              (user_msg_of (tk E 0)) (_name_suffix (tk E 0) (ts_now E 0))
              fl 1 (w_init fs) k x Hk Hstop)
    as (cs_pre & cs_post & _ & Hpre & Hcs & Hpost & _).
  exists cs_pre, (cs_post ++ cs_tail). split_and!.
  - rewrite Hrun. unfold wrun_loop. rewrite Hcs. simpl. by rewrite <- !app_assoc.
  - done.
  - apply calls_about_app; [done|by apply no_item_calls_about].
Qed.

(** The statuses the worker sets for a visited item are those of its
    visit. *)
Lemma wrun_trace_at E out_dir total fl fs k x :
  import_decoder E = Ok tt →
  NoDup fl →
  fl !! k = Some x →
  (∀ j, j < k → stop_flag E (S j) = false) →
  let o := run_outcome E out_dir (S k) x (w_fs (wrun_before E out_dir total fl fs k)) in
  status_trace x (calls (wrun E out_dir total fl fs)) =
  match o with
  | OCancelled => [Cancelled]
  | _ => [Running; outcome_status o]
  end.
Proof.
  intros Himp Hnd Hk Hstop o.
  destruct (wrun_visit E out_dir total fl fs k x Himp Hk Hstop)
    as (cs_pre & cs_post & Hcs & Hpre & Hpost).
  destruct (nodup_not_around _ _ _ Hnd Hk) as [Hbefore Hafter].
  rewrite Hcs, !status_trace_app.
  rewrite (status_trace_about _ _ _ _ _ Hpre Hbefore).
  rewrite (status_trace_about _ _ _ _ _ Hpost Hafter).
  by rewrite app_nil_r, status_trace_outcome.
Qed.

(** ** What a run writes *)

Section Written.
Variable E : Env.
Variable out_dir : Path.
Variable total : nat.
Variable do_parq do_csv apply_scaling : bool.
Variable user_msg : option string.
Variable suffix : string.

Local Abbreviation planned x :=
  (option_list (parq_path_of out_dir do_parq suffix x)
   ++ option_list (csv_path_of out_dir do_csv suffix x)).
Local Abbreviation outcome :=
  (item_outcome E out_dir do_parq do_csv apply_scaling user_msg suffix).
Local Abbreviation state_after :=
  (loop_state E out_dir total do_parq do_csv apply_scaling user_msg suffix).

(** The files written for an item are the planned ones, in order, up to
    the call that raises. *)
Lemma attempt_written_prefix x :
  (attempt E out_dir do_parq do_csv apply_scaling user_msg suffix x).1.2
  `prefix_of` planned x.
Proof.
  unfold attempt.
  destruct (UDFDecoder E x) as [[]|?]; [|apply prefix_nil].
  destruct (read_bin_file E x apply_scaling) as [[]|?]; [|apply prefix_nil].
  destruct (match user_msg with Some m => _ | None => _ end) as [[]|?];
    [|apply prefix_nil].
  destruct (parq_path_of out_dir do_parq suffix x) as [p|];
    [destruct (write_table E x p) as [[]|?]; [|apply prefix_nil]|];
    (destruct (csv_path_of out_dir do_csv suffix x) as [c|];
     [destruct (to_csv E x c) as [[]|?]|]); simpl;
    try done; try apply prefix_nil; by apply prefix_cons, prefix_nil.
Qed.

Lemma outcome_written_prefix idx x fs :
  outcome_written (outcome idx x fs) `prefix_of` planned x.
Proof.
  unfold item_outcome. destruct (stop_flag E idx); [apply prefix_nil|].
  destruct (_ && _); [apply prefix_nil|].
  pose proof (attempt_written_prefix x) as H.
  by destruct (attempt _ _ _ _ _ _ _ _) as [[[e|] w] rl].
Qed.

Lemma parq_csv_ne x p c :
  parq_path_of out_dir do_parq suffix x = Some p →
  csv_path_of out_dir do_csv suffix x = Some c → p ≠ c.
Proof.
  unfold parq_path_of, csv_path_of, pathlib.joinpath.
  destruct do_parq, do_csv; try done. intros [= <-] [= <-] Heq.
  destruct (String.eqb out_dir "."); [|destruct (_ || _)];
    repeat apply (inj (String.app _)) in Heq; done.
Qed.

Lemma planned_NoDup x : NoDup (planned x).
Proof.
  destruct (parq_path_of out_dir do_parq suffix x) as [p|] eqn:Hp;
    destruct (csv_path_of out_dir do_csv suffix x) as [c|] eqn:Hc; simpl;
    repeat constructor; try by intros ?%elem_of_nil.
  intros ->%list_elem_of_singleton. by eapply parq_csv_ne.
Qed.

Lemma planned_not_existed x fs q :
  existed out_dir do_parq do_csv suffix fs x = false → q ∈ planned x → q ∉ fs.
Proof.
  unfold existed, path_exists, pathlib.exists_.
  intros [Hp Hc]%orb_false_elim Hin.
  destruct (parq_path_of out_dir do_parq suffix x) as [p|];
    destruct (csv_path_of out_dir do_csv suffix x) as [c|]; simpl in Hin;
    repeat (apply elem_of_cons in Hin as [->|Hin]);
    try (by apply elem_of_nil in Hin);
    try (by apply bool_decide_eq_false_1 in Hp);
    by apply bool_decide_eq_false_1 in Hc.
Qed.

Lemma elem_of_written_fs (w : list Path) (fs : gset string) q :
  q ∈ foldl (λ fs p, {[p]} ∪ fs) fs w ↔ q ∈ w ∨ q ∈ fs.
Proof.
  revert fs. induction w as [|p w IH]; intros fs; simpl.
  { rewrite elem_of_nil. naive_solver. }
  rewrite IH, elem_of_cons. set_solver.
Qed.

(** Everything the loop adds to [produced] is a planned output of one of
    its items. *)
Lemma loop_state_produced items idx s q :
  q ∈ produced (state_after idx items s) →
  q ∈ produced s ∨ ∃ x, x ∈ items ∧ q ∈ planned x.
Proof.
  revert idx s. induction items as [|x rest IH]; intros idx s; [by left|].
  pose proof (outcome_written_prefix idx x (w_fs s)) as [k Hk].
  destruct (stop_flag E idx) eqn:Hstop.
  - rewrite loop_state_stop by done. simpl. rewrite app_nil_r. by left.
  - rewrite loop_state_step by done. intros [Hin|(y & Hy & Hq)]%IH.
    + simpl in Hin. apply elem_of_app in Hin as [?|Hin]; [by left|].
      right. exists x. split; [apply list_elem_of_here|].
      rewrite Hk. apply elem_of_app. by left.
    + right. exists y. split; [by apply list_elem_of_further|done].
Qed.

(** With skip-existing read as on at every item, the loop keeps what it
    produces apart from what was on disk. *)
Lemma loop_state_fresh fs0 items idx s :
  (∀ t, idx ≤ t < idx + length items → skip_existing (tk E t) = true) →
  produced_fresh fs0 s → produced_fresh fs0 (state_after idx items s).
Proof.
  revert idx s. induction items as [|x rest IH]; intros idx s Hskip Hs; [done|].
  destruct (stop_flag E idx) eqn:Hstop.
  { rewrite loop_state_stop by done. unfold produced_fresh. simpl.
    by rewrite app_nil_r. }
  rewrite loop_state_step by done.
  apply IH; [intros t Ht; apply Hskip; simpl; lia|].
  destruct Hs as (Hnd & Hprod & Hfs0).
  pose proof (outcome_written_prefix idx x (w_fs s)) as [k Hk].
  pose proof (planned_NoDup x) as Hplanned. rewrite Hk in Hplanned.
  apply NoDup_app in Hplanned as (Hw & _ & _).
  assert (Hnew : ∀ q, q ∈ outcome_written (outcome idx x (w_fs s)) → q ∉ w_fs s).
  { intros q Hq. unfold item_outcome in Hq. rewrite Hstop, Hskip in Hq by (simpl; lia).
    simpl in Hq.
    destruct (existed out_dir do_parq do_csv suffix (w_fs s) x) eqn:Hex;
      [by apply elem_of_nil in Hq|].
    apply (planned_not_existed x _ _ Hex).
    pose proof (attempt_written_prefix x) as [k' Hk'].
    rewrite Hk'. apply elem_of_app. left.
    by destruct (attempt _ _ _ _ _ _ _ _) as [[[e|] w] rl]. }
  unfold produced_fresh. simpl. split_and!.
  - apply NoDup_app. split_and!; [done| |done].
    intros q Hq Hq'. apply Hnew in Hq'. by apply Hprod in Hq as [? _].
  - intros q [Hq|Hq]%elem_of_app.
    + destruct (Hprod q Hq). split; [|done]. apply elem_of_written_fs. by right.
    + split; [apply elem_of_written_fs; by left|].
      intros Hq0. by apply (Hnew q Hq), Hfs0.
  - intros q Hq. apply elem_of_written_fs. right. by apply Hfs0.
Qed.
End Written.

Lemma wrun_produced_planned E out_dir total fl fs q :
  q ∈ produced (wrun E out_dir total fl fs) →
  ∃ x, x ∈ fl ∧ q ∈ run_planned E out_dir x.
Proof.
  destruct (import_decoder E) as [[]|e] eqn:Himp.
  - destruct (wrun_frame E out_dir total fl fs Himp) as (_ & _ & _ & ->).
    intros [Hin|H]%loop_state_produced; [by apply elem_of_nil in Hin|done].
  - rewrite (wrun_import_failed _ _ _ _ _ _ Himp). simpl. by intros ?%elem_of_nil.
Qed.

Lemma find_collisions_nil v fs fl out_dir suffix :
  _find_collisions v fs fl out_dir suffix = [] ↔
  ∀ f, f ∈ fl → existed out_dir (write_parquet v) (write_csv v) suffix fs f = false.
Proof.
  unfold _find_collisions. induction fl as [|f fl IH]; simpl.
  { split; [by intros _ ? ?%elem_of_nil|done]. }
  split.
  - intros [Hf Hfl]%app_nil g [->|Hg]%elem_of_cons.
    + by apply collisions_of_existed.
    + by apply IH.
  - intros H. apply app_nil. split.
    + apply collisions_of_existed, H, list_elem_of_here.
    + apply IH. intros g Hg. by apply H, list_elem_of_further.
Qed.

(** X10.  A clean collision check is a promise the worker keeps for the
    files that were checked, and for those only.  When [_find_collisions],
    made on the file system the run starts from with the formats and the
    suffix the worker takes, reports nothing for the queue as it is then,
    every path in [produced], that is every Parquet or CSV file a write
    of the run returned for, either was absent from that file system or
    is a planned output of a file that was appended to the queue while
    the run was going, for which no check is made.  The archive, written
    after the loop, is not in [produced] and is not covered. *)
Theorem clean_check_no_overwrite (E : Env) (out_dir : Path) (a : App)
    (arrivals : list EnqueueCall) (fs : gset string) :
  _find_collisions (tk E 0) fs (files a) out_dir (_name_suffix (tk E 0) (ts_now E 0)) = [] →
  ∀ q, q ∈ produced (run_live E out_dir a arrivals fs) →
       (q ∉ fs)
       ∨ ∃ x, x ∈ files (enqueue_calls arrivals a) ∧ (x ∉ files a)
              ∧ q ∈ run_planned E out_dir x.
Proof.
  intros Hnil q (x & Hx & Hq)%wrun_produced_planned.
  rewrite find_collisions_nil in Hnil.
  destruct (decide (x ∈ files a)) as [Hin|Hin].
  - left. by eapply planned_not_existed; [apply Hnil|].
  - right. by exists x.
Qed.

(** The statement at a queue of one file with nothing of it in the output
    folder, to which a second file, whose Parquet output is there, is
    added while the run is going: the output of the first is new, that of
    the second is written over. *)
Lemma clean_check_no_overwrite_witness :
  let fs : gset string := {[ "/out"; "/in/a.udf"; "/in/b.bin"; "/out/b.parquet" ]} in
  let v := mkVars "/out" true true false "" false false false false in
  let E := mkEnv (λ _, v) (λ _, false) (λ _, "20250101_000000") (Ok tt)
             (λ _, Ok tt) (λ _ _, Ok tt) (λ _ _, Ok tt) (λ _ _, Ok tt) (λ _ _, Ok tt)
             (λ _, Ok tt) (λ _ _, Ok tt) (λ _, Ok tt) in
  let a := _add_files fs ["/in/a.udf"] App_init in
  let arrivals := [AddFiles fs ["/in/b.bin"]] in
  produced (run_live E "/out" a arrivals fs) = ["/out/a.parquet"; "/out/b.parquet"]
  ∧ ("/out/a.parquet" ∉ fs)
  ∧ "/out/b.parquet" ∈ fs
  ∧ ∃ x, x ∈ files (enqueue_calls arrivals a) ∧ (x ∉ files a)
         ∧ "/out/b.parquet" ∈ run_planned E "/out" x.
Proof.
  intros fs v E a arrivals.
  split; [vm_compute; reflexivity|]. split; [decide_true|]. split; [decide_true|].
  destruct (clean_check_no_overwrite E "/out" a arrivals fs) with (q := "/out/b.parquet")
    as [Hq|Hx].
  - vm_compute. reflexivity.
  - decide_true.
  - exfalso. apply Hq. decide_true.
  - exact Hx.
Defined.

(** X11.  With skip-existing read as on at every item, a run overwrites
    nothing: no path is produced twice, and every produced path was absent
    from the file system the run started from and is on it at the end,
    with everything that was there before. *)
Theorem skip_existing_no_overwrite (E : Env) (out_dir : Path) (a : App) (fs : gset string) :
  (∀ t, 1 ≤ t ≤ length (files a) → skip_existing (tk E t) = true) →
  NoDup (produced (run E out_dir a fs))
  ∧ (∀ q, q ∈ produced (run E out_dir a fs) →
       q ∈ w_fs (run E out_dir a fs) ∧ q ∉ fs)
  ∧ fs ⊆ w_fs (run E out_dir a fs).
Proof.
  intros Hskip.
  destruct (import_decoder E) as [[]|e] eqn:Himp.
  2:{ rewrite (run_import_failed _ _ _ _ _ Himp). simpl.
      split_and!; [apply NoDup_nil_2|by intros ? ?%elem_of_nil|done]. }
  assert (produced_fresh fs (run_loop E out_dir a fs)) as (Hnd & Hprod & Hfs).
  { apply loop_state_fresh; [intros; apply Hskip; lia|].
    unfold produced_fresh. simpl.
    split_and!; [apply NoDup_nil_2|by intros ? ?%elem_of_nil|done]. }
  rewrite (run_eq _ _ _ _ Himp). simpl.
  destruct (_ && _); [destruct (ZipFile E _) as [[]|?]|]; simpl;
    split_and!; try done.
  - intros q Hq. destruct (Hprod q Hq). split; [set_solver|done].
  - set_solver.
Qed.

(** The statement at two files of the same stem from two folders: the
    second is skipped, not written over the first. *)
Lemma skip_existing_no_overwrite_witness :
  let fs : gset string := {[ "/out"; "/in/a.udf"; "/old/a.udf" ]} in
  let v := mkVars "/out" true true true "" false false true false in
  let E := mkEnv (λ _, v) (λ _, false) (λ _, "20250101_000000") (Ok tt)
             (λ _, Ok tt) (λ _ _, Ok tt) (λ _ _, Ok tt) (λ _ _, Ok tt) (λ _ _, Ok tt)
             (λ _, Ok tt) (λ _ _, Ok tt) (λ _, Ok tt) in
  let a := _add_files fs ["/in/a.udf"; "/old/a.udf"] App_init in
  map row_status (tree (run_app E "/out" a fs)) = [Done; Skipped]
  ∧ NoDup (produced (run E "/out" a fs)).
Proof.
  intros fs v E a. split; [by vm_compute|].
  by apply (skip_existing_no_overwrite E "/out" a fs).
Defined.

(** ** The application after a run *)

Lemma apply_calls_app cs1 cs2 a :
  apply_calls (cs1 ++ cs2) a = apply_calls cs2 (apply_calls cs1 a).
Proof. unfold apply_calls. apply foldl_app. Qed.

Lemma set_status_rows_file p st tag pq c rows :
  map row_file (set_status_rows p st tag pq c rows) = map row_file rows.
Proof.
  induction rows as [|r rows IH]; simpl; [done|].
  case_bool_decide; simpl; [done|by rewrite IH].
Qed.

Lemma set_status_rows_num p st tag pq c rows :
  map row_num (set_status_rows p st tag pq c rows) = map row_num rows.
Proof.
  induction rows as [|r rows IH]; simpl; [done|].
  case_bool_decide; simpl; [done|by rewrite IH].
Qed.

(** No call of the worker touches the queue, the files of the rows or
    their numbers. *)
Lemma apply_calls_queue cs a :
  files (apply_calls cs a) = files a
  ∧ map row_file (tree (apply_calls cs a)) = map row_file (tree a)
  ∧ map row_num (tree (apply_calls cs a)) = map row_num (tree a).
Proof.
  unfold apply_calls. revert a. induction cs as [|c cs IH]; intros a; simpl; [done|].
  destruct (IH (apply_call a c)) as (-> & -> & ->).
  destruct c; simpl; try done.
  by rewrite set_status_rows_file, set_status_rows_num.
Qed.

(** X12.  A run leaves the queue as it found it: the files, the files
    shown by the rows, their order and their numbers are those from
    before the run; in particular a queue that was in order is in order
    after the run. *)
Theorem run_keeps_queue (E : Env) (out_dir : Path) (a : App) (fs : gset string) :
  files (run_app E out_dir a fs) = files a
  ∧ map row_file (tree (run_app E out_dir a fs)) = map row_file (tree a)
  ∧ map row_num (tree (run_app E out_dir a fs)) = map row_num (tree a)
  ∧ (queue_ok a → queue_ok (run_app E out_dir a fs)).
Proof.
  unfold run_app.
  destruct (apply_calls_queue (calls (run E out_dir a fs)) a) as (Hf & Hr & Hn).
  split_and!; try done.
  intros (? & Hm & Hnum). unfold queue_ok. rewrite Hf, Hr, Hn.
  split_and!; try done.
  rewrite Hnum. f_equal.
  by rewrite <- (length_map row_file (tree a)), <- Hr, length_map.
Qed.

(** The statement at a run that converts one file and fails on the
    other. *)
Lemma run_keeps_queue_witness :
  let fs : gset string := {[ "/out"; "/in/a.udf"; "/in/b.bin" ]} in
  let v := mkVars "/out" true true true "" false false true false in
  let E := mkEnv (λ _, v) (λ _, false) (λ _, "20250101_000000") (Ok tt)
             (λ _, Ok tt)
             (λ p _, if bool_decide (p = "/in/a.udf") then Raise "bad header" else Ok tt)
             (λ _ _, Ok tt) (λ _ _, Ok tt) (λ _ _, Ok tt)
             (λ _, Ok tt) (λ _ _, Ok tt) (λ _, Ok tt) in
  let a := _add_files fs ["/in/a.udf"; "/in/b.bin"] App_init in
  queue_ok (run_app E "/out" a fs).
Proof.
  intros fs v E a. apply (run_keeps_queue E "/out" a fs).
  unfold queue_ok. split_and!; [decide_true|by vm_compute|by vm_compute].
Defined.

Lemma apply_item_calls cs a :
  item_calls_only cs →
  is_running (apply_calls cs a) = is_running a
  ∧ convert_btn (apply_calls cs a) = convert_btn a
  ∧ cancel_btn (apply_calls cs a) = cancel_btn a
  ∧ notified (apply_calls cs a) = notified a
  ∧ fatal_shown (apply_calls cs a) = fatal_shown a
  ∧ open_out_btn (apply_calls cs a) = open_out_btn a.
Proof.
  unfold item_calls_only, apply_calls. intros Hcs. revert a.
  induction Hcs as [|c cs Hc _ IH]; intros a; simpl; [done|].
  destruct (IH (apply_call a c)) as (-> & -> & -> & -> & -> & ->).
  by destruct c.
Qed.

Lemma item_calls_only_logs cs : only_logs cs → item_calls_only cs.
Proof.
  unfold only_logs, item_calls_only. intros H.
  eapply Forall_impl; [exact H|]. by intros [].
Qed.

(** The application after the calls that end a run, from the application
    [a1] the calls before them leave. *)
Lemma end_calls_fields stopped out (err : option string) a1 :
  let a' := apply_calls
              ([CSetIsRunning false; CEndRun stopped out]
               ++ match err with Some e => [CShowError e] | None => [] end) a1 in
  is_running a' = false ∧ cancel_btn a' = false
  ∧ convert_btn a' = bool_decide (0 < length (files a1))
  ∧ open_out_btn a' = nonempty (strip out)
  ∧ notified a' = Some (negb stopped)
  ∧ fatal_shown a' = match err with Some e => Some e | None => fatal_shown a1 end.
Proof. by destruct err. Qed.

(** The calls of a run are calls of the loop and of the archive step,
    followed by the calls that end the run. *)
Lemma wrun_calls_end E out_dir total fl fs :
  ∃ cs stopped err,
    calls (wrun E out_dir total fl fs)
    = cs ++ [CSetIsRunning false;
             CEndRun stopped (output_dir (tk E (S (length fl))))]
         ++ match err with Some e => [CShowError e] | None => [] end
    ∧ item_calls_only cs
    ∧ match err with
      | Some e =>
          stopped = true
          ∧ (import_decoder E = Raise e
             ∨ ZipFile E (zip_name_of E out_dir (length fl)) = Raise e
             ∨ (ZipFile E (zip_name_of E out_dir (length fl)) = Ok tt
                ∧ zf_close E (zip_name_of E out_dir (length fl)) = Raise e))
      | None => stopped = stop_flag E (S (length fl))
      end.
Proof.
  destruct (import_decoder E) as [[]|e] eqn:Himp.
  2:{ rewrite (wrun_import_failed _ _ _ _ _ _ Himp).
      exists [], true, (Some e). split_and!; [done|constructor|done|by left]. }
  rewrite (wrun_eq _ _ _ _ _ Himp). simpl.
  pose proof (wrun_loop_item_calls E out_dir total fl fs) as Hloop.
  destruct (_ && _); [destruct (ZipFile E _) as [[]|e] eqn:Hzip|]; simpl.
  - destruct (zf_close E _) as [[]|e] eqn:Hclose.
    + eexists (_ ++ _ :: _), _, None. simpl. rewrite <- app_assoc. simpl.
      split_and!; [done| |done].
      apply Forall_app. split; [done|]. constructor; [done|].
      apply item_calls_only_logs, only_logs_zip_failures.
    + eexists (_ ++ _ :: _), true, (Some e). simpl. rewrite <- app_assoc. simpl.
      split_and!; [done| |done|by right; right].
      apply Forall_app. split; [done|]. constructor; [done|].
      apply item_calls_only_logs, only_logs_zip_failures.
  - eexists (_ ++ [_]), true, (Some e). simpl. rewrite <- app_assoc. simpl.
    split_and!; [done| |done|by right; left].
    apply Forall_app. split; [done|]. by repeat constructor.
  - eexists _, _, None. simpl. split_and!; done.
Qed.

(** X13.  However a run ends, it hands the controls back: the
    application is no longer running, Cancel is disabled, Convert is
    enabled exactly when the queue is not empty, and the button that opens
    the output folder is enabled exactly when the entry of the output
    folder, as read at the end of the run, is not blank.  The user is told
    that the conversion is complete exactly when no fatal error is shown
    and the stop flag is clear after the loop; a fatal error is shown
    only for an exception of the imports, of opening the archive or of
    closing it, and then the user is told that the conversion stopped. *)
Theorem run_end_controls (E : Env) (out_dir : Path) (a : App) (fs : gset string) :
  is_running (run_app E out_dir a fs) = false
  ∧ cancel_btn (run_app E out_dir a fs) = false
  ∧ convert_btn (run_app E out_dir a fs) = bool_decide (0 < length (files a))
  ∧ open_out_btn (run_app E out_dir a fs)
    = nonempty (strip (output_dir (tk E (S (length (files a))))))
  ∧ (notified (run_app E out_dir a fs)
       = Some (negb (stop_flag E (S (length (files a)))))
     ∧ fatal_shown (run_app E out_dir a fs) = fatal_shown a
     ∨ ∃ e, notified (run_app E out_dir a fs) = Some false
            ∧ fatal_shown (run_app E out_dir a fs) = Some e
            ∧ (import_decoder E = Raise e
               ∨ ZipFile E (zip_name_of E out_dir (length (files a))) = Raise e
               ∨ (ZipFile E (zip_name_of E out_dir (length (files a))) = Ok tt
                  ∧ zf_close E (zip_name_of E out_dir (length (files a))) = Raise e))).
Proof.
  unfold run_app.
  destruct (wrun_calls_end E out_dir (length (files a)) (files a) fs)
    as (cs & stopped & err & Hcalls & Hcs & Herr).
  change (wrun E out_dir (length (files a)) (files a) fs) with (run E out_dir a fs)
    in Hcalls.
  rewrite Hcalls, apply_calls_app.
  destruct (end_calls_fields stopped (output_dir (tk E (S (length (files a))))) err
              (apply_calls cs a)) as (-> & -> & -> & -> & -> & ->).
  destruct (apply_calls_queue cs a) as (-> & _).
  destruct (apply_item_calls cs a Hcs) as (_ & _ & _ & _ & -> & _).
  split_and!; try done.
  destruct err as [e|].
  - destruct Herr as [-> Herr]. right. by exists e.
  - left. by rewrite Herr.
Qed.

(** ** Progress and statuses at the end of a run *)

Lemma progress_trace_app cs1 cs2 :
  progress_trace (cs1 ++ cs2) = progress_trace cs1 ++ progress_trace cs2.
Proof.
  induction cs1 as [|c cs1 IH]; simpl; [done|]. destruct c; simpl; by rewrite ?IH.
Qed.

Lemma progress_trace_no_item_calls cs : no_item_calls cs → progress_trace cs = [].
Proof.
  unfold no_item_calls. induction 1 as [|c cs Hc _ IH]; simpl; [done|]. by destruct c.
Qed.

Lemma progress_trace_outcome total idx x o :
  progress_trace (outcome_calls total idx x o)
  = match o with OCancelled => [] | _ => [idx] end.
Proof. by destruct o as [| | |[] ? ?]. Qed.

Lemma progress_value_apply_calls cs a :
  progress_value (apply_calls cs a)
  = default (progress_value a) (last (progress_trace cs)).
Proof.
  unfold apply_calls. revert a. induction cs as [|c cs IH]; intros a; simpl; [done|].
  rewrite IH. destruct c; simpl; try done.
  rewrite last_cons. by destruct (last _).
Qed.

Section LoopProgress.
Variable E : Env.
Variable out_dir : Path.
Variable total : nat.
Variable do_parq do_csv apply_scaling : bool.
Variable user_msg : option string.
Variable suffix : string.

Local Abbreviation state_after :=
  (loop_state E out_dir total do_parq do_csv apply_scaling user_msg suffix).

(** The loop reports the indexes of the items it visits without
    cancelling, in order. *)
Lemma loop_state_progress items idx s k :
  k ≤ length items →
  (∀ j, j < k → stop_flag E (idx + j) = false) →
  (k < length items → stop_flag E (idx + k) = true) →
  ∃ cs, calls (state_after idx items s) = calls s ++ cs
        ∧ progress_trace cs = seq idx k.
Proof.
  revert idx s k. induction items as [|x rest IH]; intros idx s k Hk Hrun Hstop.
  { exists []. simpl in *. rewrite app_nil_r. by replace k with 0 by lia. }
  destruct k as [|k].
  - rewrite loop_state_stop.
    2:{ rewrite <- (Nat.add_0_r idx). apply Hstop. simpl. lia. }
    by eexists.
  - rewrite loop_state_step.
    2:{ rewrite <- (Nat.add_0_r idx). apply Hrun. lia. }
    set (o := item_outcome _ _ _ _ _ _ _ _ _ _).
    destruct (IH (S idx) (outcome_state total idx x o s) k) as (cs & Hcs & Htr).
    + simpl in Hk. lia.
    + intros j Hj. rewrite Nat.add_succ_l, <- Nat.add_succ_r. apply Hrun. lia.
    + intros Hlt. rewrite Nat.add_succ_l, <- Nat.add_succ_r. apply Hstop. simpl. lia.
    + exists (outcome_calls total idx x o ++ cs). split.
      { rewrite Hcs. simpl. by rewrite app_assoc. }
      rewrite progress_trace_app, progress_trace_outcome, Htr.
      assert (o ≠ OCancelled) as Ho.
      { subst o. intros Ho%outcome_cancelled.
        rewrite <- (Nat.add_0_r idx), Hrun in Ho by lia. done. }
      by destruct o.
Qed.
End LoopProgress.

(** X14.  The progress bar at the end of a run shows how many items the
    loop visited before the run was cancelled, or all of them, the files
    appended to the queue while the run was going included: in a run
    whose imports succeed, if no stop is seen at the first [k] boundaries
    and either [k] is the length of the queue as the loop walks it or a
    stop is seen at the next boundary, the progress value is [k] at the
    end, or the value from before the run if [k = 0].  The maximum of the
    bar is not touched by the run, so after files were added the value
    can exceed it. *)
Theorem progress_at_end (E : Env) (out_dir : Path) (a : App)
    (arrivals : list EnqueueCall) (fs : gset string) (k : nat) :
  import_decoder E = Ok tt →
  k ≤ length (files (enqueue_calls arrivals a)) →
  (∀ j, j < k → stop_flag E (S j) = false) →
  (k < length (files (enqueue_calls arrivals a)) → stop_flag E (S k) = true) →
  progress_value (run_live_app E out_dir a arrivals fs)
  = (if bool_decide (k = 0) then progress_value a else k)
  ∧ progress_maximum (run_live_app E out_dir a arrivals fs) = progress_maximum a.
Proof.
  intros Himp Hk Hrun Hstop.
  destruct (enqueue_calls_display arrivals a) as (_ & Hval & Hmax & _).
  unfold run_live_app. rewrite progress_maximum_apply_calls. split; [|done].
  unfold run_live.
  fold (wrun E out_dir (length (files a)) (files (enqueue_calls arrivals a)) fs).
  destruct (wrun_frame E out_dir (length (files a)) (files (enqueue_calls arrivals a))
              fs Himp) as (cs_tail & Hcalls & Htail & _).
  destruct (loop_state_progress E out_dir (length (files a))
              (write_parquet (tk E 0)) (write_csv (tk E 0)) (scaling (tk E 0))
              (user_msg_of (tk E 0)) (_name_suffix (tk E 0) (ts_now E 0))
              (files (enqueue_calls arrivals a)) 1 (w_init fs) k Hk Hrun Hstop)
    as (cs & Hcs & Htr).
  fold (wrun_loop E out_dir (length (files a)) (files (enqueue_calls arrivals a)) fs)
    in Hcs.
  simpl in Hcs.
  rewrite progress_value_apply_calls, Hcalls, Hcs, Hval.
  rewrite progress_trace_app, Htr, (progress_trace_no_item_calls _ Htail), app_nil_r.
  destruct k as [|k]; [done|].
  rewrite seq_S, last_snoc, (bool_decide_eq_false_2 (S k = 0)) by lia. done.
Qed.

(** The statement at a batch started with one file, to which a second is
    added while the run is going: the bar ends at 2 of 1. *)
Lemma progress_at_end_witness :
  let fs : gset string := {[ "/out"; "/in/a.udf"; "/in/b.bin" ]} in
  let v := mkVars "/out" true true true "" false false true false in
  let E := mkEnv (λ _, v) (λ _, false) (λ _, "20250101_000000") (Ok tt)
             (λ _, Ok tt) (λ _ _, Ok tt) (λ _ _, Ok tt) (λ _ _, Ok tt) (λ _ _, Ok tt)
             (λ _, Ok tt) (λ _ _, Ok tt) (λ _, Ok tt) in
  let a0 := _add_files fs ["/in/a.udf"] App_init in
  let a := mkApp (files a0) (tree a0) [LStarting 1] 0 1 true false true None None false in
  let arrivals := [AddFiles fs ["/in/b.bin"]] in
  _on_convert v "20250101_000000" [] (Ok tt) true fs a0 = inr (mkStarted "/out" fs a [])
  ∧ progress_value (run_live_app E "/out" a arrivals fs) = 2
  ∧ progress_maximum (run_live_app E "/out" a arrivals fs) = 1.
Proof.
  intros fs v E a0 a arrivals. split; [vm_compute; reflexivity|].
  destruct (progress_at_end E "/out" a arrivals fs 2) as [Hval Hmax].
  - reflexivity.
  - vm_compute. lia.
  - intros j _. reflexivity.
  - vm_compute. lia.
  - split; [exact Hval|exact Hmax].
Defined.

(** X15.  No item is left Running: after a run over a queue without
    duplicates whose items all showed Queued, every item shows Queued,
    Skipped, Done, Error or Cancelled; and if the imports succeeded and no
    stop was seen at any boundary, every item shows Skipped, Done or
    Error. *)
Theorem run_leaves_none_running (E : Env) (out_dir : Path) (a : App) (fs : gset string)
    (q : Path) :
  NoDup (files a) →
  Forall (λ p, status_of a p = Some Queued) (files a) →
  q ∈ files a →
  (∃ st, status_of (run_app E out_dir a fs) q = Some st ∧ st ≠ Running)
  ∧ (import_decoder E = Ok tt →
     (∀ j, j < length (files a) → stop_flag E (S j) = false) →
     ∃ st, status_of (run_app E out_dir a fs) q = Some st
           ∧ (st = Skipped ∨ st = Done ∨ st = Error)).
Proof.
  intros Hnd Hq Hin. rewrite Forall_forall in Hq. specialize (Hq q Hin).
  unfold run_app. rewrite (status_of_apply_calls _ _ _ _ Hq). split.
  - eexists. split; [done|].
    by destruct (run_trace_shape E out_dir a fs q Hnd) as [->|[->|[->|[->| ->]]]].
  - intros Himp Hstop. eexists. split; [done|].
    apply list_elem_of_lookup in Hin as [k Hk].
    pose proof (lookup_lt_Some _ _ _ Hk) as Hlt.
    rewrite (run_trace_at E out_dir a fs k q Himp Hnd Hk)
      by (intros; apply Hstop; lia).
    destruct (run_outcome E out_dir (S k) q _) eqn:Ho; simpl; auto.
    apply outcome_cancelled in Ho. rewrite Hstop in Ho by lia. done.
Qed.

(** The statement at a run that skips, converts and fails. *)
Lemma run_leaves_none_running_witness :
  let fs : gset string :=
    {[ "/out"; "/in/a.udf"; "/in/b.bin"; "/in/c.udf"; "/out/a.csv" ]} in
  let v := mkVars "/out" true true true "" false false true false in
  let E := mkEnv (λ _, v) (λ _, false) (λ _, "20250101_000000") (Ok tt)
             (λ _, Ok tt)
             (λ p _, if bool_decide (p = "/in/c.udf") then Raise "bad header" else Ok tt)
             (λ _ _, Ok tt) (λ _ _, Ok tt) (λ _ _, Ok tt)
             (λ _, Ok tt) (λ _ _, Ok tt) (λ _, Ok tt) in
  let a := _add_files fs ["/in/a.udf"; "/in/b.bin"; "/in/c.udf"] App_init in
  map row_status (tree (run_app E "/out" a fs)) = [Skipped; Done; Error]
  ∧ ∃ st, status_of (run_app E "/out" a fs) "/in/c.udf" = Some st ∧ st ≠ Running.
Proof.
  intros fs v E a. split; [by vm_compute|].
  apply (run_leaves_none_running E "/out" a fs "/in/c.udf"); decide_true.
Defined.

(** ** A run in which nothing goes wrong *)

Lemma attempt_converts E out_dir x :
  run_converts E out_dir x →
  attempt E out_dir (write_parquet (tk E 0)) (write_csv (tk E 0)) (scaling (tk E 0))
    (user_msg_of (tk E 0)) (_name_suffix (tk E 0) (ts_now E 0)) x
  = (None, run_planned E out_dir x, true).
Proof.
  intros ((H1 & H2 & H3) & Hp & Hc).
  unfold attempt, run_planned, run_parq_path, run_csv_path in *.
  rewrite H1, H2.
  destruct (user_msg_of (tk E 0)); [rewrite H3|];
    (destruct (parq_path_of _ _ _ _) as [p|]; [rewrite (Hp p eq_refl)|]);
    (destruct (csv_path_of _ _ _ _) as [c|]; [rewrite (Hc c eq_refl)|]); done.
Qed.

Lemma run_outcome_done E out_dir idx x fs :
  stop_flag E idx = false → skip_existing (tk E idx) = false →
  run_converts E out_dir x →
  run_outcome E out_dir idx x fs
  = ODone (if truthy (run_parq_path E out_dir x) then Check else Blank)
          (if truthy (run_csv_path E out_dir x) then Check else Blank)
          (run_planned E out_dir x).
Proof.
  intros Hstop Hskip Hconv. unfold run_outcome, item_outcome.
  by rewrite Hstop, Hskip, (attempt_converts _ _ _ Hconv).
Qed.

Lemma loop_state_all_done E out_dir total items idx s :
  (∀ t, idx ≤ t < idx + length items →
        stop_flag E t = false ∧ skip_existing (tk E t) = false) →
  (∀ x, x ∈ items → run_converts E out_dir x) →
  produced
    (loop_state E out_dir total
       (write_parquet (tk E 0)) (write_csv (tk E 0)) (scaling (tk E 0))
       (user_msg_of (tk E 0)) (_name_suffix (tk E 0) (ts_now E 0)) idx items s)
  = produced s ++ (items ≫= run_planned E out_dir).
Proof.
  revert idx s. induction items as [|x rest IH]; intros idx s Ht Hconv.
  { simpl. by rewrite app_nil_r. }
  destruct (Ht idx) as [Hstop Hskip]; [simpl; lia|].
  rewrite loop_state_step by done. rewrite IH.
  - fold (run_outcome E out_dir idx x (w_fs s)).
    rewrite run_outcome_done by (done || apply Hconv, list_elem_of_here).
    simpl. by rewrite <- app_assoc.
  - intros t Hlt. apply Ht. simpl. lia.
  - intros y Hy. by apply Hconv, list_elem_of_further.
Qed.

(** X16.  When nothing goes wrong, every file is converted to every
    enabled format, the files appended to the queue while the run was
    going included: in a run whose imports succeed, over a queue that has
    no duplicates when the worker starts and in which, as the loop walks
    it, every file has a row, with no stop seen, skip-existing read as
    off at every item and every call of the decoder and the writers
    returning, every item ends Done and [produced] holds, in queue order,
    the Parquet path and then the CSV path planned for each file, so as
    many entries per file as formats are enabled. *)
Theorem run_all_done (E : Env) (out_dir : Path) (a : App)
    (arrivals : list EnqueueCall) (fs : gset string) :
  import_decoder E = Ok tt →
  NoDup (files a) →
  Forall (λ p, is_Some (status_of (enqueue_calls arrivals a) p))
    (files (enqueue_calls arrivals a)) →
  (∀ t, 1 ≤ t ≤ length (files (enqueue_calls arrivals a)) →
        stop_flag E t = false ∧ skip_existing (tk E t) = false) →
  (∀ x, x ∈ files (enqueue_calls arrivals a) → run_converts E out_dir x) →
  Forall (λ p, status_of (run_live_app E out_dir a arrivals fs) p = Some Done)
    (files (enqueue_calls arrivals a))
  ∧ produced (run_live E out_dir a arrivals fs)
    = files (enqueue_calls arrivals a) ≫= run_planned E out_dir
  ∧ length (produced (run_live E out_dir a arrivals fs))
    = length (files (enqueue_calls arrivals a))
      * (Nat.b2n (write_parquet (tk E 0)) + Nat.b2n (write_csv (tk E 0))).
Proof.
  intros Himp Hnd Hq Ht Hconv. rewrite Forall_forall in Hq.
  apply (enqueue_calls_inv arrivals) in Hnd as [Hnd _].
  unfold run_live_app, run_live.
  fold (wrun E out_dir (length (files a)) (files (enqueue_calls arrivals a)) fs).
  set (fl := files (enqueue_calls arrivals a)) in *.
  assert (Hprod : produced (wrun E out_dir (length (files a)) fl fs)
                  = fl ≫= run_planned E out_dir).
  { destruct (wrun_frame E out_dir (length (files a)) fl fs Himp) as (_ & _ & _ & ->).
    unfold wrun_loop. rewrite loop_state_all_done; [done| |done].
    intros t Hlt. apply Ht. lia. }
  split_and!.
  - apply Forall_forall. intros p Hp.
    pose proof Hp as Hp'. apply list_elem_of_lookup in Hp' as [k Hk].
    pose proof (lookup_lt_Some _ _ _ Hk) as Hlt.
    destruct (Hq p Hp) as [st0 Hst0].
    rewrite (status_of_apply_calls _ _ _ _ Hst0).
    rewrite (wrun_trace_at E out_dir (length (files a)) fl fs k p Himp Hnd Hk)
      by (intros; apply Ht; lia).
    destruct (Ht (S k)) as [Hstop Hskip]; [lia|].
    by rewrite (run_outcome_done E out_dir (S k) p _ Hstop Hskip (Hconv p Hp)).
  - done.
  - rewrite Hprod. clear. induction fl as [|x l IH]; [done|].
    change ((x :: l) ≫= run_planned E out_dir)
      with (run_planned E out_dir x ++ (l ≫= run_planned E out_dir)).
    rewrite length_app, IH. simpl. f_equal.
    unfold run_planned, run_parq_path, run_csv_path, parq_path_of, csv_path_of.
    by destruct (write_parquet (tk E 0)), (write_csv (tk E 0)).
Qed.

(** The statement at a queue of two files to which a third is dropped
    while the run is going: six produced files. *)
Lemma run_all_done_witness :
  let fs : gset string := {[ "/out"; "/in/a.udf"; "/in/b.bin"; "/in/c.udf" ]} in
  let v := mkVars "/out" true true true "" false false false false in
  let E := mkEnv (λ _, v) (λ _, false) (λ _, "20250101_000000") (Ok tt)
             (λ _, Ok tt) (λ _ _, Ok tt) (λ _ _, Ok tt) (λ _ _, Ok tt) (λ _ _, Ok tt)
             (λ _, Ok tt) (λ _ _, Ok tt) (λ _, Ok tt) in
  let a := _add_files fs ["/in/a.udf"; "/in/b.bin"] App_init in
  let arrivals := [DropFiles fs "/in/c.udf /in/a.udf"] in
  files (enqueue_calls arrivals a) = ["/in/a.udf"; "/in/b.bin"; "/in/c.udf"]
  ∧ length (produced (run_live E "/out" a arrivals fs)) = 6
  ∧ Forall (λ p, status_of (run_live_app E "/out" a arrivals fs) p = Some Done)
      (files (enqueue_calls arrivals a)).
Proof.
  intros fs v E a arrivals.
  split; [vm_compute; reflexivity|].
  destruct (run_all_done E "/out" a arrivals fs) as (Hdone & _ & Hlen).
  - reflexivity.
  - decide_true.
  - decide_true.
  - intros t _. split; reflexivity.
  - intros x _. repeat split; reflexivity.
  - split; [|exact Hdone]. rewrite Hlen. vm_compute. reflexivity.
Defined.

(** ** What a run reads of the configuration *)

(** X17.  The Tk variables reach a run only through the five values the
    worker copies before the loop (the two formats, scaling, the user
    message and the timestamp option), the value of skip-existing at each
    item, the value of zip-outputs after the loop and the text of the
    output folder that [_end_run] reads at the end of the run: whatever
    else is changed in the variables, before or during the run, the run
    is the same, in what it writes, produces, archives and shows. *)
Theorem run_config_reads (E : Env) (tk' : nat → Vars) (out_dir : Path) (a : App)
    (fs : gset string) :
  write_parquet (tk' 0) = write_parquet (tk E 0) →
  write_csv (tk' 0) = write_csv (tk E 0) →
  scaling (tk' 0) = scaling (tk E 0) →
  user_message (tk' 0) = user_message (tk E 0) →
  timestamp_suffix (tk' 0) = timestamp_suffix (tk E 0) →
  (∀ t, 1 ≤ t ≤ length (files a) → skip_existing (tk' t) = skip_existing (tk E t)) →
  zip_outputs (tk' (S (length (files a)))) = zip_outputs (tk E (S (length (files a)))) →
  output_dir (tk' (S (length (files a)))) = output_dir (tk E (S (length (files a)))) →
  run (with_tk tk' E) out_dir a fs = run E out_dir a fs
  ∧ run_app (with_tk tk' E) out_dir a fs = run_app E out_dir a fs.
Proof.
  intros Hp Hc Hs Hm Ht Hskip Hzip Hout.
  assert (run (with_tk tk' E) out_dir a fs = run E out_dir a fs) as Hrun
    by by apply run_reads.
  split; [done|]. unfold run_app. by rewrite Hrun.
Qed.

(** The statement at a run during which the user unticks both formats and
    scaling, edits the message, ticks the subfolder and the timestamp,
    and edits the output folder and restores it before the run ends. *)
Lemma run_config_reads_witness :
  let fs : gset string := {[ "/out"; "/in/a.udf"; "/in/b.bin" ]} in
  let v := mkVars "/out" true true true "run 1" false false true false in
  let v' := mkVars "/elsewhere" false false false "run 2" true true true false in
  let v_end := mkVars "/out" false false false "run 2" true true true false in
  let E := mkEnv (λ _, v) (λ _, false) (λ _, "20250101_000000") (Ok tt)
             (λ _, Ok tt) (λ _ _, Ok tt) (λ _ _, Ok tt) (λ _ _, Ok tt) (λ _ _, Ok tt)
             (λ _, Ok tt) (λ _ _, Ok tt) (λ _, Ok tt) in
  let a := _add_files fs ["/in/a.udf"; "/in/b.bin"] App_init in
  let tk' := λ t, if bool_decide (t = 0) then v
                  else if bool_decide (t = 3) then v_end else v' in
  run (with_tk tk' E) "/out" a fs = run E "/out" a fs.
Proof.
  intros fs v v' v_end E a tk'.
  apply (run_config_reads E tk' "/out" a fs); try reflexivity.
  intros t Ht. unfold tk'. simpl. by repeat case_bool_decide.
Defined.

(** ** Settings *)

(** X18.  Settings survive a restart: when the settings file is written,
    restoring from it gives back exactly the variables that were
    persisted, whatever the theme and whatever the file held before. *)
Theorem settings_round_trip (tk_text : JVal → string) (failed : SettingsFile)
    (theme : string) (v : Vars) :
  (∀ s, tk_text (JStr s) = s) →
  _restore_settings tk_text (_persist_settings true failed theme v) = Some v.
Proof.
  intros Htext. unfold _restore_settings, _persist_settings, save_settings.
  simpl. unfold dict_get, settings_data. simplify_map_eq.
  rewrite !Htext. by destruct v.
Qed.

(** The statement for a Tk that shows other values by their kind. *)
Lemma settings_round_trip_witness :
  let tk_text := λ x, match x with JStr s => s | _ => "?" end in
  let v := mkVars "/out" false true false "hello" true true false true in
  _restore_settings tk_text (_persist_settings true BadJson "flatly" v) = Some v.
Proof. intros tk_text v. by apply settings_round_trip. Defined.

(** X19.  A missing or unreadable settings file gives the defaults and
    never fails: without a file, with a file that is not JSON, or with a
    JSON object that has none of the nine keys (whatever else it has),
    restoring gives the values the variables are created with.  From a
    JSON object the restore always succeeds, and each of the nine
    variables is read on its own: each of the seven options gets the
    truth value of the value under its key, or its default (on for
    scaling, the two formats and skip-existing, off for the others) when
    the key is missing; the output folder and the user message get the
    text Tk shows for the value under their key, or the empty text.  The
    restore raises exactly when the file holds a JSON value that is not
    an object. *)
Theorem settings_defaults (tk_text : JVal → string) :
  tk_text (JStr "") = "" →
  _restore_settings tk_text NoFile = Some Vars_init
  ∧ _restore_settings tk_text BadJson = Some Vars_init
  ∧ (∀ d, Forall (λ k, d !! k = None)
            ["output_dir"; "scaling"; "write_parquet"; "write_csv"; "user_message";
             "subfolder"; "timestamp_suffix"; "skip_existing"; "zip_outputs"] →
          _restore_settings tk_text (JsonDict d) = Some Vars_init)
  ∧ (∀ d, ∃ v,
       _restore_settings tk_text (JsonDict d) = Some v
       ∧ Forall (λ '(k, field, dflt),
                   field v = match d !! k with Some x => py_bool x | None => dflt end)
           [("scaling", scaling, true); ("write_parquet", write_parquet, true);
            ("write_csv", write_csv, true); ("subfolder", subfolder, false);
            ("timestamp_suffix", timestamp_suffix, false);
            ("skip_existing", skip_existing, true); ("zip_outputs", zip_outputs, false)]
       ∧ Forall (λ '(k, field),
                   field v = match d !! k with Some x => tk_text x | None => "" end)
           [("output_dir", output_dir); ("user_message", user_message)])
  ∧ (∀ f, _restore_settings tk_text f = None ↔ f = JsonOther).
Proof.
  intros Htext. unfold _restore_settings, Vars_init, dict_get. simpl.
  split_and!; try done; try (by rewrite !lookup_empty, Htext).
  - intros d Hd. rewrite !Forall_cons in Hd.
    destruct Hd as (-> & -> & -> & -> & -> & -> & -> & -> & -> & _).
    by rewrite Htext.
  - intros d. eexists. split; [done|]. split.
    + repeat constructor; simpl; by destruct (d !! _).
    + repeat constructor; simpl; destruct (d !! _); by rewrite ?Htext.
  - intros f. by destruct f.
Qed.

(** The statement for a Tk that shows other values by their kind, at a
    file that only holds the theme. *)
Lemma settings_defaults_witness :
  let tk_text := λ x, match x with JStr s => s | _ => "?" end in
  _restore_settings tk_text (JsonDict {[ "theme" := JStr "cosmo" ]}) = Some Vars_init.
Proof.
  intros tk_text.
  destruct (settings_defaults tk_text eq_refl) as (_ & _ & H & _).
  apply H. repeat constructor.
Defined.

(** ** The trial version against tk.py *)

(** One visit of the trial loop is the visit of tk.py with the empty
    suffix and the skip option off, but for the list [produced]. *)
Lemma trial_loop_body_eq E out_dir total dp dc sc um idx x s :
  skip_existing (tk E idx) = false →
  trial_1.loop_body E out_dir total dp dc sc um idx x (forget_produced s) =
  (Ok (outcome_flow (item_outcome E out_dir dp dc sc um "" idx x (w_fs s))),
   forget_produced
     (outcome_state total idx x
        (item_outcome E out_dir dp dc sc um "" idx x (w_fs s)) s)).
Proof.
  intros Hskip.
  unfold trial_1.loop_body, trial_1.convert_item, trial_1.item_except,
    item_outcome, attempt, outcome_state, forget_produced,
    parq_path_of, csv_path_of.
  rewrite Hskip, string_app_nil_r.
  unfold_monad. destruct s as [fs prod arch cs]; simpl.
  destruct (stop_flag E idx); simpl; [solve_visit|].
  destruct (UDFDecoder E x) as [[]|e]; simpl; [|solve_visit].
  destruct (read_bin_file E x sc) as [[]|e]; simpl; [|solve_visit].
  destruct um as [m|]; [destruct (add_user_meta_data E x m) as [[]|e]|]; simpl.
  2: solve_visit.
  all: destruct dp; [destruct (write_table E x _) as [[]|e]|]; simpl;
    try solve_visit.
  all: destruct dc; [destruct (to_csv E x _) as [[]|e]|]; simpl; solve_visit.
Qed.

Lemma trial_for_loop_eq E out_dir total dp dc sc um items idx s :
  (∀ t, idx ≤ t < idx + length items → skip_existing (tk E t) = false) →
  trial_1.for_loop E out_dir total dp dc sc um idx items (forget_produced s) =
  (Ok tt, forget_produced (loop_state E out_dir total dp dc sc um "" idx items s)).
Proof.
  revert idx s. induction items as [|x rest IH]; intros idx s Hskip; [done|].
  change (trial_1.for_loop E out_dir total dp dc sc um idx (x :: rest))
    with (fl ← trial_1.loop_body E out_dir total dp dc sc um idx x;
          match fl with
          | Break => mret tt
          | _ => trial_1.for_loop E out_dir total dp dc sc um (S idx) rest
          end).
  unfold mbind, M_bind at 1.
  rewrite trial_loop_body_eq by (apply Hskip; simpl; lia).
  assert (Hrest : ∀ s',
    trial_1.for_loop E out_dir total dp dc sc um (S idx) rest (forget_produced s') =
    (Ok tt, forget_produced
              (loop_state E out_dir total dp dc sc um "" (S idx) rest s'))).
  { intros s'. apply IH. intros t Ht. apply Hskip. simpl. lia. }
  simpl. destruct (item_outcome _ _ _ _ _ _ _ _ _ _); simpl; by rewrite ?Hrest.
Qed.

(** The state the trial worker ends in, when the imports succeed. *)
Lemma trial_run_eq E a fs :
  import_decoder E = Ok tt →
  timestamp_suffix (tk E 0) = false →
  (∀ t, 1 ≤ t ≤ length (files a) → skip_existing (tk E t) = false) →
  trial_1.run E a fs =
  mkW (w_fs (run_loop E (pathlib.Path_ (strip (output_dir (tk E 0)))) a fs)) []
      (archive (run_loop E (pathlib.Path_ (strip (output_dir (tk E 0)))) a fs))
      (calls (run_loop E (pathlib.Path_ (strip (output_dir (tk E 0)))) a fs)
       ++ [CSetIsRunning false;
           CEndRun (stop_flag E (S (length (files a))))
                   (output_dir (tk E (S (length (files a)))))]).
Proof.
  intros Himp Hts Hskip. unfold trial_1.run, trial_1._worker_run, run_loop.
  unfold try_except. unfold mbind, M_bind, call. rewrite Himp.
  change (w_init fs) with (forget_produced (w_init fs)) at 1.
  rewrite trial_for_loop_eq by (intros t Ht; apply Hskip; lia).
  unfold _name_suffix. rewrite Hts.
  unfold app_call, forget_produced. simpl.
  apply WState_eq; try done. by rewrite <- ?app_assoc.
Qed.

Lemma trial_apply_item_calls cs a :
  item_calls_only cs → trial_1.apply_calls cs a = apply_calls cs a.
Proof.
  unfold item_calls_only, trial_1.apply_calls, apply_calls. intros Hcs. revert a.
  induction Hcs as [|c cs Hc _ IH]; intros a; simpl; [done|].
  rewrite <- IH. by destruct c.
Qed.

Lemma trial_apply_calls_end cs b out a :
  item_calls_only cs →
  trial_1.apply_calls (cs ++ [CSetIsRunning false; CEndRun b out]) a
  = apply_calls (cs ++ [CSetIsRunning false; CEndRun b out]) a.
Proof.
  intros Hcs. unfold trial_1.apply_calls, apply_calls. rewrite !foldl_app.
  fold (trial_1.apply_calls cs a). fold (apply_calls cs a).
  by rewrite (trial_apply_item_calls cs a Hcs).
Qed.

(** X20.  tk.py's worker with its new options off is the trial worker:
    when the imports succeed, the timestamp option is off when the run
    starts, skip-existing is off at every item and zip-outputs is off
    after the loop, the worker of tk.py run on the folder the trial
    worker reads leaves the same file system, makes the same calls on the
    display in the same order and leaves the same application. *)
Theorem trial_agrees (E : Env) (a : App) (fs : gset string) :
  import_decoder E = Ok tt →
  timestamp_suffix (tk E 0) = false →
  (∀ t, 1 ≤ t ≤ length (files a) → skip_existing (tk E t) = false) →
  zip_outputs (tk E (S (length (files a)))) = false →
  w_fs (trial_1.run E a fs)
  = w_fs (run E (pathlib.Path_ (strip (output_dir (tk E 0)))) a fs)
  ∧ calls (trial_1.run E a fs)
    = calls (run E (pathlib.Path_ (strip (output_dir (tk E 0)))) a fs)
  ∧ trial_1.run_app E a fs
    = run_app E (pathlib.Path_ (strip (output_dir (tk E 0)))) a fs.
Proof.
  intros Himp Hts Hskip Hzip.
  assert (Hcalls : calls (trial_1.run E a fs)
                   = calls (run E (pathlib.Path_ (strip (output_dir (tk E 0)))) a fs)).
  { rewrite (trial_run_eq E a fs Himp Hts Hskip), (run_eq _ _ _ _ Himp).
    simpl. by rewrite Hzip. }
  split_and!.
  - rewrite (trial_run_eq E a fs Himp Hts Hskip), (run_eq _ _ _ _ Himp).
    simpl. by rewrite Hzip.
  - done.
  - unfold trial_1.run_app, run_app. rewrite Hcalls.
    rewrite (run_eq _ _ _ _ Himp). simpl. rewrite Hzip. simpl.
    apply trial_apply_calls_end, run_loop_item_calls.
Qed.

(** The statement at a queue of two files, one of which the decoder
    rejects. *)
Lemma trial_agrees_witness :
  let fs : gset string := {[ "/out"; "/in/a.udf"; "/in/b.bin" ]} in
  let v := mkVars " /out/ " true true true "" false false false false in
  let E := mkEnv (λ _, v) (λ _, false) (λ _, "20250101_000000") (Ok tt)
             (λ x, if String.eqb x "/in/b.bin" then Raise "bad header" else Ok tt)
             (λ _ _, Ok tt) (λ _ _, Ok tt) (λ _ _, Ok tt) (λ _ _, Ok tt)
             (λ _, Ok tt) (λ _ _, Ok tt) (λ _, Ok tt) in
  let a := _add_files fs ["/in/a.udf"; "/in/b.bin"] App_init in
  w_fs (trial_1.run E a fs) = w_fs (run E "/out" a fs)
  ∧ calls (trial_1.run E a fs) = calls (run E "/out" a fs)
  ∧ trial_1.run_app E a fs = run_app E "/out" a fs.
Proof.
  intros fs v E a.
  apply (trial_agrees E a fs); [reflexivity|reflexivity|intros t _; reflexivity|reflexivity].
Defined.

(** X21.  After a fatal error of the imports both versions show the
    error and touch neither the table nor the file system, but they do
    not tell the user the same: tk.py announces that the conversion
    stopped, the trial version announces it complete unless the stop flag
    is set. *)
Theorem import_error_notice (E : Env) (out_dir : Path) (a : App)
    (fs : gset string) (e : string) :
  import_decoder E = Raise e →
  (notified (run_app E out_dir a fs) = Some false
   ∧ notified (trial_1.run_app E a fs)
     = Some (negb (stop_flag E (S (length (files a))))))
  ∧ (fatal_shown (run_app E out_dir a fs) = Some e
     ∧ fatal_shown (trial_1.run_app E a fs) = Some e)
  ∧ (tree (run_app E out_dir a fs) = tree a
     ∧ tree (trial_1.run_app E a fs) = tree a)
  ∧ (w_fs (run E out_dir a fs) = fs ∧ w_fs (trial_1.run E a fs) = fs)
  ∧ (is_running (run_app E out_dir a fs) = false
     ∧ is_running (trial_1.run_app E a fs) = false).
Proof.
  intros Himp.
  unfold run_app, trial_1.run_app, run, trial_1.run, _worker_run,
    trial_1._worker_run, try_except.
  unfold mbind, M_bind, call. rewrite Himp. unfold app_call. simpl.
  by repeat split.
Qed.

Lemma import_error_notice_witness :
  let E := mkEnv (λ _, Vars_init) (λ _, false) (λ _, "20250101_000000")
             (Raise "No module named pyarrow")
             (λ _, Ok tt) (λ _ _, Ok tt) (λ _ _, Ok tt) (λ _ _, Ok tt) (λ _ _, Ok tt)
             (λ _, Ok tt) (λ _ _, Ok tt) (λ _, Ok tt) in
  let a := _add_files {[ "/in/a.udf" ]} ["/in/a.udf"] App_init in
  notified (run_app E "/out" a {[ "/in/a.udf" ]}) = Some false
  ∧ notified (trial_1.run_app E a {[ "/in/a.udf" ]}) = Some true.
Proof.
  intros E a.
  destruct (import_error_notice E "/out" a {[ "/in/a.udf" ]} "No module named pyarrow")
    as ((H1 & H2) & _); [reflexivity|].
  split; [exact H1|exact H2].
Defined.

(** X22.  The collision check of tk.py with the timestamp option off is
    the collision check of the trial version. *)
Theorem find_collisions_trial (v : Vars) (now : string) (fs : gset string)
    (fl : list Path) (out_dir : Path) :
  timestamp_suffix v = false →
  _find_collisions v fs fl out_dir (_name_suffix v now)
  = trial_1._find_collisions v fs fl out_dir.
Proof.
  intros Hts. unfold _find_collisions, trial_1._find_collisions, _name_suffix.
  rewrite Hts. f_equal. apply map_ext. intros f.
  unfold collisions_of. by rewrite string_app_nil_r.
Qed.

Lemma find_collisions_trial_witness :
  _find_collisions (mkVars "/out" true true true "" false false false false)
    {[ "/out/a.csv" ]} ["/in/a.udf"] "/out"
    (_name_suffix (mkVars "/out" true true true "" false false false false) "t")
  = trial_1._find_collisions (mkVars "/out" true true true "" false false false false)
      {[ "/out/a.csv" ]} ["/in/a.udf"] "/out".
Proof. apply find_collisions_trial. reflexivity. Defined.
